(** * Verification of the ArangoDB query builders

    A shallow embedding of [src/querybuilder/base-query-builder.ts],
    [document-query-builder.ts], [edge-query-builder.ts] and the view
    builder, together with the option types of
    [types/arango-query-options.interface.ts].

    Builders are JavaScript objects that point at each other ([_parent],
    [additionalQueries]) and are mutated in place, so they live in an
    explicit object store ([heap]); every method is a computation over that
    store which may return, throw, or fail to terminate. *)

From Stdlib Require Import Ascii String ZArith Lia.
From stdpp Require Import base tactics option list gmap strings pretty fin_maps.

Open Scope string_scope.
Open Scope list_scope.

(* ================================================================== *)
(** * Strings *)
(* ================================================================== *)

Module Str.

(** [Array.prototype.join] on strings. *)
Fixpoint join (sep : string) (l : list string) : string :=
  match l with
  | [] => ""
  | [x] => x
  | x :: l' => x +:+ sep +:+ join sep l'
  end.

(** [String.prototype.split] with a one-character separator: the result
    always has at least one element. *)
Fixpoint split (sep : ascii) (s : string) : list string :=
  match s with
  | EmptyString => [""]
  | String c s' =>
      let r := split sep s' in
      if Ascii.eqb c sep then "" :: r
      else match r with
           | x :: xs => String c x :: xs
           | [] => [String c ""]
           end
  end.

Fixpoint all (p : ascii -> bool) (s : string) : bool :=
  match s with
  | EmptyString => true
  | String c s' => p c && all p s'
  end.

Lemma app_nil_l (s : string) : "" +:+ s = s.
Proof. reflexivity. Qed.

Lemma app_cons c (s t : string) : String c s +:+ t = String c (s +:+ t).
Proof. reflexivity. Qed.

Lemma app_nil_r (s : string) : s +:+ "" = s.
Proof.
  induction s as [|c s IH]; [done|]. rewrite app_cons. by f_equal.
Qed.

Lemma app_assoc (a b c : string) : (a +:+ b) +:+ c = a +:+ (b +:+ c).
Proof.
  induction a as [|x a IH]; [done|]. rewrite !app_cons. by f_equal.
Qed.

Lemma all_app p a b : all p (a +:+ b) = (all p a && all p b)%bool.
Proof.
  induction a as [|x a IH]; [done|].
  rewrite app_cons. simpl. rewrite IH. by destruct (p x).
Qed.

Lemma all_impl (p q : ascii -> bool) s :
  (forall c, p c = true -> q c = true) -> all p s = true -> all q s = true.
Proof.
  intros Hpq. induction s as [|c s IH]; simpl; [done|].
  intros [Hc Hs]%andb_prop. rewrite (Hpq _ Hc). simpl. auto.
Qed.

End Str.

(* ================================================================== *)
(** * Regular expressions

    The two patterns of the source are tested with [RegExp.prototype.test]
    on anchored patterns, that is, against the whole string.  [matches] is
    the declarative meaning of a pattern, [test] the matcher that runs. *)
(* ================================================================== *)

Module Re.

Inductive regex : Type :=
| Void
| Eps
| Cls (p : ascii -> bool)
| Alt (r1 r2 : regex)
| Seq (r1 r2 : regex)
| Star (r : regex).

Inductive matches : regex -> string -> Prop :=
| MEps : matches Eps ""
| MCls p c : p c = true -> matches (Cls p) (String c "")
| MAltL r1 r2 s : matches r1 s -> matches (Alt r1 r2) s
| MAltR r1 r2 s : matches r2 s -> matches (Alt r1 r2) s
| MSeq r1 r2 s1 s2 :
    matches r1 s1 -> matches r2 s2 -> matches (Seq r1 r2) (s1 +:+ s2)
| MStar0 r : matches (Star r) ""
| MStarS r s1 s2 :
    matches r s1 -> matches (Star r) s2 -> matches (Star r) (s1 +:+ s2).

Fixpoint nullable (r : regex) : bool :=
  match r with
  | Void => false
  | Eps => true
  | Cls _ => false
  | Alt r1 r2 => nullable r1 || nullable r2
  | Seq r1 r2 => nullable r1 && nullable r2
  | Star _ => true
  end.

Fixpoint deriv (c : ascii) (r : regex) : regex :=
  match r with
  | Void => Void
  | Eps => Void
  | Cls p => if p c then Eps else Void
  | Alt r1 r2 => Alt (deriv c r1) (deriv c r2)
  | Seq r1 r2 =>
      if nullable r1 then Alt (Seq (deriv c r1) r2) (deriv c r2)
      else Seq (deriv c r1) r2
  | Star r1 => Seq (deriv c r1) (Star r1)
  end.

Fixpoint test (r : regex) (s : string) : bool :=
  match s with
  | EmptyString => nullable r
  | String c s' => test (deriv c r) s'
  end.

Lemma nullable_matches r : nullable r = true <-> matches r "".
Proof.
  induction r as [| |p|r1 IH1 r2 IH2|r1 IH1 r2 IH2|r IH]; simpl.
  - split; [done | inversion 1].
  - split; [constructor | done].
  - split; [done | inversion 1].
  - rewrite orb_true_iff, IH1, IH2. split.
    + intros [H|H]; [by apply MAltL | by apply MAltR].
    + inversion 1; subst; auto.
  - rewrite andb_true_iff, IH1, IH2. split.
    + intros [H1 H2]. by apply (MSeq r1 r2 "" "").
    + inversion 1 as [| | | |? ? s1 s2 H1 H2 E1 E2| |]; subst.
      destruct s1; [|discriminate]. rewrite Str.app_nil_l in E2. subst. auto.
  - split; [constructor | done].
Qed.

Lemma deriv_sound c r s : matches (deriv c r) s -> matches r (String c s).
Proof.
  revert s.
  induction r as [| |p|r1 IH1 r2 IH2|r1 IH1 r2 IH2|r IH]; simpl; intros s H.
  - inversion H.
  - inversion H.
  - destruct (p c) eqn:Hp; inversion H; subst. by constructor.
  - inversion H; subst; [apply MAltL | apply MAltR]; auto.
  - destruct (nullable r1) eqn:Hn.
    + inversion H as [| |? ? ? H'|? ? ? H'| | |]; subst.
      * inversion H' as [| | | |? ? s1 s2 H1 H2| |]; subst.
        apply (MSeq r1 r2 (String c s1) s2); auto.
      * apply (MSeq r1 r2 "" (String c s)); [|auto].
        by apply nullable_matches.
    + inversion H as [| | | |? ? s1 s2 H1 H2| |]; subst.
      apply (MSeq r1 r2 (String c s1) s2); auto.
  - inversion H as [| | | |? ? s1 s2 H1 H2| |]; subst.
    apply (MStarS r (String c s1) s2); auto.
Qed.

Lemma deriv_complete r s0 :
  matches r s0 -> forall c s, s0 = String c s -> matches (deriv c r) s.
Proof.
  induction 1 as [|p x Hp|r1 r2 s H IH|r1 r2 s H IH
                 |r1 r2 s1 s2 H1 IH1 H2 IH2| |r s1 s2 H1 IH1 H2 IH2];
    intros c s' E; simpl.
  - discriminate.
  - injection E as -> <-. rewrite Hp. constructor.
  - apply MAltL; eauto.
  - apply MAltR; eauto.
  - destruct s1 as [|x s1]; rewrite ?Str.app_nil_l, ?Str.app_cons in E.
    + subst s2. assert (nullable r1 = true) as -> by by apply nullable_matches.
      apply MAltR; eauto.
    + injection E as -> <-.
      destruct (nullable r1); [apply MAltL|]; apply MSeq; eauto.
  - discriminate.
  - destruct s1 as [|x s1]; rewrite ?Str.app_nil_l, ?Str.app_cons in E.
    + subst s2. by apply IH2.
    + injection E as -> <-. apply MSeq; eauto.
Qed.

Lemma test_spec r s : test r s = true <-> matches r s.
Proof.
  revert r. induction s as [|c s IH]; intros r; simpl.
  - apply nullable_matches.
  - rewrite IH. split; [apply deriv_sound|].
    intros H. by eapply deriv_complete.
Qed.

Lemma test_false r s : test r s = false <-> ~ matches r s.
Proof.
  rewrite <- test_spec. destruct (test r s); naive_solver.
Qed.

(** Character classes of the source's patterns. *)
Definition between (lo hi c : ascii) : bool :=
  (Ascii.leb lo c && Ascii.leb c hi)%bool.

(** [[A-Za-z]] *)
Definition letter (c : ascii) : bool :=
  between "A" "Z" c || between "a" "z" c.

(** [[A-Za-z0-9\-_]] *)
Definition word (c : ascii) : bool :=
  letter c || between "0" "9" c || Ascii.eqb c "-" || Ascii.eqb c "_".

(** [/^[A-Za-z][A-Za-z0-9\-_]*$/] *)
Definition identifier : regex := Seq (Cls letter) (Star (Cls word)).

(** [/^[A-Za-z][A-Za-z0-9\-_]*\/[A-Za-z0-9\-_]+$/] *)
Definition documentId : regex :=
  Seq (Cls letter)
    (Seq (Star (Cls word))
       (Seq (Cls (Ascii.eqb "/")) (Seq (Cls word) (Star (Cls word))))).

Lemma star_cls_all p s : matches (Star (Cls p)) s -> Str.all p s = true.
Proof.
  remember (Star (Cls p)) as r eqn:Er. induction 1; try discriminate.
  - done.
  - injection Er as ->.
    match goal with H : matches (Cls _) _ |- _ => inversion H; subst end.
    rewrite Str.app_cons, Str.app_nil_l. simpl.
    rewrite IHmatches2 by done. by rewrite andb_true_r.
Qed.

Lemma all_star_cls p s : Str.all p s = true -> matches (Star (Cls p)) s.
Proof.
  induction s as [|c s IH]; simpl; [constructor|].
  intros [Hc Hs]%andb_prop.
  apply (MStarS (Cls p) (String c "") s); [by constructor | auto].
Qed.

Lemma identifier_inv s :
  matches identifier s ->
  exists c s', s = String c s' /\ letter c = true /\ Str.all word s' = true.
Proof.
  inversion 1 as [| | | |? ? s1 s2 H1 H2| |]; subst.
  inversion H1; subst. rewrite Str.app_cons, Str.app_nil_l.
  eexists _, _. split; [done|]. split; [done|]. by apply star_cls_all.
Qed.

Lemma identifier_intro c s :
  letter c = true -> Str.all word s = true -> matches identifier (String c s).
Proof.
  intros Hc Hs.
  apply (MSeq (Cls letter) (Star (Cls word)) (String c "") s);
    [by constructor | by apply all_star_cls].
Qed.

End Re.

(* ================================================================== *)
(** * JavaScript values *)
(* ================================================================== *)

(** [Primitive] of [arango-query-options.interface.ts].  Numbers are
    restricted to the integers, which is what offsets, limits, depths and
    the counter are. *)
Inductive Primitive : Type :=
| PString (s : string)
| PNumber (z : Z)
| PBoolean (b : bool)
| PUndefined
| PNull.

(** The values a filter is made of and that end up in the bind variables:
    a primitive, an array of primitives, or an object.  An object is the
    list of its own enumerable properties in enumeration order. *)
#[warnings="-register-all"]
Inductive JsVal : Type :=
| JPrim (p : Primitive)
| JArr (l : list Primitive)
| JObj (fields : list (string * JsVal)).

(** Property lookup [o[key]] on the property list of an object. *)
Fixpoint prop (key : string) (fields : list (string * JsVal)) : option JsVal :=
  match fields with
  | [] => None
  | (k, v) :: rest => if String.eqb k key then Some v else prop key rest
  end.

(** [x ?? d]: [d] when [x] is missing, [undefined] or [null]. *)
Definition nullish_or (x : option JsVal) (d : JsVal) : JsVal :=
  match x with
  | None | Some (JPrim PUndefined) | Some (JPrim PNull) => d
  | Some v => v
  end.

Definition primitive_to_string (p : Primitive) : string :=
  match p with
  | PString s => s
  | PNumber z => pretty z
  | PBoolean true => "true"
  | PBoolean false => "false"
  | PUndefined => "undefined"
  | PNull => "null"
  end.

(** Inside [Array.prototype.join], [undefined] and [null] print as the
    empty string. *)
Definition element_to_string (p : Primitive) : string :=
  match p with
  | PUndefined | PNull => ""
  | _ => primitive_to_string p
  end.

(** What a template literal [`${v}`] prints. *)
Definition to_string (v : JsVal) : string :=
  match v with
  | JPrim p => primitive_to_string p
  | JArr l => Str.join "," (map element_to_string l)
  | JObj _ => "[object Object]"
  end.

(** [s.split('.')] as a JavaScript array of strings. *)
Definition split_path (s : string) : JsVal :=
  JArr (map PString (Str.split "." s)).

(* ================================================================== *)
(** * Query options ([arango-query-options.interface.ts]) *)
(* ================================================================== *)

Module Options.

Inductive SortOrder : Type := ASC | DESC.

Definition SortOrder_value (o : SortOrder) : string :=
  match o with ASC => "ASC" | DESC => "DESC" end.

Record SortBy : Type := mkSortBy { field : string; order : SortOrder }.

Record LimitBy : Type := mkLimitBy { offset : Z; limit : Z }.

Record FilterBy : Type := mkFilterBy { filter : list (string * JsVal) }.

(** [ArangoQueryOptions]; [searchBy] is read by no builder and is left
    out. *)
Record ArangoQueryOptions : Type := mkQueryOptions {
  sortBy : option SortBy;
  limitBy : option LimitBy;
  filterBy : option FilterBy;
  withCount : option bool
}.

Inductive Direction : Type := Outbound | Inbound | Any.

Definition Direction_value (d : Direction) : string :=
  match d with
  | Outbound => "OUTBOUND"
  | Inbound => "INBOUND"
  | Any => "ANY"
  end.

(** [string | Array<string>] *)
Inductive StringOrArray : Type :=
| One (s : string)
| Many (l : list string).

Record ArangoDocumentQueryOptions : Type := mkDocumentOptions {
  document_base : ArangoQueryOptions;
  documentCollection : string
}.

Record ArangoEdgeQueryOptions : Type := mkEdgeOptions {
  edge_base : ArangoQueryOptions;
  edgeCollections : StringOrArray;
  relatedCollections : StringOrArray;
  startingVertexId : option string;
  depth : option Z;
  direction : option Direction
}.

(** [ArangoDocumentQueryOptions | ArangoEdgeQueryOptions] *)
Inductive Either : Type :=
| OfDocument (o : ArangoDocumentQueryOptions)
| OfEdge (o : ArangoEdgeQueryOptions).

Definition no_options : ArangoQueryOptions := mkQueryOptions None None None None.

End Options.

(* ================================================================== *)
(** * Builders and the object store *)
(* ================================================================== *)

(** The class of a builder together with the options its constructor
    takes: the base class, the document, edge and view builders. *)
Inductive Variant : Type :=
| Base (o : Options.Either)
| Document (o : Options.ArangoDocumentQueryOptions)
| Edge (o : Options.ArangoEdgeQueryOptions)
| View (o : Options.ArangoDocumentQueryOptions).

(** [this.options] seen as [ArangoQueryOptions]. *)
Definition options (v : Variant) : Options.ArangoQueryOptions :=
  match v with
  | Base (Options.OfDocument o) | Document o | View o => Options.document_base o
  | Base (Options.OfEdge o) | Edge o => Options.edge_base o
  end.

(** [(this.options as ArangoEdgeQueryOptions).relatedCollections] *)
Definition relatedCollections (v : Variant) : option Options.StringOrArray :=
  match v with
  | Base (Options.OfEdge o) | Edge o => Some (Options.relatedCollections o)
  | _ => None
  end.

(** References to builders are object identities. *)
Abbreviation oid := nat.

(** The fields of [ArangoBaseQueryBuilder], followed by the three private
    fields of [ArangoEdgeQueryBuilder] (unused by the other classes).
    [additionalQueries] is a [Map]: keys are unique and kept in insertion
    order. *)
Record Builder : Type := mkBuilder {
  variant : Variant;
  bindVars : gmap string JsVal;
  additionalQueries : list (string * nat);
  withClause : string;
  selector : string;
  filter : string;
  sort : string;
  limit : string;
  doc : string;
  returnClause : string;
  inlineQueries : string;
  _isRootQuery : bool;
  _tick : nat;
  _parent : option nat;
  edges : string;
  rootDoc : string;
  startingVertexId : string
}.

Definition set_bindVars (x : gmap string JsVal) (b : Builder) : Builder :=
  mkBuilder (variant b) x (additionalQueries b) (withClause b) (selector b)
    (filter b) (sort b) (limit b) (doc b) (returnClause b) (inlineQueries b)
    (_isRootQuery b) (_tick b) (_parent b) (edges b) (rootDoc b)
    (startingVertexId b).

Definition set_additionalQueries (x : list (string * nat)) (b : Builder) : Builder :=
  mkBuilder (variant b) (bindVars b) x (withClause b) (selector b) (filter b)
    (sort b) (limit b) (doc b) (returnClause b) (inlineQueries b)
    (_isRootQuery b) (_tick b) (_parent b) (edges b) (rootDoc b)
    (startingVertexId b).

Definition set_withClause (x : string) (b : Builder) : Builder :=
  mkBuilder (variant b) (bindVars b) (additionalQueries b) x (selector b)
    (filter b) (sort b) (limit b) (doc b) (returnClause b) (inlineQueries b)
    (_isRootQuery b) (_tick b) (_parent b) (edges b) (rootDoc b)
    (startingVertexId b).

Definition set_selector (x : string) (b : Builder) : Builder :=
  mkBuilder (variant b) (bindVars b) (additionalQueries b) (withClause b) x
    (filter b) (sort b) (limit b) (doc b) (returnClause b) (inlineQueries b)
    (_isRootQuery b) (_tick b) (_parent b) (edges b) (rootDoc b)
    (startingVertexId b).

Definition set_filter (x : string) (b : Builder) : Builder :=
  mkBuilder (variant b) (bindVars b) (additionalQueries b) (withClause b)
    (selector b) x (sort b) (limit b) (doc b) (returnClause b)
    (inlineQueries b) (_isRootQuery b) (_tick b) (_parent b) (edges b)
    (rootDoc b) (startingVertexId b).

Definition set_sort (x : string) (b : Builder) : Builder :=
  mkBuilder (variant b) (bindVars b) (additionalQueries b) (withClause b)
    (selector b) (filter b) x (limit b) (doc b) (returnClause b)
    (inlineQueries b) (_isRootQuery b) (_tick b) (_parent b) (edges b)
    (rootDoc b) (startingVertexId b).

Definition set_limit (x : string) (b : Builder) : Builder :=
  mkBuilder (variant b) (bindVars b) (additionalQueries b) (withClause b)
    (selector b) (filter b) (sort b) x (doc b) (returnClause b)
    (inlineQueries b) (_isRootQuery b) (_tick b) (_parent b) (edges b)
    (rootDoc b) (startingVertexId b).

Definition set_doc (x : string) (b : Builder) : Builder :=
  mkBuilder (variant b) (bindVars b) (additionalQueries b) (withClause b)
    (selector b) (filter b) (sort b) (limit b) x (returnClause b)
    (inlineQueries b) (_isRootQuery b) (_tick b) (_parent b) (edges b)
    (rootDoc b) (startingVertexId b).

Definition set_returnClause (x : string) (b : Builder) : Builder :=
  mkBuilder (variant b) (bindVars b) (additionalQueries b) (withClause b)
    (selector b) (filter b) (sort b) (limit b) (doc b) x (inlineQueries b)
    (_isRootQuery b) (_tick b) (_parent b) (edges b) (rootDoc b)
    (startingVertexId b).

Definition set_inlineQueries (x : string) (b : Builder) : Builder :=
  mkBuilder (variant b) (bindVars b) (additionalQueries b) (withClause b)
    (selector b) (filter b) (sort b) (limit b) (doc b) (returnClause b) x
    (_isRootQuery b) (_tick b) (_parent b) (edges b) (rootDoc b)
    (startingVertexId b).

Definition set__isRootQuery (x : bool) (b : Builder) : Builder :=
  mkBuilder (variant b) (bindVars b) (additionalQueries b) (withClause b)
    (selector b) (filter b) (sort b) (limit b) (doc b) (returnClause b)
    (inlineQueries b) x (_tick b) (_parent b) (edges b) (rootDoc b)
    (startingVertexId b).

Definition set__tick (x : nat) (b : Builder) : Builder :=
  mkBuilder (variant b) (bindVars b) (additionalQueries b) (withClause b)
    (selector b) (filter b) (sort b) (limit b) (doc b) (returnClause b)
    (inlineQueries b) (_isRootQuery b) x (_parent b) (edges b) (rootDoc b)
    (startingVertexId b).

Definition set__parent (x : option nat) (b : Builder) : Builder :=
  mkBuilder (variant b) (bindVars b) (additionalQueries b) (withClause b)
    (selector b) (filter b) (sort b) (limit b) (doc b) (returnClause b)
    (inlineQueries b) (_isRootQuery b) (_tick b) x (edges b) (rootDoc b)
    (startingVertexId b).

Definition set_edges (x : string) (b : Builder) : Builder :=
  mkBuilder (variant b) (bindVars b) (additionalQueries b) (withClause b)
    (selector b) (filter b) (sort b) (limit b) (doc b) (returnClause b)
    (inlineQueries b) (_isRootQuery b) (_tick b) (_parent b) x (rootDoc b)
    (startingVertexId b).

Definition set_rootDoc (x : string) (b : Builder) : Builder :=
  mkBuilder (variant b) (bindVars b) (additionalQueries b) (withClause b)
    (selector b) (filter b) (sort b) (limit b) (doc b) (returnClause b)
    (inlineQueries b) (_isRootQuery b) (_tick b) (_parent b) (edges b) x
    (startingVertexId b).

Definition set_startingVertexId (x : string) (b : Builder) : Builder :=
  mkBuilder (variant b) (bindVars b) (additionalQueries b) (withClause b)
    (selector b) (filter b) (sort b) (limit b) (doc b) (returnClause b)
    (inlineQueries b) (_isRootQuery b) (_tick b) (_parent b) (edges b)
    (rootDoc b) x.

Abbreviation heap := (gmap nat Builder).

(** [Map.prototype.set]: an existing key keeps its place, a new key goes
    last. *)
Fixpoint map_set (k : string) (v : oid) (m : list (string * oid))
  : list (string * oid) :=
  match m with
  | [] => [(k, v)]
  | (k', v') :: m' =>
      if String.eqb k' k then (k, v) :: m' else (k', v') :: map_set k v m'
  end.

(** [Map.prototype.get] *)
Fixpoint map_get (k : string) (m : list (string * oid)) : option oid :=
  match m with
  | [] => None
  | (k', v) :: m' => if String.eqb k' k then Some v else map_get k m'
  end.

(* ================================================================== *)
(** * Computations over the store *)
(* ================================================================== *)

(** The errors of the builders.  The source throws plain [Error]s that
    differ by their message; [message] gives it. *)
Inductive Error : Type :=
| UnsafeIdentifier (phrase : string)
| DuplicateFieldName
| NotImplemented
| InvalidVertexReference
| MissingStartingVertex
| TypeError.

Definition message (e : Error) : string :=
  match e with
  | UnsafeIdentifier phrase =>
      "This phrase does not seem safe and cannot be used in the query: "
      +:+ phrase
  | DuplicateFieldName =>
      "Additional query variable name cannot be same with doc selector"
  | NotImplemented => "Override this method"
  | InvalidVertexReference =>
      "startingVertexId must be an ArangoDB document ID. For example: "
      +:+ "manifest/2df48bfb-48ab-4a95-84cc-0802c7f842b9"
  | MissingStartingVertex => "You must provide startingVertexId in options"
  | TypeError => "Cannot read properties of null or undefined"
  end.

(** A call returns a value, throws, or runs forever ([Diverge], which is
    what running out of fuel stands for).  [Stuck] is a reference to an
    object that is not in the store, which no JavaScript program can
    produce.  A thrown error keeps the store as it was left. *)
Inductive outcome (A : Type) : Type :=
| Ret (h : heap) (a : A)
| Throw (h : heap) (e : Error)
| Diverge
| Stuck.
Arguments Ret {A} h a.
Arguments Throw {A} h e.
Arguments Diverge {A}.
Arguments Stuck {A}.

Definition M (A : Type) : Type := heap -> outcome A.

Definition ret {A} (a : A) : M A := fun h => Ret h a.

Definition bind {A B} (m : M A) (k : A -> M B) : M B :=
  fun h =>
    match m h with
    | Ret h' a => k a h'
    | Throw h' e => Throw h' e
    | Diverge => Diverge
    | Stuck => Stuck
    end.

Notation "'do' x <- m ;; k" := (bind m (fun x => k))
  (at level 10, x name, m at level 99, k at level 200, only parsing).

Definition throw {A} (e : Error) : M A := fun h => Throw h e.

Definition diverge {A} : M A := fun _ => Diverge.

(** Reading the fields of [this]. *)
Definition read (this : oid) : M Builder :=
  fun h => match h !! this with Some b => Ret h b | None => Stuck end.

(** An assignment to fields of [this]. *)
Definition modify (this : oid) (f : Builder -> Builder) : M unit :=
  fun h =>
    match h !! this with
    | Some b => Ret (<[this := f b]> h) tt
    | None => Stuck
    end.

(** [new]: a fresh object. *)
Definition alloc (b : Builder) : M oid :=
  fun h => let this := fresh (dom h) in Ret (<[this := b]> h) this.

(** [for (const x of l) { acc = body(acc, x) }] *)
Fixpoint for_each {A S} (l : list A) (body : S -> A -> M S) (acc : S) : M S :=
  match l with
  | [] => ret acc
  | x :: l' => do acc' <- body acc x ;; for_each l' body acc'
  end.

(* ================================================================== *)
(** * [ArangoBaseQueryBuilder]: guard, linkage and the counter *)
(* ================================================================== *)

(** [checkSafe] *)
Definition checkSafe (phrase : string) : M unit :=
  if Re.test Re.identifier phrase then ret tt
  else throw (UnsafeIdentifier phrase).

(** The initial field values of a builder whose [doc] is [d]. *)
Definition initial (v : Variant) (d : string) : Builder :=
  {| variant := v; bindVars := ∅; additionalQueries := [];
     withClause := ""; selector := ""; filter := ""; sort := ""; limit := "";
     doc := d; returnClause := d; inlineQueries := "";
     _isRootQuery := true; _tick := 0; _parent := None;
     edges := ""; rootDoc := ""; startingVertexId := "" |}.

(** [new ArangoBaseQueryBuilder(options)] *)
Definition newArangoBaseQueryBuilder (o : Options.Either) : M oid :=
  alloc (initial (Base o) "doc").

(** [new ArangoDocumentQueryBuilder(options)] *)
Definition newArangoDocumentQueryBuilder
  (o : Options.ArangoDocumentQueryOptions) : M oid :=
  alloc (initial (Document o) "doc").

(** The constructor of the edge builder fills in [depth ??= 1] and
    [direction ??= Direction.Any]. *)
Definition edge_defaults (o : Options.ArangoEdgeQueryOptions)
  : Options.ArangoEdgeQueryOptions :=
  Options.mkEdgeOptions (Options.edge_base o) (Options.edgeCollections o)
    (Options.relatedCollections o) (Options.startingVertexId o)
    (Some (default 1%Z (Options.depth o)))
    (Some (default Options.Any (Options.direction o))).

(** [new ArangoEdgeQueryBuilder(options)] *)
Definition newArangoEdgeQueryBuilder
  (o : Options.ArangoEdgeQueryOptions) : M oid :=
  alloc (initial (Edge (edge_defaults o)) "vertex").

(** [new ArangoViewQueryBuilder(options)] *)
Definition newArangoViewQueryBuilder
  (o : Options.ArangoDocumentQueryOptions) : M oid :=
  alloc (initial (View o) "res").

(** [setDocSelector] *)
Definition setDocSelector (this : oid) (d : string) : M oid :=
  do _ <- checkSafe d ;;
  do _ <- modify this (set_doc d) ;;
  ret this.

(** [getDocSelector] *)
Definition getDocSelector (this : oid) : M string :=
  do b <- read this ;; ret (doc b).

(** [isRootQuery] *)
Definition isRootQuery (this : oid) : M bool :=
  do b <- read this ;; ret (_isRootQuery b).

(** [setParentQuery] *)
Definition setParentQuery (this : oid) (parent : oid) : M unit :=
  do _ <- modify this (set__isRootQuery false) ;;
  modify this (set__parent (Some parent)).

(** [getParentQuery] *)
Definition getParentQuery (this : oid) : M (option oid) :=
  do b <- read this ;; ret (_parent b).

(** [addAdditionalQuery] *)
Definition addAdditionalQuery (this : oid) (varName : string) (q : oid)
  : M oid :=
  do _ <- checkSafe varName ;;
  do b <- read this ;;
  if String.eqb varName (doc b) then throw DuplicateFieldName
  else
    do _ <- setParentQuery q this ;;
    do _ <- modify this
      (fun b => set_additionalQueries (map_set varName q (additionalQueries b)) b) ;;
    ret this.

(** [setRootDocSelector] of the edge builder. *)
Definition setRootDocSelector (this : oid) (d : string) : M oid :=
  do _ <- checkSafe d ;;
  do _ <- modify this (set_rootDoc d) ;;
  ret this.

(** The [while (true)] loop of [getTopmostParentQuery]; one unit of [gas]
    per iteration. *)
Fixpoint getTopmostParentQuery_loop (gas : nat) (parent : oid) : M oid :=
  match gas with
  | 0 => diverge
  | S gas' =>
      do localParent <- getParentQuery parent ;;
      match localParent with
      | None => ret parent
      | Some localParent =>
          do root <- isRootQuery localParent ;;
          if root then ret localParent
          else getTopmostParentQuery_loop gas' localParent
      end
  end.

(** [getTopmostParentQuery] *)
Definition getTopmostParentQuery (gas : nat) (this : oid) : M oid :=
  do b <- read this ;;
  match _parent b with
  | None => ret this
  | Some parent =>
      do root <- isRootQuery parent ;;
      if root then ret parent
      else getTopmostParentQuery_loop gas parent
  end.

(** [getNextTick] *)
Definition getNextTick (this : oid) : M nat :=
  do _ <- modify this (fun b => set__tick (_tick b + 1) b) ;;
  do b <- read this ;;
  ret (_tick b).

(** [getNextGlobalTick] *)
Definition getNextGlobalTick (gas : nat) (this : oid) : M nat :=
  do top <- getTopmostParentQuery gas this ;;
  getNextTick top.

(* ================================================================== *)
(** * [ArangoBaseQueryBuilder]: building the clauses *)
(* ================================================================== *)

(** [AqlQuery]: the query text and its bind variables. *)
Module Aql.
Record t : Type := mk { query : string; bindVars : gmap string JsVal }.
End Aql.

(** [this.bindVars[key] = value] *)
Definition setBindVar (this : oid) (key : string) (value : JsVal) : M unit :=
  modify this (fun b => set_bindVars (<[key := value]> (bindVars b)) b).

(** [this.bindVars = { ...vars, ...this.bindVars }]: the keys [this]
    already has keep their values. *)
Definition mergeBindVars (this : oid) (vars : gmap string JsVal) : M unit :=
  modify this (fun b => set_bindVars (bindVars b ∪ vars) b).

(** [isFilterPrimitiveType]: an array passes when each element is a
    primitive, which [JArr] has by its type. *)
Definition isFilterPrimitiveType (v : JsVal) : bool :=
  match v with
  | JPrim _ => true
  | JArr _ => true
  | JObj _ => false
  end.

Definition hasOwnProperty (key : string) (fields : list (string * JsVal)) : bool :=
  bool_decide (is_Some (prop key fields)).

(** [isFilterProperFilterObject], which the source calls on values that
    are not of primitive type only. *)
Definition isFilterProperFilterObject (v : JsVal) : bool :=
  match v with
  | JObj fields =>
      hasOwnProperty "@value" fields
      && isFilterPrimitiveType (default (JPrim PUndefined) (prop "@value" fields))
      && (hasOwnProperty "@operator" fields
          || hasOwnProperty "@docNameToFilter" fields)
  | _ => false
  end.

(** [v[key]]: reading a property of [undefined] or [null] throws; strings,
    numbers, booleans and arrays have none of the properties asked for. *)
Definition getProperty (v : JsVal) (key : string) : M (option JsVal) :=
  match v with
  | JPrim PUndefined | JPrim PNull => throw TypeError
  | JObj fields => ret (prop key fields)
  | _ => ret None
  end.

(** The body of the [if] in the loop of [extractFilters]: one condition
    for the entry [key : v] met under the prefix [prevKey]. *)
Definition extractFilters_leaf (gas : nat) (this : oid)
  (prevKey key : string) (v : JsVal) : M Aql.t :=
  let objectKey := prevKey +:+ key in
  do t1 <- getNextGlobalTick gas this ;;
  let docPath := "path_" +:+ pretty t1 in
  do t2 <- getNextGlobalTick gas this ;;
  let bindVarName := "filter_" +:+ pretty t2 in
  do docNameToFilter <- getProperty v "@docNameToFilter" ;;
  do b <- read this ;;
  do operator <- getProperty v "@operator" ;;
  let query :=
    to_string (nullish_or docNameToFilter (JPrim (PString (doc b))))
    +:+ ".@" +:+ docPath +:+ " "
    +:+ to_string (nullish_or operator (JPrim (PString "==")))
    +:+ " @" +:+ bindVarName in
  do value <- getProperty v "@value" ;;
  let vars : gmap string JsVal :=
    <[bindVarName := nullish_or value v]> (<[docPath := split_path objectKey]> ∅) in
  ret (Aql.mk query vars).

(** The [for ... in] loop of [extractFilters] over the entries [l] of the
    filter; [prevKey] and [filters] are the two local variables it updates,
    and [recurse] is [extractFilters] itself, called on the nested
    objects. *)
Fixpoint extractFilters_loop (recurse : JsVal -> string -> M (list Aql.t))
  (gas : nat) (this : oid) (l : list (string * JsVal)) (prevKey : string)
  (filters : list Aql.t) {struct l} : M (list Aql.t) :=
  match l with
  | [] => ret filters
  | (key, x) :: l' =>
      if isFilterPrimitiveType x || isFilterProperFilterObject x then
        do f <- extractFilters_leaf gas this prevKey key x ;;
        extractFilters_loop recurse gas this l' prevKey (filters ++ [f])
      else
        let prevKey := prevKey +:+ key +:+ "." in
        do sub <- recurse x prevKey ;;
        extractFilters_loop recurse gas this l' prevKey (filters ++ sub)
  end.

(** [extractFilters] on the value [v]; a value that is no object has no
    key to loop over. *)
Fixpoint extractFilters_object (gas : nat) (this : oid) (v : JsVal)
  (prevKey : string) {struct v} : M (list Aql.t) :=
  match v with
  | JObj fields =>
      extractFilters_loop (extractFilters_object gas this) gas this
        fields prevKey []
  | _ => ret []
  end.

(** [extractFilters(filter, prevKey?)] *)
Definition extractFilters (gas : nat) (this : oid)
  (filter : list (string * JsVal)) (prevKey : option string) : M (list Aql.t) :=
  extractFilters_object gas this (JObj filter) (default "" prevKey).

(** The [for] loop of [handleCommaSeparated]. *)
Fixpoint handleCommaSeparated_loop (gas : nat) (this : oid)
  (keyNameInput : string) (values : list string) (statement : string)
  : M string :=
  match values with
  | [] => ret statement
  | value :: rest =>
      do t <- getNextGlobalTick gas this ;;
      let keyName := keyNameInput +:+ "_" +:+ pretty t in
      let statement := statement +:+ "@@" +:+ keyName in
      let statement :=
        match rest with [] => statement | _ => statement +:+ ", " end in
      do _ <- setBindVar this ("@" +:+ keyName) (JPrim (PString value)) ;;
      handleCommaSeparated_loop gas this keyNameInput rest statement
  end.

(** [handleCommaSeparated] *)
Definition handleCommaSeparated (gas : nat) (this : oid)
  (values : list string) (keyNameInput : string) : M string :=
  do _ <- checkSafe keyNameInput ;;
  match values with
  | [] => ret ""
  | _ => handleCommaSeparated_loop gas this keyNameInput values ""
  end.

(** [buildFilter] *)
Definition buildFilter (gas : nat) (this : oid) : M unit :=
  do b <- read this ;;
  match Options.filterBy (options (variant b)) with
  | Some filterBy =>
      do filters <- extractFilters gas this (Options.filter filterBy) None ;;
      do _ <- modify this
        (set_filter
           ("FILTER " +:+ Str.join " && " (map Aql.query filters) +:+ " ")) ;;
      for_each filters (fun _ f => mergeBindVars this (Aql.bindVars f)) tt
  | None => ret tt
  end.

(** [buildSort] *)
Definition buildSort (gas : nat) (this : oid) : M unit :=
  do b <- read this ;;
  match Options.sortBy (options (variant b)) with
  | Some sortBy =>
      do t1 <- getNextGlobalTick gas this ;;
      let sortFieldKeyName := "sortField_" +:+ pretty t1 in
      do t2 <- getNextGlobalTick gas this ;;
      let sortOrderKeyName := "sortOrder_" +:+ pretty t2 in
      do b <- read this ;;
      do _ <- modify this
        (set_sort ("SORT " +:+ doc b +:+ ".@" +:+ sortFieldKeyName
                   +:+ " @" +:+ sortOrderKeyName +:+ " ")) ;;
      do _ <- setBindVar this sortFieldKeyName
        (split_path (Options.field sortBy)) ;;
      setBindVar this sortOrderKeyName
        (JPrim (PString (Options.SortOrder_value (Options.order sortBy))))
  | None => ret tt
  end.

(** [buildLimit] *)
Definition buildLimit (gas : nat) (this : oid) : M unit :=
  do b <- read this ;;
  match Options.limitBy (options (variant b)) with
  | Some limitBy =>
      do t1 <- getNextGlobalTick gas this ;;
      let offsetKeyName := "limitByOffset_" +:+ pretty t1 in
      do t2 <- getNextGlobalTick gas this ;;
      let limitKeyName := "limitByLimit_" +:+ pretty t2 in
      do _ <- modify this
        (set_limit ("LIMIT @" +:+ offsetKeyName +:+ ", @" +:+ limitKeyName
                    +:+ " ")) ;;
      do _ <- setBindVar this offsetKeyName
        (JPrim (PNumber (Options.offset limitBy))) ;;
      setBindVar this limitKeyName (JPrim (PNumber (Options.limit limitBy)))
  | None => ret tt
  end.

(** [concatArrays] *)
Definition concatArrays (array1 : list string) (array2 : Options.StringOrArray)
  : list string :=
  match array2 with
  | Options.Many l => array1 ++ l
  | Options.One s => array1 ++ [s]
  end.

(** Truthiness of a [string | string[]] that may be missing: every array
    is truthy, a string is unless it is empty. *)
Definition truthy_collections (c : option Options.StringOrArray) : bool :=
  match c with
  | None => false
  | Some (Options.One s) => negb (String.eqb s "")
  | Some (Options.Many _) => true
  end.

(** [gatherRelatedCollectionsRecursively]; one unit of [gas] per level of
    the recursion. *)
Fixpoint gatherRelatedCollectionsRecursively (gas : nat) (this : oid)
  : M (list string) :=
  match gas with
  | 0 => diverge
  | S gas' =>
      do b <- read this ;;
      let targets :=
        match relatedCollections (variant b) with
        | Some c => if truthy_collections (Some c) then concatArrays [] c else []
        | None => []
        end in
      for_each (additionalQueries b)
        (fun targets elem =>
           do sub <- gatherRelatedCollectionsRecursively gas' elem.2 ;;
           ret (concatArrays targets (Options.Many sub)))
        targets
  end.

(** [buildWithClause] *)
Definition buildWithClause (gas : nat) (this : oid) : M unit :=
  do b <- read this ;;
  if _isRootQuery b then
    do targets <- gatherRelatedCollectionsRecursively gas this ;;
    match targets with
    | [] => ret tt
    | _ =>
        do statement <- handleCommaSeparated gas this targets "target" ;;
        modify this (set_withClause ("WITH " +:+ statement +:+ " "))
    end
  else ret tt.

(** [buildReturnClause] *)
Definition buildReturnClause (this : oid) : M unit :=
  do b <- read this ;;
  match additionalQueries b with
  | [] => modify this (set_returnClause (doc b))
  | _ =>
      modify this
        (set_returnClause
           ("MERGE(" +:+ doc b +:+ ", { "
            +:+ Str.join ", " (additionalQueries b).*1 +:+ " })"))
  end.

(** Truthiness of [options.withCount]. *)
Definition truthy_flag (f : option bool) : bool := default false f.

(** [options.withCount || options.limitBy?.limit === 1] *)
Definition wantsFirst (o : Options.ArangoQueryOptions) : bool :=
  truthy_flag (Options.withCount o)
  || match Options.limitBy o with
     | Some l => bool_decide (Options.limit l = 1%Z)
     | None => false
     end.

(** The template [`LET ${name} = ${first ? 'FIRST' : ''}(${query}) `]. *)
Definition letBinding (name : string) (first : bool) (query : string) : string :=
  "LET " +:+ name +:+ " = " +:+ (if first then "FIRST" else "")
  +:+ "(" +:+ query +:+ ") ".

(** One turn of the loop of [buildAdditionalQueries]; [prepare] is the
    [prepareQuery] of the children. *)
Definition buildAdditionalQueries_step (prepare : oid -> M Aql.t)
  (this : oid) (queries : list string) (elem : string * oid)
  : M (list string) :=
  do innerAqlQuery <- prepare elem.2 ;;
  do child <- read elem.2 ;;
  let text :=
    letBinding elem.1 (wantsFirst (options (variant child)))
      (Aql.query innerAqlQuery) in
  do _ <- mergeBindVars this (Aql.bindVars innerAqlQuery) ;;
  ret (queries ++ [text]).

(** [buildAdditionalQueries] *)
Definition buildAdditionalQueries (prepare : oid -> M Aql.t) (this : oid)
  : M unit :=
  do b <- read this ;;
  match additionalQueries b with
  | [] => ret tt
  | _ =>
      do queries <-
        for_each (additionalQueries b)
          (buildAdditionalQueries_step prepare this) [] ;;
      modify this (set_inlineQueries (Str.join "" queries))
  end.

(* ================================================================== *)
(** * [ArangoDocumentQueryBuilder] and [ArangoEdgeQueryBuilder] *)
(* ================================================================== *)

(** [buildSelector] of the document builder. *)
Definition Document_buildSelector (gas : nat) (this : oid)
  (o : Options.ArangoDocumentQueryOptions) : M unit :=
  do _ <- checkSafe (Options.documentCollection o) ;;
  do t <- getNextGlobalTick gas this ;;
  let collectionKey := "collection_" +:+ pretty t in
  do b <- read this ;;
  do _ <- modify this
    (set_selector ("FOR " +:+ doc b +:+ " IN @@" +:+ collectionKey +:+ " ")) ;;
  setBindVar this ("@" +:+ collectionKey)
    (JPrim (PString (Options.documentCollection o))).

(** [buildEdges] *)
Definition buildEdges (gas : nat) (this : oid)
  (o : Options.ArangoEdgeQueryOptions) : M unit :=
  let edgeCollections :=
    match Options.edgeCollections o with
    | Options.Many l => l
    | Options.One s => [s]
    end in
  do statement <- handleCommaSeparated gas this edgeCollections "edge" ;;
  modify this (set_edges statement).

(** Truthiness of [options.startingVertexId]. *)
Definition truthy_string (s : option string) : option string :=
  match s with
  | Some s => if String.eqb s "" then None else Some s
  | None => None
  end.

(** [buildStartingVertexId] *)
Definition buildStartingVertexId (gas : nat) (this : oid)
  (o : Options.ArangoEdgeQueryOptions) : M unit :=
  match truthy_string (Options.startingVertexId o) with
  | Some vertex =>
      if negb (Re.test Re.documentId vertex) then throw InvalidVertexReference
      else
        do t <- getNextGlobalTick gas this ;;
        let id := "starting_vertex_" +:+ pretty t in
        do _ <- modify this (set_startingVertexId ("@" +:+ id)) ;;
        setBindVar this id (JPrim (PString vertex))
  | None =>
      do b <- read this ;;
      do _ <-
        (if String.eqb (rootDoc b) "" then
           do parent <- getTopmostParentQuery gas this ;;
           if bool_decide (parent = this) then throw MissingStartingVertex
           else
             do d <- getDocSelector parent ;;
             modify this (set_rootDoc d)
         else ret tt) ;;
      do b <- read this ;;
      modify this (set_startingVertexId (rootDoc b +:+ "._id"))
  end.

(** [buildSelector] of the edge builder. *)
Definition Edge_buildSelector (gas : nat) (this : oid)
  (o : Options.ArangoEdgeQueryOptions) : M unit :=
  do _ <- buildEdges gas this o ;;
  do _ <- buildStartingVertexId gas this o ;;
  do t <- getNextGlobalTick gas this ;;
  let depthKeyName := "depth_" +:+ pretty t in
  do b <- read this ;;
  do _ <- modify this
    (set_selector
       ("FOR " +:+ doc b +:+ " IN 1..@" +:+ depthKeyName +:+ " "
        +:+ from_option Options.Direction_value "undefined" (Options.direction o)
        +:+ " " +:+ startingVertexId b +:+ " " +:+ edges b +:+ " ")) ;;
  setBindVar this depthKeyName
    (JPrim (from_option PNumber PUndefined (Options.depth o))).

(** [buildSelector]: the base class throws, the view builder does not
    override it. *)
Definition buildSelector (gas : nat) (this : oid) : M unit :=
  do b <- read this ;;
  match variant b with
  | Base _ | View _ => throw NotImplemented
  | Document o => Document_buildSelector gas this o
  | Edge o => Edge_buildSelector gas this o
  end.

(** [buildEverything] *)
Definition buildEverything (gas : nat) (prepare : oid -> M Aql.t)
  (this : oid) : M unit :=
  do _ <- buildSelector gas this ;;
  do _ <- buildFilter gas this ;;
  do _ <- buildSort gas this ;;
  do _ <- buildLimit gas this ;;
  do _ <- buildWithClause gas this ;;
  do _ <- buildReturnClause this ;;
  buildAdditionalQueries prepare this.

(** The text [prepareQuery] puts together from the clauses of [b]. *)
Definition queryText (b : Builder) : string :=
  if truthy_flag (Options.withCount (options (variant b))) then
    withClause b +:+ "LET total = FIRST(" +:+ selector b +:+ filter b
    +:+ "COLLECT WITH COUNT INTO length RETURN length) "
    +:+ "LET docs = (" +:+ selector b +:+ filter b +:+ sort b +:+ limit b
    +:+ inlineQueries b +:+ "RETURN " +:+ returnClause b +:+ ") "
    +:+ "RETURN { docs, total }"
  else
    withClause b +:+ selector b +:+ filter b +:+ sort b +:+ limit b
    +:+ inlineQueries b +:+ "RETURN " +:+ returnClause b.

(** [prepareQuery]; one unit of [fuel] per level of nesting of the
    builders. *)
Fixpoint prepareQuery (gas fuel : nat) (this : oid) : M Aql.t :=
  match fuel with
  | 0 => diverge
  | S fuel' =>
      do _ <- buildEverything gas (prepareQuery gas fuel') this ;;
      do b <- read this ;;
      ret (Aql.mk (queryText b) (bindVars b))
  end.

(* ================================================================== *)
(** * Running a computation step by step *)
(* ================================================================== *)

Section Stepping.
Context {A B : Type}.
Implicit Types (h : heap) (k : A -> M B).

Lemma bind_ret (a : A) k h : bind (ret a) k h = k a h.
Proof. reflexivity. Qed.

Lemma bind_throw (e : Error) k h : bind (throw e) k h = Throw h e.
Proof. reflexivity. Qed.

Lemma bind_assoc {C} (m : M C) (f : C -> M A) k h :
  bind (bind m f) k h = bind m (fun x => bind (f x) k) h.
Proof. unfold bind. by destruct (m h). Qed.

End Stepping.

Lemma bind_read {B} this (b : Builder) (k : Builder -> M B) (h : heap) :
  h !! this = Some b -> bind (read this) k h = k b h.
Proof. intros H. unfold bind, read. by rewrite H. Qed.

Lemma bind_modify {B} this (b : Builder) f (k : unit -> M B) (h : heap) :
  h !! this = Some b -> bind (modify this f) k h = k tt (<[this := f b]> h).
Proof. intros H. unfold bind, modify. by rewrite H. Qed.

Lemma modify_some this (b : Builder) f (h : heap) :
  h !! this = Some b -> modify this f h = Ret (<[this := f b]> h) tt.
Proof. intros H. unfold modify. by rewrite H. Qed.

Lemma checkSafe_matches phrase (h : heap) :
  Re.matches Re.identifier phrase -> checkSafe phrase h = Ret h tt.
Proof.
  intros H%Re.test_spec. unfold checkSafe. by rewrite H.
Qed.

Lemma checkSafe_mismatch phrase (h : heap) :
  ~ Re.matches Re.identifier phrase ->
  checkSafe phrase h = Throw h (UnsafeIdentifier phrase).
Proof.
  intros H%Re.test_false. unfold checkSafe. by rewrite H.
Qed.

Lemma bind_checkSafe_matches {B} phrase (k : unit -> M B) (h : heap) :
  Re.matches Re.identifier phrase -> bind (checkSafe phrase) k h = k tt h.
Proof. intros H. unfold bind. by rewrite checkSafe_matches. Qed.

Lemma bind_checkSafe_mismatch {B} phrase (k : unit -> M B) (h : heap) :
  ~ Re.matches Re.identifier phrase ->
  bind (checkSafe phrase) k h = Throw h (UnsafeIdentifier phrase).
Proof. intros H. unfold bind. by rewrite checkSafe_mismatch. Qed.

Lemma map_get_set k v m : map_get k (map_set k v m) = Some v.
Proof.
  induction m as [|[k' v'] m IH]; simpl.
  - by rewrite String.eqb_refl.
  - destruct (String.eqb k' k) eqn:E; simpl.
    + by rewrite String.eqb_refl.
    + by rewrite E.
Qed.

Lemma map_get_elem k v m : map_get k m = Some v -> k ∈ m.*1.
Proof.
  induction m as [|[k' v'] m IH]; simpl; [done|].
  destruct (String.eqb k' k) eqn:E.
  - apply String.eqb_eq in E as ->. intros _. apply list_elem_of_here.
  - intros H. apply list_elem_of_further. auto.
Qed.

(* ================================================================== *)
(** * The identifier guard *)
(* ================================================================== *)

(** C5. [checkSafe] throws the unsafe-identifier error, which carries the
    phrase, exactly when the phrase does not match
    [^[A-Za-z][A-Za-z0-9\-_]*$], and returns otherwise.  A phrase that does
    not match is rejected before anything is written: [setDocSelector],
    [setRootDocSelector], [addAdditionalQuery] and [handleCommaSeparated]
    throw and leave the store as it was, and the [prepareQuery] of a
    document builder whose collection name does not match throws without
    producing a query. *)
Theorem checkSafe_guards_identifiers (phrase : string) (h : heap) :
  (checkSafe phrase h = Throw h (UnsafeIdentifier phrase)
   <-> ~ Re.matches Re.identifier phrase)
  /\ (checkSafe phrase h = Ret h tt <-> Re.matches Re.identifier phrase)
  /\ (~ Re.matches Re.identifier phrase ->
      forall (this q gas fuel : nat) (values : list string),
        setDocSelector this phrase h = Throw h (UnsafeIdentifier phrase)
        /\ setRootDocSelector this phrase h = Throw h (UnsafeIdentifier phrase)
        /\ addAdditionalQuery this phrase q h = Throw h (UnsafeIdentifier phrase)
        /\ handleCommaSeparated gas this values phrase h
           = Throw h (UnsafeIdentifier phrase)
        /\ forall b base,
            h !! this = Some b ->
            variant b = Document (Options.mkDocumentOptions base phrase) ->
            prepareQuery gas (S fuel) this h
            = Throw h (UnsafeIdentifier phrase)).
Proof.
  split; [|split].
  - split.
    + intros H Hm. rewrite checkSafe_matches in H by done. discriminate.
    + apply checkSafe_mismatch.
  - split.
    + intros H. destruct (Re.test Re.identifier phrase) eqn:E.
      * by apply Re.test_spec.
      * apply Re.test_false in E. rewrite checkSafe_mismatch in H by done.
        discriminate.
    + apply checkSafe_matches.
  - intros Hbad this q gas fuel values.
    unfold setDocSelector, setRootDocSelector, addAdditionalQuery,
      handleCommaSeparated.
    rewrite !bind_checkSafe_mismatch by done.
    repeat split.
    intros b base Hb Hv. simpl.
    unfold buildEverything, buildSelector.
    rewrite !bind_assoc, (bind_read _ b) by done. rewrite Hv.
    unfold Document_buildSelector. simpl.
    rewrite !bind_assoc. by rewrite bind_checkSafe_mismatch.
Qed.

(** The guard at work on the phrase of the repository's test. *)
Lemma checkSafe_guards_identifiers_witness :
  setDocSelector 0 "doc//" ∅ = Throw ∅ (UnsafeIdentifier "doc//").
Proof.
  destruct (checkSafe_guards_identifiers "doc//" ∅) as (H1 & _ & H3).
  apply (H3 (proj1 H1 eq_refl) 0 0 0 0 []).
Defined.

(* ================================================================== *)
(** * Attaching a child and renaming the row alias *)
(* ================================================================== *)

Lemma addAdditionalQuery_run (h : heap) this q f b c :
  h !! this = Some b -> h !! q = Some c ->
  Re.matches Re.identifier f -> f <> doc b ->
  let h1 := <[q := set__parent (Some this) (set__isRootQuery false c)]>
              (<[q := set__isRootQuery false c]> h) in
  forall b1, h1 !! this = Some b1 ->
  addAdditionalQuery this f q h
  = Ret (<[this := set_additionalQueries (map_set f q (additionalQueries b1)) b1]> h1)
        this.
Proof.
  intros Hb Hc Hf Hne h1 b1 Hb1. unfold addAdditionalQuery.
  rewrite bind_checkSafe_matches by done.
  rewrite (bind_read _ b) by done.
  apply String.eqb_neq in Hne. rewrite Hne.
  unfold setParentQuery. rewrite bind_assoc.
  rewrite (bind_modify _ c) by done.
  rewrite (bind_modify _ (set__isRootQuery false c)) by apply lookup_insert_eq.
  fold h1. by rewrite (bind_modify _ b1).
Qed.

(** C8. For a name [f] that passes the guard, [addAdditionalQuery]
    throws the duplicate-field-name error, leaving the store as it was,
    when [f] is the builder's current [doc]; otherwise it returns after
    having put the child under key [f] of [additionalQueries] and having
    made the child a non-root whose parent is this builder, and no other
    object has changed. *)
Theorem addAdditionalQuery_registers_child (h : heap) (this q : nat)
  (f : string) (b c : Builder) :
  h !! this = Some b -> h !! q = Some c -> Re.matches Re.identifier f ->
  (f = doc b -> addAdditionalQuery this f q h = Throw h DuplicateFieldName)
  /\ (f <> doc b ->
      exists h' b' c',
        addAdditionalQuery this f q h = Ret h' this
        /\ h' !! this = Some b'
        /\ additionalQueries b' = map_set f q (additionalQueries b)
        /\ map_get f (additionalQueries b') = Some q
        /\ doc b' = doc b
        /\ h' !! q = Some c'
        /\ _isRootQuery c' = false
        /\ _parent c' = Some this
        /\ forall x, x <> this -> x <> q -> h' !! x = h !! x).
Proof.
  intros Hb Hc Hf. split.
  - intros ->. unfold addAdditionalQuery.
    rewrite bind_checkSafe_matches by done.
    rewrite (bind_read _ b) by done. by rewrite String.eqb_refl.
  - intros Hne. destruct (decide (this = q)) as [->|Hq].
    + assert (c = b) as -> by congruence.
      eexists _, _, _. split.
      { eapply addAdditionalQuery_run; eauto. apply lookup_insert_eq. }
      rewrite lookup_insert_eq. simpl.
      repeat split; try done; [apply map_get_set|].
      intros x Hx _. by rewrite !lookup_insert_ne.
    + eexists _, _, _. split.
      { eapply addAdditionalQuery_run; eauto.
        by rewrite !lookup_insert_ne. }
      rewrite lookup_insert_eq, lookup_insert_ne, lookup_insert_eq by done.
      simpl. repeat split; try done; [apply map_get_set|].
      intros x Hx Hx'. by rewrite !lookup_insert_ne.
Qed.

Definition some_document : Options.ArangoDocumentQueryOptions :=
  Options.mkDocumentOptions Options.no_options "some".

Definition other_document : Options.ArangoDocumentQueryOptions :=
  Options.mkDocumentOptions Options.no_options "other".

(** Two fresh document builders, as in the repository's test. *)
Definition two_documents : heap :=
  <[1 := initial (Document other_document) "doc"]>
    (<[0 := initial (Document some_document) "doc"]> ∅).

Lemma addAdditionalQuery_registers_child_witness :
  addAdditionalQuery 0 "doc" 1 two_documents
  = Throw two_documents DuplicateFieldName.
Proof.
  refine (proj1 (addAdditionalQuery_registers_child two_documents 0 1 "doc"
            (initial (Document some_document) "doc")
            (initial (Document other_document) "doc") _ _ _) eq_refl).
  - vm_compute. reflexivity.
  - vm_compute. reflexivity.
  - apply Re.test_spec. vm_compute. reflexivity.
Defined.

(** C9. [setDocSelector] looks at the pattern only: on a builder that
    already has a child under the name [n], [setDocSelector(n)] with a
    name that passes the guard returns and makes [n] the row alias, while
    the child stays registered under [n]; the return clause built next
    merges the row [n] with a field list in which [n] occurs. *)
Theorem setDocSelector_may_collide_with_child (h : heap) (this c : nat)
  (n : string) (b : Builder) :
  h !! this = Some b ->
  map_get n (additionalQueries b) = Some c ->
  Re.matches Re.identifier n ->
  let h' := <[this := set_doc n b]> h in
  let fields := (additionalQueries b).*1 in
  setDocSelector this n h = Ret h' this
  /\ doc (set_doc n b) = n
  /\ map_get n (additionalQueries (set_doc n b)) = Some c
  /\ n ∈ fields
  /\ buildReturnClause this h'
     = Ret (<[this := set_returnClause
                        ("MERGE(" +:+ n +:+ ", { " +:+ Str.join ", " fields
                         +:+ " })") (set_doc n b)]> h') tt.
Proof.
  intros Hb Hc Hn h' fields. split; [|split; [|split; [|split]]].
  - unfold setDocSelector. rewrite bind_checkSafe_matches by done.
    by rewrite (bind_modify _ b).
  - done.
  - done.
  - by eapply map_get_elem.
  - unfold buildReturnClause.
    rewrite (bind_read _ (set_doc n b)) by apply lookup_insert_eq.
    simpl. destruct (additionalQueries b) as [|e l] eqn:E; [done|].
    subst fields. rewrite <- E.
    apply modify_some, lookup_insert_eq.
Qed.

(** A document builder with one child under the name [inner]. *)
Definition parent_and_child : heap :=
  <[1 := set__parent (Some 0)
           (set__isRootQuery false (initial (Document other_document) "doc"))]>
    (<[0 := set_additionalQueries [("inner", 1)]
              (initial (Document some_document) "doc")]> ∅).

Lemma setDocSelector_may_collide_with_child_witness :
  exists h',
    setDocSelector 0 "inner" parent_and_child = Ret h' 0
    /\ exists b, h' !! 0 = Some b
         /\ buildReturnClause 0 h'
            = Ret (<[0 := set_returnClause "MERGE(inner, { inner })" b]> h') tt.
Proof.
  destruct (setDocSelector_may_collide_with_child parent_and_child 0 1 "inner"
              (set_additionalQueries [("inner", 1)]
                 (initial (Document some_document) "doc")))
    as (H1 & _ & _ & _ & H5).
  - vm_compute. reflexivity.
  - reflexivity.
  - apply Re.test_spec. vm_compute. reflexivity.
  - eexists. split; [exact H1|].
    eexists. split; [apply lookup_insert_eq|]. exact H5.
Defined.

(* ================================================================== *)
(** * The parent chain and the shared counter *)
(* ================================================================== *)

(** [rooted h x r]: following [_parent] from [x] reaches, after finitely
    many steps, the builder [r] that has no parent.  A chain with a cycle
    never does. *)
Inductive rooted (h : heap) : nat -> nat -> Prop :=
| rooted_here x b :
    h !! x = Some b -> _parent b = None -> rooted h x x
| rooted_step x b p r :
    h !! x = Some b -> _parent b = Some p -> rooted h p r -> rooted h x r.

(** The number of [_parent] steps from [x] to the top. *)
Inductive distance (h : heap) : nat -> nat -> nat -> Prop :=
| distance_here x b :
    h !! x = Some b -> _parent b = None -> distance h x x 0
| distance_step x b p r n :
    h !! x = Some b -> _parent b = Some p -> distance h p r n ->
    distance h x r (S n).

(** What the constructors and [setParentQuery] maintain: a builder is
    flagged as root exactly when it has no parent, and a parent is an
    object of the store. *)
Definition linked (h : heap) : Prop :=
  forall x b,
    h !! x = Some b ->
    (_isRootQuery b = true <-> _parent b = None)
    /\ (forall p, _parent b = Some p -> is_Some (h !! p)).

Lemma rooted_distance h x r : rooted h x r <-> exists n, distance h x r n.
Proof.
  split.
  - induction 1 as [x b Hb Hp|x b p r Hb Hp _ [n IH]].
    + exists 0. by eapply distance_here.
    + exists (S n). by eapply distance_step.
  - intros [n H]. induction H.
    + by eapply rooted_here.
    + by eapply rooted_step.
Qed.

Lemma distance_top h x r n :
  distance h x r n -> exists b, h !! r = Some b /\ _parent b = None.
Proof. induction 1; eauto. Qed.

Lemma distance_functional h x r n r' n' :
  distance h x r n -> distance h x r' n' -> r = r' /\ n = n'.
Proof.
  intros H. revert r' n'.
  induction H as [x b Hb Hp|x b p r n Hb Hp _ IH]; intros r' n' H'.
  - inversion H'; simplify_eq; done.
  - inversion H'; simplify_eq.
    destruct (IH _ _ ltac:(eassumption)) as [-> ->]. done.
Qed.

Section Topmost.
Context (h : heap) (Hlinked : linked h).

Lemma getTopmostParentQuery_loop_distance gas p r n :
  distance h p r n -> n <= gas ->
  getTopmostParentQuery_loop (S gas) p h = Ret h r.
Proof.
  intros H. revert gas.
  induction H as [x b Hb Hp|x b p r n Hb Hp Hd IH]; intros gas Hgas.
  - simpl. unfold getParentQuery. rewrite bind_assoc, (bind_read _ b) by done.
    rewrite bind_ret. by rewrite Hp.
  - destruct gas as [|gas]; [lia|].
    cbn [getTopmostParentQuery_loop].
    unfold getParentQuery. rewrite bind_assoc, (bind_read _ b) by done.
    rewrite bind_ret, Hp.
    inversion Hd as [? pb Hpb Hpp|? pb q ? m Hpb Hpp Hd']; subst.
    + unfold isRootQuery. rewrite bind_assoc, (bind_read _ pb) by done.
      rewrite bind_ret.
      assert (_isRootQuery pb = true) as -> by by apply (Hlinked _ _ Hpb).
      done.
    + unfold isRootQuery. rewrite bind_assoc, (bind_read _ pb) by done.
      rewrite bind_ret.
      destruct (_isRootQuery pb) eqn:E.
      { apply (Hlinked _ _ Hpb) in E. congruence. }
      apply IH. lia.
Qed.

Lemma getTopmostParentQuery_distance gas x r n :
  distance h x r n -> n <= S gas ->
  getTopmostParentQuery (S gas) x h = Ret h r.
Proof.
  intros H Hgas. unfold getTopmostParentQuery.
  inversion H as [? b Hb Hp|? b p ? m Hb Hp Hd]; subst.
  - rewrite (bind_read _ b) by done. by rewrite Hp.
  - rewrite (bind_read _ b) by done. rewrite Hp.
    inversion Hd as [? pb Hpb Hpp|? pb q ? m' Hpb Hpp Hd']; subst.
    + unfold isRootQuery. rewrite bind_assoc, (bind_read _ pb) by done.
      rewrite bind_ret.
      assert (_isRootQuery pb = true) as -> by by apply (Hlinked _ _ Hpb).
      done.
    + unfold isRootQuery. rewrite bind_assoc, (bind_read _ pb) by done.
      rewrite bind_ret.
      destruct (_isRootQuery pb) eqn:E.
      { apply (Hlinked _ _ Hpb) in E. congruence. }
      eapply getTopmostParentQuery_loop_distance; [done|lia].
Qed.

(** Whatever the loop returns is the top of the chain; it never throws,
    and in a store without dangling parents it is never stuck. *)
Lemma getTopmostParentQuery_loop_sound gas p :
  is_Some (h !! p) ->
  match getTopmostParentQuery_loop gas p h with
  | Ret h' r => h' = h /\ rooted h p r
  | Diverge => True
  | Throw _ _ | Stuck => False
  end.
Proof.
  revert p. induction gas as [|gas IH]; intros p [b Hb]; simpl; [done|].
  unfold getParentQuery. rewrite bind_assoc, (bind_read _ b) by done.
  rewrite bind_ret.
  destruct (_parent b) as [q|] eqn:Hp.
  - destruct (proj2 (Hlinked _ _ Hb) _ Hp) as [qb Hqb].
    unfold isRootQuery. rewrite bind_assoc, (bind_read _ qb) by done.
    rewrite bind_ret.
    destruct (_isRootQuery qb) eqn:E.
    + apply (Hlinked _ _ Hqb) in E. unfold ret. split; [done|].
      eapply rooted_step; [done..|]. by eapply rooted_here.
    + specialize (IH q ltac:(eauto)).
      destruct (getTopmostParentQuery_loop gas q h); try done.
      destruct IH as [-> IH]. split; [done|]. by eapply rooted_step.
  - unfold ret. split; [done|]. by eapply rooted_here.
Qed.

Lemma getTopmostParentQuery_sound gas x :
  is_Some (h !! x) ->
  match getTopmostParentQuery gas x h with
  | Ret h' r => h' = h /\ rooted h x r
  | Diverge => True
  | Throw _ _ | Stuck => False
  end.
Proof.
  intros [b Hb]. unfold getTopmostParentQuery.
  rewrite (bind_read _ b) by done.
  destruct (_parent b) as [p|] eqn:Hp.
  - destruct (proj2 (Hlinked _ _ Hb) _ Hp) as [pb Hpb].
    unfold isRootQuery. rewrite bind_assoc, (bind_read _ pb) by done.
    rewrite bind_ret.
    destruct (_isRootQuery pb) eqn:E.
    + apply (Hlinked _ _ Hpb) in E. unfold ret. split; [done|].
      eapply rooted_step; [done..|]. by eapply rooted_here.
    + pose proof (getTopmostParentQuery_loop_sound gas p ltac:(eauto)) as H.
      destruct (getTopmostParentQuery_loop gas p h); try done.
      destruct H as [-> H]. split; [done|]. by eapply rooted_step.
  - unfold ret. split; [done|]. by eapply rooted_here.
Qed.

End Topmost.

Lemma getNextTick_run (h : heap) r b :
  h !! r = Some b ->
  getNextTick r h = Ret (<[r := set__tick (_tick b + 1) b]> h) (_tick b + 1).
Proof.
  intros Hb. unfold getNextTick.
  rewrite (bind_modify _ b) by done.
  by rewrite (bind_read _ (set__tick (_tick b + 1) b)) by apply lookup_insert_eq.
Qed.

Lemma topmost_returns_or_diverges (h : heap) (this : nat) :
  linked h -> is_Some (h !! this) ->
  (forall r, rooted h this r ->
     exists rb,
       h !! r = Some rb /\ _parent rb = None
       /\ exists gas0, forall gas, gas0 <= gas ->
            getTopmostParentQuery gas this h = Ret h r
            /\ getNextGlobalTick gas this h
               = Ret (<[r := set__tick (_tick rb + 1) rb]> h) (_tick rb + 1))
  /\ ((forall r, ~ rooted h this r) ->
      forall gas,
        getTopmostParentQuery gas this h = Diverge
        /\ getNextGlobalTick gas this h = Diverge).
Proof.
  intros Hlinked Hthis. split.
  - intros r [n Hd]%rooted_distance.
    destruct (distance_top _ _ _ _ Hd) as (rb & Hrb & Hp).
    exists rb. split; [done|]. split; [done|].
    exists (S n). intros gas Hgas.
    destruct gas as [|gas]; [lia|].
    assert (getTopmostParentQuery (S gas) this h = Ret h r) as Htop.
    { eapply getTopmostParentQuery_distance; [done..|lia]. }
    split; [done|].
    unfold getNextGlobalTick, bind. rewrite Htop. by apply getNextTick_run.
  - intros Hno gas.
    pose proof (getTopmostParentQuery_sound h Hlinked gas this Hthis) as H.
    assert (getTopmostParentQuery gas this h = Diverge) as Htop.
    { destruct (getTopmostParentQuery gas this h) as [h' r|h' e| |];
        try done.
      destruct H as [_ H]. by destruct (Hno r). }
    split; [done|]. unfold getNextGlobalTick, bind. by rewrite Htop.
Qed.

(** [ancestor h a x]: [a] is [x] itself or lies on the parent chain of
    [x]; in other words [x] is [a] or a descendant of [a]. *)
Inductive ancestor (h : heap) : nat -> nat -> Prop :=
| ancestor_self x : ancestor h x x
| ancestor_up a x b p :
    h !! x = Some b -> _parent b = Some p -> ancestor h a p -> ancestor h a x.

(** The stores a program can build: objects come from the constructors,
    aliases from the two setters, and links from [addAdditionalQuery]
    calls that do not attach a builder below itself or below one of its
    descendants. *)
Inductive built : heap -> Prop :=
| built_empty : built ∅
| built_new h v d h' this :
    built h -> alloc (initial v d) h = Ret h' this -> built h'
| built_setDocSelector h this d h' :
    built h -> setDocSelector this d h = Ret h' this -> built h'
| built_setRootDocSelector h this d h' :
    built h -> setRootDocSelector this d h = Ret h' this -> built h'
| built_addAdditionalQuery h this f q h' :
    built h -> ~ ancestor h q this ->
    addAdditionalQuery this f q h = Ret h' this -> built h'.

(** The two fields the parent chain is made of. *)
Definition links (b : Builder) : bool * option nat :=
  (_isRootQuery b, _parent b).

Lemma links_eq (o : option Builder) (b : Builder) :
  links <$> o = Some (links b) ->
  exists b', o = Some b' /\ _isRootQuery b' = _isRootQuery b
             /\ _parent b' = _parent b.
Proof.
  destruct o as [b'|]; [|done]. simpl. unfold links. intros [= H1 H2]. eauto.
Qed.

Lemma same_links_lookup (h h' : heap) x b :
  (forall x, links <$> h' !! x = links <$> h !! x) ->
  h !! x = Some b ->
  exists b', h' !! x = Some b' /\ _isRootQuery b' = _isRootQuery b
             /\ _parent b' = _parent b.
Proof.
  intros Hsame Hb. apply links_eq. by rewrite Hsame, Hb.
Qed.

Lemma same_links_sym (h h' : heap) :
  (forall x, links <$> h' !! x = links <$> h !! x) ->
  forall x, links <$> h !! x = links <$> h' !! x.
Proof. intros H x. by rewrite H. Qed.

Lemma linked_same_links (h h' : heap) :
  linked h ->
  (forall x, links <$> h' !! x = links <$> h !! x) ->
  linked h'.
Proof.
  intros Hl Hsame x b' Hb'.
  destruct (same_links_lookup h' h x b' (same_links_sym _ _ Hsame) Hb')
    as (b & Hb & Hr & Hp).
  destruct (Hl _ _ Hb) as [H1 H2]. rewrite <- Hr, <- Hp. split; [done|].
  intros p Hpp. destruct (H2 _ Hpp) as [pb Hpb].
  destruct (same_links_lookup h h' p pb Hsame Hpb) as (? & ? & _). eauto.
Qed.

Lemma rooted_same_links (h h' : heap) x r :
  (forall x, links <$> h' !! x = links <$> h !! x) ->
  rooted h x r -> rooted h' x r.
Proof.
  intros Hsame. induction 1 as [x b Hb Hp|x b p r Hb Hp _ IH].
  - destruct (same_links_lookup h h' x b Hsame Hb) as (b' & Hb' & _ & Hp').
    eapply rooted_here; [done|congruence].
  - destruct (same_links_lookup h h' x b Hsame Hb) as (b' & Hb' & _ & Hp').
    apply (rooted_step _ x b' p); [done|congruence|done].
Qed.

Lemma setter_same_links (h : heap) this b f :
  h !! this = Some b -> links (f b) = links b ->
  forall x, links <$> <[this := f b]> h !! x = links <$> h !! x.
Proof.
  intros Hb Hf x. destruct (decide (x = this)) as [->|Hx].
  - rewrite lookup_insert_eq, Hb. simpl. by rewrite Hf.
  - by rewrite lookup_insert_ne.
Qed.

(** The links of the store after an [addAdditionalQuery] that returned:
    [q] has become a non-root below [this], nothing else has moved. *)
Definition attached (h h' : heap) (this q : nat) : Prop :=
  forall x,
    links <$> h' !! x
    = if decide (x = q) then Some (false, Some this) else links <$> h !! x.

Lemma attached_other (h h' : heap) this q x b :
  attached h h' this q -> x <> q -> h !! x = Some b ->
  exists b', h' !! x = Some b' /\ _isRootQuery b' = _isRootQuery b
             /\ _parent b' = _parent b.
Proof.
  intros Hl Hx Hb. apply links_eq.
  rewrite (Hl x), decide_False by done. by rewrite Hb.
Qed.

Lemma attached_child (h h' : heap) this q :
  attached h h' this q ->
  exists c', h' !! q = Some c' /\ _isRootQuery c' = false
             /\ _parent c' = Some this.
Proof.
  intros Hl. pose proof (Hl q) as Hq. rewrite decide_True in Hq by done.
  destruct (h' !! q) as [c'|]; [|done].
  simpl in Hq. unfold links in Hq. injection Hq as H1 H2. eauto.
Qed.

Lemma addAdditionalQuery_links (h h' : heap) this f q :
  addAdditionalQuery this f q h = Ret h' this ->
  is_Some (h !! this) /\ is_Some (h !! q) /\ attached h h' this q.
Proof.
  unfold addAdditionalQuery. intros H.
  destruct (Re.test Re.identifier f) eqn:Hf.
  2:{ unfold bind, checkSafe in H. rewrite Hf in H. discriminate. }
  apply Re.test_spec in Hf. rewrite bind_checkSafe_matches in H by done.
  destruct (h !! this) as [b|] eqn:Hb.
  2:{ unfold bind, read in H. rewrite Hb in H. discriminate. }
  rewrite (bind_read _ b) in H by done.
  destruct (String.eqb f (doc b)); [discriminate|].
  unfold setParentQuery in H. rewrite bind_assoc in H.
  destruct (h !! q) as [c|] eqn:Hc.
  2:{ unfold bind, modify in H. rewrite Hc in H. discriminate. }
  rewrite (bind_modify _ c) in H by done.
  rewrite (bind_modify _ (set__isRootQuery false c)) in H
    by apply lookup_insert_eq.
  split; [eauto|]. split; [eauto|].
  destruct (decide (this = q)) as [->|Hne].
  - rewrite (bind_modify _ (set__parent (Some q) (set__isRootQuery false c)))
      in H by apply lookup_insert_eq.
    injection H as <-. intros x. case_decide as Hx.
    + subst x. by rewrite lookup_insert_eq.
    + by rewrite !lookup_insert_ne.
  - rewrite (bind_modify _ b) in H by by rewrite !lookup_insert_ne.
    injection H as <-. intros x. case_decide as Hx.
    + subst x. by rewrite lookup_insert_ne, lookup_insert_eq.
    + destruct (decide (x = this)) as [->|Hx'].
      * rewrite lookup_insert_eq, Hb. done.
      * by rewrite !lookup_insert_ne.
Qed.

Lemma rooted_after_attach (h h' : heap) this q x r :
  attached h h' this q ->
  rooted h x r -> ~ ancestor h q x -> rooted h' x r.
Proof.
  intros Hl. induction 1 as [x b Hb Hp|x b p r Hb Hp _ IH]; intros Hanc.
  - assert (x <> q) as Hx by (intros ->; apply Hanc; constructor).
    destruct (attached_other _ _ _ _ _ _ Hl Hx Hb) as (b' & Hb' & _ & Hp').
    eapply rooted_here; [done|congruence].
  - assert (x <> q) as Hx by (intros ->; apply Hanc; constructor).
    destruct (attached_other _ _ _ _ _ _ Hl Hx Hb) as (b' & Hb' & _ & Hp').
    apply (rooted_step _ x b' p); [done|congruence|].
    apply IH. intros Ha. apply Hanc. by eapply ancestor_up.
Qed.

Lemma rooted_somewhere_after_attach (h h' : heap) this q x r rt :
  attached h h' this q ->
  rooted h' this rt ->
  rooted h x r -> exists r', rooted h' x r'.
Proof.
  intros Hl Hthis.
  destruct (attached_child _ _ _ _ Hl) as (c' & Hc' & _ & Hpc').
  induction 1 as [x b Hb Hp|x b p r Hb Hp _ IH].
  - destruct (decide (x = q)) as [->|Hx].
    + exists rt. by eapply rooted_step.
    + destruct (attached_other _ _ _ _ _ _ Hl Hx Hb) as (b' & Hb' & _ & Hp').
      exists x. eapply rooted_here; [done|congruence].
  - destruct (decide (x = q)) as [->|Hx].
    + exists rt. by eapply rooted_step.
    + destruct (attached_other _ _ _ _ _ _ Hl Hx Hb) as (b' & Hb' & _ & Hp').
      destruct IH as [r' IH]. exists r'.
      apply (rooted_step _ x b' p); [done|congruence|done].
Qed.

(** Every store a program can build is [linked], and each of its builders
    has a finite parent chain. *)
Lemma built_rooted (h : heap) :
  built h ->
  linked h /\ forall x, is_Some (h !! x) -> exists r, rooted h x r.
Proof.
  induction 1 as [|h v d h' this _ [IHl IHr] Hnew
                  |h this d h' _ [IHl IHr] Hset
                  |h this d h' _ [IHl IHr] Hset
                  |h this f q h' _ [IHl IHr] Hanc Hadd].
  - split; [intros x b Hb|intros x [b Hb]]; by rewrite lookup_empty in Hb.
  - unfold alloc in Hnew. injection Hnew as <- <-.
    pose proof (is_fresh (dom h)) as Hfresh.
    set (this := fresh (dom h)) in *.
    apply not_elem_of_dom in Hfresh.
    split.
    + intros x b Hb. destruct (decide (x = this)) as [->|Hx].
      * rewrite lookup_insert_eq in Hb. injection Hb as <-. simpl.
        split; [done|]. intros p Hp. discriminate.
      * rewrite lookup_insert_ne in Hb by done.
        destruct (IHl _ _ Hb) as [H1 H2]. split; [done|].
        intros p Hp. destruct (H2 _ Hp) as [pb Hpb].
        destruct (decide (p = this)) as [->|Hp']; [congruence|].
        rewrite lookup_insert_ne by done. eauto.
    + intros x Hx. destruct (decide (x = this)) as [->|Hne].
      * exists this. eapply rooted_here; [apply lookup_insert_eq|done].
      * rewrite lookup_insert_ne in Hx by done.
        destruct (IHr _ Hx) as [r Hr]. exists r.
        clear Hx Hne. induction Hr as [x b Hb Hp|x b p r Hb Hp _ IH].
        -- eapply rooted_here; [|done].
           rewrite lookup_insert_ne; [done|congruence].
        -- eapply rooted_step; [|done..].
           rewrite lookup_insert_ne; [done|congruence].
  - unfold setDocSelector in Hset.
    destruct (Re.test Re.identifier d) eqn:Hd.
    2:{ unfold bind, checkSafe in Hset. rewrite Hd in Hset. discriminate. }
    apply Re.test_spec in Hd.
    rewrite bind_checkSafe_matches in Hset by done.
    destruct (h !! this) as [b|] eqn:Hb.
    2:{ unfold bind, modify in Hset. rewrite Hb in Hset. discriminate. }
    rewrite (bind_modify _ b) in Hset by done. injection Hset as <-.
    pose proof (setter_same_links h this b (set_doc d) Hb eq_refl) as Hsame.
    split; [by eapply linked_same_links|].
    intros x [bx Hx].
    destruct (same_links_lookup _ _ x bx (same_links_sym _ _ Hsame) Hx)
      as (? & Hx' & _).
    destruct (IHr x ltac:(eauto)) as [r Hr]. exists r.
    by eapply rooted_same_links.
  - unfold setRootDocSelector in Hset.
    destruct (Re.test Re.identifier d) eqn:Hd.
    2:{ unfold bind, checkSafe in Hset. rewrite Hd in Hset. discriminate. }
    apply Re.test_spec in Hd.
    rewrite bind_checkSafe_matches in Hset by done.
    destruct (h !! this) as [b|] eqn:Hb.
    2:{ unfold bind, modify in Hset. rewrite Hb in Hset. discriminate. }
    rewrite (bind_modify _ b) in Hset by done. injection Hset as <-.
    pose proof (setter_same_links h this b (set_rootDoc d) Hb eq_refl) as Hsame.
    split; [by eapply linked_same_links|].
    intros x [bx Hx].
    destruct (same_links_lookup _ _ x bx (same_links_sym _ _ Hsame) Hx)
      as (? & Hx' & _).
    destruct (IHr x ltac:(eauto)) as [r Hr]. exists r.
    by eapply rooted_same_links.
  - destruct (addAdditionalQuery_links _ _ _ _ _ Hadd) as (Hthis & Hq & Hl).
    destruct (attached_child _ _ _ _ Hl) as (c' & Hc' & Hrc' & Hpc').
    assert (forall x, is_Some (h' !! x) <-> is_Some (h !! x)) as Hdom.
    { intros x. destruct (decide (x = q)) as [->|Hx]; [by eauto|].
      pose proof (Hl x) as E. rewrite decide_False in E by done.
      split; intros [? Hs]; rewrite Hs in E;
        [destruct (h !! x) | destruct (h' !! x)]; eauto; done. }
    destruct (IHr _ Hthis) as [rt Hrt].
    pose proof (rooted_after_attach _ _ _ _ _ _ Hl Hrt Hanc) as Hrt'.
    split.
    + intros x b' Hb'. destruct (decide (x = q)) as [->|Hx].
      * assert (b' = c') as -> by congruence. rewrite Hrc', Hpc'.
        split; [done|]. intros p [= <-]. by apply Hdom.
      * destruct (proj1 (Hdom x) ltac:(eauto)) as [b Hb].
        destruct (attached_other _ _ _ _ _ _ Hl Hx Hb) as (b2 & Hb2 & Hr & Hp).
        assert (b2 = b') as -> by congruence.
        destruct (IHl _ _ Hb) as [H1 H2]. rewrite Hr, Hp. split; [done|].
        intros p Hpp. apply Hdom. eauto.
    + intros x Hx%Hdom. destruct (IHr _ Hx) as [r Hr].
      by eapply rooted_somewhere_after_attach.
Qed.

(** A builder that was attached to itself: its parent chain is a cycle. *)
Definition self_attached : heap :=
  <[0 := set__parent (Some 0)
           (set__isRootQuery false (initial (Document some_document) "doc"))]> ∅.

Lemma self_attached_linked : linked self_attached.
Proof.
  intros x b Hb. unfold self_attached in Hb.
  destruct (decide (x = 0)) as [->|Hx].
  - rewrite lookup_insert_eq in Hb. injection Hb as <-. simpl.
    split; [done|]. intros p [= <-].
    unfold self_attached. rewrite lookup_insert_eq. eauto.
  - by rewrite lookup_insert_ne in Hb.
Qed.

Lemma self_attached_not_rooted x r : rooted self_attached x r -> False.
Proof.
  induction 1 as [x b Hb Hp|x b p r Hb Hp _ IH]; [|done].
  unfold self_attached in Hb. destruct (decide (x = 0)) as [->|Hx].
  - rewrite lookup_insert_eq in Hb. by injection Hb as <-.
  - by rewrite lookup_insert_ne in Hb.
Qed.

(** C10. In a store where roots are flagged and parents exist: when the
    parent chain of [this] is finite and free of cycles, that is, reaches
    a builder [r] without parent, [getTopmostParentQuery] returns that
    parentless [r] given enough fuel, and [getNextGlobalTick] returns
    with it; the precondition is needed, for when the chain reaches no
    such builder both run forever, whatever the fuel; and the
    precondition holds for every builder of a store built by the
    constructors, the alias setters and [addAdditionalQuery] calls that
    never attach a builder below itself or one of its descendants. *)
Theorem getNextGlobalTick_terminates_on_acyclic_chains :
  (forall (h : heap) (this r : nat),
     linked h -> rooted h this r ->
     exists rb,
       h !! r = Some rb /\ _parent rb = None
       /\ exists gas0, forall gas, gas0 <= gas ->
            getTopmostParentQuery gas this h = Ret h r
            /\ getNextGlobalTick gas this h
               = Ret (<[r := set__tick (_tick rb + 1) rb]> h) (_tick rb + 1))
  /\ (forall (h : heap) (this : nat),
        linked h -> is_Some (h !! this) ->
        (forall r, ~ rooted h this r) ->
        forall gas,
          getTopmostParentQuery gas this h = Diverge
          /\ getNextGlobalTick gas this h = Diverge)
  /\ (forall h : heap,
        built h ->
        linked h /\ forall x, is_Some (h !! x) -> exists r, rooted h x r).
Proof.
  split; [|split].
  - intros h this r Hl Hr.
    assert (is_Some (h !! this)) as Hthis by (inversion Hr; eauto).
    by apply (topmost_returns_or_diverges h this Hl Hthis).
  - intros h this Hl Hthis.
    apply (topmost_returns_or_diverges h this Hl Hthis).
  - apply built_rooted.
Qed.

Lemma getNextGlobalTick_terminates_on_acyclic_chains_witness :
  getNextGlobalTick 7 0 self_attached = Diverge
  /\ exists gas0 rb,
       parent_and_child !! 0 = Some rb
       /\ getNextGlobalTick gas0 1 parent_and_child
          = Ret (<[0 := set__tick (_tick rb + 1) rb]> parent_and_child)
                (_tick rb + 1).
Proof.
  destruct getNextGlobalTick_terminates_on_acyclic_chains as (H1 & H2 & _).
  split.
  - apply (H2 self_attached 0 self_attached_linked).
    + unfold self_attached. rewrite lookup_insert_eq. eauto.
    + intros r Hr. by eapply self_attached_not_rooted.
  - destruct (H1 parent_and_child 1 0) as (rb & Hrb & _ & gas0 & Hgas).
    + intros x b Hb. unfold parent_and_child in Hb.
      destruct (decide (x = 1)) as [->|Hx1].
      * rewrite lookup_insert_eq in Hb. injection Hb as <-. simpl.
        split; [done|]. intros p [= <-]. vm_compute. eauto.
      * rewrite lookup_insert_ne in Hb by done.
        destruct (decide (x = 0)) as [->|Hx0].
        -- rewrite lookup_insert_eq in Hb. injection Hb as <-. simpl.
           split; [done|]. intros p [=].
        -- by rewrite lookup_insert_ne in Hb.
    + eapply rooted_step; [vm_compute; reflexivity|reflexivity|].
      eapply rooted_here; [vm_compute; reflexivity|reflexivity].
    + exists gas0, rb. split; [done|]. by apply (Hgas gas0).
Defined.

(* ================================================================== *)
(** * What building never changes *)
(* ================================================================== *)

(** The fields no build step assigns: the class and options, the children,
    the row alias and the links. *)
Definition static (b : Builder)
  : Variant * list (string * nat) * string * bool * option nat :=
  (variant b, additionalQueries b, doc b, _isRootQuery b, _parent b).

Definition same_static (h h' : heap) : Prop :=
  forall x, static <$> h' !! x = static <$> h !! x.

Lemma same_static_refl h : same_static h h.
Proof. done. Qed.

Lemma same_static_trans h1 h2 h3 :
  same_static h1 h2 -> same_static h2 h3 -> same_static h1 h3.
Proof. intros H12 H23 x. by rewrite H23, H12. Qed.

Lemma same_static_lookup h h' x b :
  same_static h h' -> h !! x = Some b ->
  exists b', h' !! x = Some b' /\ static b' = static b.
Proof.
  intros Hs Hb. pose proof (Hs x) as E. rewrite Hb in E.
  destruct (h' !! x) as [b'|]; [|done]. exists b'. split; [done|].
  change (Some (static b') = Some (static b)) in E. congruence.
Qed.


Lemma same_static_links h h' :
  same_static h h' -> forall x, links <$> h' !! x = links <$> h !! x.
Proof.
  intros Hs x. pose proof (Hs x) as E.
  destruct (h' !! x) as [b'|], (h !! x) as [b|]; try done.
  simpl in E. injection E as _ _ _ E1 E2.
  simpl. unfold links. by rewrite E1, E2.
Qed.

(** [keeps_static m]: however [m] ends, the static fields of every object
    are what they were. *)
Definition keeps_static {A} (m : M A) : Prop :=
  forall h,
    match m h with
    | Ret h' _ | Throw h' _ => same_static h h'
    | Diverge | Stuck => True
    end.

Lemma keeps_ret {A} (a : A) : keeps_static (ret a).
Proof. intros h. apply same_static_refl. Qed.

Lemma keeps_throw {A} e : keeps_static (@throw A e).
Proof. intros h. apply same_static_refl. Qed.

Lemma keeps_diverge {A} : keeps_static (@diverge A).
Proof. by intros h. Qed.

Lemma keeps_read this : keeps_static (read this).
Proof.
  intros h. unfold read. destruct (h !! this); [apply same_static_refl|done].
Qed.

Lemma keeps_modify this f :
  (forall b, static (f b) = static b) -> keeps_static (modify this f).
Proof.
  intros Hf h. unfold modify. destruct (h !! this) as [b|] eqn:Hb; [|done].
  intros x. destruct (decide (x = this)) as [->|Hx].
  - rewrite lookup_insert_eq, Hb. simpl. by rewrite Hf.
  - by rewrite lookup_insert_ne.
Qed.

Lemma keeps_bind {A B} (m : M A) (k : A -> M B) :
  keeps_static m -> (forall a, keeps_static (k a)) -> keeps_static (bind m k).
Proof.
  intros Hm Hk h. unfold bind. specialize (Hm h).
  destruct (m h) as [h' a|h' e| |]; try done.
  specialize (Hk a h'). destruct (k a h'); try done;
    by eapply same_static_trans.
Qed.

Lemma keeps_for_each {A S} (l : list A) (body : S -> A -> M S) acc :
  (forall acc x, x ∈ l -> keeps_static (body acc x)) ->
  keeps_static (for_each l body acc).
Proof.
  revert acc. induction l as [|x l IH]; intros acc Hbody; simpl.
  - apply keeps_ret.
  - apply keeps_bind; [apply Hbody; left|].
    intros acc'. apply IH. intros ? ? ?. apply Hbody. by right.
Qed.

Lemma keeps_checkSafe phrase : keeps_static (checkSafe phrase).
Proof.
  unfold checkSafe. destruct (Re.test _ _); [apply keeps_ret|apply keeps_throw].
Qed.

Create HintDb keeps.
#[local] Hint Resolve keeps_ret keeps_throw keeps_diverge keeps_read
  keeps_checkSafe : keeps.

(** Takes a computation apart along its binds and case distinctions. *)
Ltac keeps_step :=
  match goal with
  | |- keeps_static (bind _ _) => apply keeps_bind; [|intros ?]
  | |- keeps_static (modify _ _) => apply keeps_modify; intros ?; reflexivity
  | |- keeps_static (for_each _ _ _) => apply keeps_for_each; intros ? ? ?
  | |- keeps_static (match ?x with _ => _ end) => destruct x
  | |- keeps_static (let _ := _ in _) => cbv zeta
  | |- keeps_static _ => solve [auto with keeps]
  end.
Ltac keeps := repeat keeps_step.

Lemma keeps_getTopmostParentQuery_loop gas p :
  keeps_static (getTopmostParentQuery_loop gas p).
Proof.
  revert p. induction gas as [|gas IH]; intros p; simpl.
  - apply keeps_diverge.
  - unfold getParentQuery, isRootQuery. keeps.
Qed.
#[local] Hint Resolve keeps_getTopmostParentQuery_loop : keeps.

Lemma keeps_getTopmostParentQuery gas this :
  keeps_static (getTopmostParentQuery gas this).
Proof. unfold getTopmostParentQuery, isRootQuery. keeps. Qed.
#[local] Hint Resolve keeps_getTopmostParentQuery : keeps.

Lemma keeps_getNextGlobalTick gas this :
  keeps_static (getNextGlobalTick gas this).
Proof. unfold getNextGlobalTick, getNextTick. keeps. Qed.
#[local] Hint Resolve keeps_getNextGlobalTick : keeps.

Lemma keeps_setBindVar this key value :
  keeps_static (setBindVar this key value).
Proof. unfold setBindVar. keeps. Qed.

Lemma keeps_mergeBindVars this vars : keeps_static (mergeBindVars this vars).
Proof. unfold mergeBindVars. keeps. Qed.

Lemma keeps_getProperty v key : keeps_static (getProperty v key).
Proof. unfold getProperty. keeps. Qed.
#[local] Hint Resolve keeps_setBindVar keeps_mergeBindVars keeps_getProperty
  : keeps.

Lemma keeps_extractFilters_leaf gas this prevKey key v :
  keeps_static (extractFilters_leaf gas this prevKey key v).
Proof. unfold extractFilters_leaf. keeps. Qed.
#[local] Hint Resolve keeps_extractFilters_leaf : keeps.

(** Induction on values, with the entries of an object as smaller. *)
Lemma JsVal_nested_ind (P : JsVal -> Prop) :
  (forall p, P (JPrim p)) ->
  (forall l, P (JArr l)) ->
  (forall fields, Forall (fun kv => P kv.2) fields -> P (JObj fields)) ->
  forall v, P v.
Proof.
  intros Hp Ha Ho. fix IH 1. intros [p|l|fields]; [apply Hp|apply Ha|].
  apply Ho. induction fields as [|[k x] fields IHf]; constructor.
  - apply IH.
  - apply IHf.
Qed.

Lemma keeps_extractFilters_loop recurse gas this l :
  Forall (fun kv => forall prevKey, keeps_static (recurse kv.2 prevKey)) l ->
  forall prevKey filters,
    keeps_static (extractFilters_loop recurse gas this l prevKey filters).
Proof.
  induction 1 as [|[key x] l Hx _ IH]; intros prevKey filters; simpl.
  - apply keeps_ret.
  - destruct (_ || _); keeps.
Qed.

Lemma keeps_extractFilters_object gas this v :
  forall prevKey, keeps_static (extractFilters_object gas this v prevKey).
Proof.
  induction v as [p|l|fields IH] using JsVal_nested_ind; intros prevKey;
    simpl; try apply keeps_ret.
  by apply keeps_extractFilters_loop.
Qed.

Lemma keeps_extractFilters gas this filter prevKey :
  keeps_static (extractFilters gas this filter prevKey).
Proof. apply keeps_extractFilters_object. Qed.
#[local] Hint Resolve keeps_extractFilters : keeps.

Lemma keeps_handleCommaSeparated_loop gas this keyNameInput values :
  forall statement,
    keeps_static
      (handleCommaSeparated_loop gas this keyNameInput values statement).
Proof.
  induction values as [|v values IH]; intros statement; simpl; keeps.
Qed.
#[local] Hint Resolve keeps_handleCommaSeparated_loop : keeps.

Lemma keeps_handleCommaSeparated gas this values keyNameInput :
  keeps_static (handleCommaSeparated gas this values keyNameInput).
Proof. unfold handleCommaSeparated. keeps. Qed.
#[local] Hint Resolve keeps_handleCommaSeparated : keeps.

Lemma keeps_gatherRelatedCollectionsRecursively gas :
  forall this, keeps_static (gatherRelatedCollectionsRecursively gas this).
Proof.
  induction gas as [|gas IH]; intros this; simpl; keeps.
Qed.
#[local] Hint Resolve keeps_gatherRelatedCollectionsRecursively : keeps.

Lemma keeps_buildFilter gas this : keeps_static (buildFilter gas this).
Proof. unfold buildFilter. keeps. Qed.

Lemma keeps_buildSort gas this : keeps_static (buildSort gas this).
Proof. unfold buildSort. keeps. Qed.

Lemma keeps_buildLimit gas this : keeps_static (buildLimit gas this).
Proof. unfold buildLimit. keeps. Qed.

Lemma keeps_buildWithClause gas this : keeps_static (buildWithClause gas this).
Proof. unfold buildWithClause. keeps. Qed.

Lemma keeps_buildReturnClause this : keeps_static (buildReturnClause this).
Proof. unfold buildReturnClause. keeps. Qed.

Lemma keeps_buildSelector gas this : keeps_static (buildSelector gas this).
Proof.
  unfold buildSelector, Document_buildSelector, Edge_buildSelector,
    buildEdges, buildStartingVertexId, getDocSelector.
  keeps.
Qed.
#[local] Hint Resolve keeps_buildFilter keeps_buildSort keeps_buildLimit
  keeps_buildWithClause keeps_buildReturnClause keeps_buildSelector : keeps.

Lemma keeps_buildAdditionalQueries prepare this :
  (forall x, keeps_static (prepare x)) ->
  keeps_static (buildAdditionalQueries prepare this).
Proof.
  intros Hp. unfold buildAdditionalQueries, buildAdditionalQueries_step.
  keeps.
Qed.

Lemma keeps_prepareQuery gas fuel :
  forall this, keeps_static (prepareQuery gas fuel this).
Proof.
  induction fuel as [|fuel IH]; intros this; simpl; [apply keeps_diverge|].
  unfold buildEverything. keeps.
  by apply keeps_buildAdditionalQueries.
Qed.

(* ================================================================== *)
(** * The repository's tests, run on the model *)
(* ================================================================== *)

Module Tests.
Import Options.

Definition owner_filter : option FilterBy :=
  Some (mkFilterBy
          [("gitRepoInfo", JObj [("owner", JPrim (PString "Tospaa"))])]).

(** "should prepare query when complex related query 1" *)
Definition complex_related_query_1 : M Aql.t :=
  do builder <- newArangoDocumentQueryBuilder
    (mkDocumentOptions (mkQueryOptions None None owner_filter None)
       "manifest") ;;
  do one <- newArangoDocumentQueryBuilder
    (mkDocumentOptions
       (mkQueryOptions None (Some (mkLimitBy 0 1)) None None)
       "data_sources") ;;
  do _ <- addAdditionalQuery builder "one_data_source" one ;;
  do related <- newArangoEdgeQueryBuilder
    (mkEdgeOptions
       (mkQueryOptions (Some (mkSortBy "foo.bar" ASC))
          (Some (mkLimitBy 3 2)) None (Some true))
       (One "tospaa") (One "afyon") (Some "deneme/1-2") None None) ;;
  do _ <- addAdditionalQuery builder "related" related ;;
  prepareQuery 3 3 builder.

Definition complex_related_query_1_text : string :=
  "WITH @@target_4 FOR doc IN @@collection_1 FILTER doc.@path_2 == @filter_3 "
  +:+ "LET one_data_source = FIRST(FOR doc IN @@collection_5 "
  +:+ "LIMIT @limitByOffset_6, @limitByLimit_7 RETURN doc) "
  +:+ "LET related = FIRST(LET total = FIRST(FOR vertex IN 1..@depth_10 ANY "
  +:+ "@starting_vertex_9 @@edge_8 COLLECT WITH COUNT INTO length RETURN length) "
  +:+ "LET docs = (FOR vertex IN 1..@depth_10 ANY @starting_vertex_9 @@edge_8 "
  +:+ "SORT vertex.@sortField_11 @sortOrder_12 "
  +:+ "LIMIT @limitByOffset_13, @limitByLimit_14 RETURN vertex) "
  +:+ "RETURN { docs, total }) "
  +:+ "RETURN MERGE(doc, { one_data_source, related })".

Definition complex_related_query_1_vars : gmap string JsVal :=
  list_to_map
    [("@collection_1", JPrim (PString "manifest"));
     ("@collection_5", JPrim (PString "data_sources"));
     ("@edge_8", JPrim (PString "tospaa"));
     ("@target_4", JPrim (PString "afyon"));
     ("depth_10", JPrim (PNumber 1));
     ("filter_3", JPrim (PString "Tospaa"));
     ("limitByLimit_14", JPrim (PNumber 2));
     ("limitByLimit_7", JPrim (PNumber 1));
     ("limitByOffset_13", JPrim (PNumber 3));
     ("limitByOffset_6", JPrim (PNumber 0));
     ("path_2", JArr [PString "gitRepoInfo"; PString "owner"]);
     ("sortField_11", JArr [PString "foo"; PString "bar"]);
     ("sortOrder_12", JPrim (PString "ASC"));
     ("starting_vertex_9", JPrim (PString "deneme/1-2"))].

Example complex_related_query_1_ok :
  exists h,
    complex_related_query_1 ∅
    = Ret h (Aql.mk complex_related_query_1_text complex_related_query_1_vars).
Proof. eexists. vm_compute. reflexivity. Qed.

(** "should prepare query when complex related query 2", the nested one *)
Definition complex_related_query_2 : M Aql.t :=
  do builder <- newArangoDocumentQueryBuilder
    (mkDocumentOptions (mkQueryOptions None None owner_filter None)
       "manifest") ;;
  do executions <- newArangoDocumentQueryBuilder
    (mkDocumentOptions
       (mkQueryOptions (Some (mkSortBy "createdTs" DESC))
          (Some (mkLimitBy 0 1)) None None)
       "execution_info") ;;
  do _ <- setDocSelector executions "doc2" ;;
  do inner <- newArangoEdgeQueryBuilder
    (mkEdgeOptions no_options (One "inner_edge") (One "inner_related")
       None None None) ;;
  do innermost <- newArangoEdgeQueryBuilder
    (mkEdgeOptions
       (mkQueryOptions (Some (mkSortBy "dateCreated" ASC)) None None None)
       (One "innermost_edge") (One "innermost_related") None None None) ;;
  do _ <- setDocSelector innermost "doc3" ;;
  do _ <- addAdditionalQuery inner "innermost" innermost ;;
  do _ <- addAdditionalQuery executions "inner" inner ;;
  do _ <- addAdditionalQuery builder "executions" executions ;;
  prepareQuery 4 4 builder.

Definition complex_related_query_2_text : string :=
  "WITH @@target_4, @@target_5 FOR doc IN @@collection_1 "
  +:+ "FILTER doc.@path_2 == @filter_3 "
  +:+ "LET executions = FIRST(FOR doc2 IN @@collection_6 "
  +:+ "SORT doc2.@sortField_7 @sortOrder_8 "
  +:+ "LIMIT @limitByOffset_9, @limitByLimit_10 "
  +:+ "LET inner = (FOR vertex IN 1..@depth_12 ANY doc._id @@edge_11 "
  +:+ "LET innermost = (FOR doc3 IN 1..@depth_14 ANY doc._id @@edge_13 "
  +:+ "SORT doc3.@sortField_15 @sortOrder_16 RETURN doc3) "
  +:+ "RETURN MERGE(vertex, { innermost })) "
  +:+ "RETURN MERGE(doc2, { inner })) "
  +:+ "RETURN MERGE(doc, { executions })".

Example complex_related_query_2_ok :
  exists h vars,
    complex_related_query_2 ∅ = Ret h (Aql.mk complex_related_query_2_text vars).
Proof. eexists _, _. vm_compute. reflexivity. Qed.

(** "should prepare query when only edge query" *)
Definition only_edge_query : M Aql.t :=
  do builder <- newArangoEdgeQueryBuilder
    (mkEdgeOptions (mkQueryOptions None None owner_filter None)
       (One "related_execution_infos")
       (Many ["execution_info"; "data_sources"])
       (Some "deneme/1-2") (Some 4%Z) (Some Outbound)) ;;
  prepareQuery 3 3 builder.

Example only_edge_query_ok :
  exists h,
    only_edge_query ∅
    = Ret h
        (Aql.mk
           ("WITH @@target_6, @@target_7 FOR vertex IN 1..@depth_3 OUTBOUND "
            +:+ "@starting_vertex_2 @@edge_1 "
            +:+ "FILTER vertex.@path_4 == @filter_5 RETURN vertex")
           (list_to_map
              [("@edge_1", JPrim (PString "related_execution_infos"));
               ("@target_6", JPrim (PString "execution_info"));
               ("@target_7", JPrim (PString "data_sources"));
               ("depth_3", JPrim (PNumber 4));
               ("filter_5", JPrim (PString "Tospaa"));
               ("path_4", JArr [PString "gitRepoInfo"; PString "owner"]);
               ("starting_vertex_2", JPrim (PString "deneme/1-2"))])).
Proof. eexists. vm_compute. reflexivity. Qed.

(** "should throw when using base class" *)
Example base_class_throws :
  exists h,
    (do builder <- newArangoBaseQueryBuilder (OfDocument some_document) ;;
     prepareQuery 3 3 builder) ∅
    = Throw h NotImplemented.
Proof. eexists. vm_compute. reflexivity. Qed.

End Tests.

(* ================================================================== *)
(** * Flattening a filter *)
(* ================================================================== *)

(** The filter [{a: {b: 1, c: 2}, d: 3}]. *)
Definition nested_then_sibling : list (string * JsVal) :=
  [("a", JObj [("b", JPrim (PNumber 1)); ("c", JPrim (PNumber 2))]);
   ("d", JPrim (PNumber 3))].

Definition one_document : heap :=
  <[0 := initial (Document some_document) "doc"]> ∅.

(** C2, at the input of the claim.  [extractFilters] visits the entries in
    order and depth first and yields three conditions, but the path of the
    third is [a.d], not [d]: the assignment [prevKey += key + '.'] made
    before the loop descends into [a] is still in force when the loop
    reaches the sibling [d]. *)
Lemma extractFilters_prefix_outlives_nested_object :
  exists h,
    extractFilters 1 0 nested_then_sibling None one_document
    = Ret h
        [Aql.mk "doc.@path_1 == @filter_2"
           (<["filter_2" := JPrim (PNumber 1)]>
              (<["path_1" := JArr [PString "a"; PString "b"]]> ∅));
         Aql.mk "doc.@path_3 == @filter_4"
           (<["filter_4" := JPrim (PNumber 2)]>
              (<["path_3" := JArr [PString "a"; PString "c"]]> ∅));
         Aql.mk "doc.@path_5 == @filter_6"
           (<["filter_6" := JPrim (PNumber 3)]>
              (<["path_5" := JArr [PString "a"; PString "d"]]> ∅))].
Proof. eexists. vm_compute. reflexivity. Qed.

(* ================================================================== *)
(** * The two shapes of the query text *)
(* ================================================================== *)





(* ================================================================== *)
(** * Reasoning about one builder at a time *)
(* ================================================================== *)

(** [wpe m Q E h]: run from [h], [m] terminates, and [Q] holds of the store
    and value it returns, or [E] of the store and error it throws. *)
Definition wpe {A} (m : M A) (Q : heap -> A -> Prop)
  (E : heap -> Error -> Prop) (h : heap) : Prop :=
  match m h with
  | Ret h' a => Q h' a
  | Throw h' e => E h' e
  | Diverge | Stuck => False
  end.

(** Throwing is allowed. *)
Definition may_throw : heap -> Error -> Prop := fun _ _ => True.

(** Throwing is excluded. *)
Definition no_throw : heap -> Error -> Prop := fun _ _ => False.

Section Wpe.
Context {A B : Type}.
Implicit Types (Q : heap -> B -> Prop) (E : heap -> Error -> Prop).

Lemma wpe_ret (a : B) Q E h : Q h a -> wpe (ret a) Q E h.
Proof. done. Qed.

Lemma wpe_throw e Q E h : E h e -> wpe (@throw B e) Q E h.
Proof. done. Qed.

Lemma wpe_bind (m : M A) (k : A -> M B) Q E h :
  wpe m (fun h' a => wpe (k a) Q E h') E h -> wpe (bind m k) Q E h.
Proof. unfold wpe, bind. by destruct (m h). Qed.

Lemma wpe_mono (m : M B) (Q Q' : heap -> B -> Prop) E h :
  wpe m Q E h -> (forall h' a, Q h' a -> Q' h' a) -> wpe m Q' E h.
Proof. unfold wpe. destruct (m h); auto. Qed.

Lemma wpe_may_throw (m : M B) Q E h :
  wpe m Q E h -> wpe m Q may_throw h.
Proof. unfold wpe. by destruct (m h). Qed.

Lemma wpe_tail (m : M B) Q E h : wpe (bind m ret) Q E h -> wpe m Q E h.
Proof. unfold wpe, bind, ret. by destruct (m h). Qed.

Lemma wpe_keeps (m : M B) Q E h :
  keeps_static m -> wpe m Q E h ->
  wpe m (fun h' a => Q h' a /\ same_static h h') E h.
Proof. intros Hk. specialize (Hk h). unfold wpe. by destruct (m h). Qed.

Lemma wpe_checkSafe phrase (k : unit -> M B) Q E h :
  (Re.matches Re.identifier phrase -> wpe (k tt) Q E h) ->
  (~ Re.matches Re.identifier phrase -> E h (UnsafeIdentifier phrase)) ->
  wpe (bind (checkSafe phrase) k) Q E h.
Proof.
  intros Hok Hbad. unfold wpe, bind, checkSafe.
  destruct (Re.test Re.identifier phrase) eqn:Ht.
  - apply Re.test_spec in Ht. by apply Hok.
  - apply Re.test_false in Ht. by apply Hbad.
Qed.

End Wpe.

Lemma wpe_for_each {A S} (I : list A -> heap -> S -> Prop)
  (l : list A) (body : S -> A -> M S) acc (E : heap -> Error -> Prop) h :
  I l h acc ->
  (forall x rest h acc,
     I (x :: rest) h acc ->
     wpe (body acc x) (fun h' acc' => I rest h' acc') E h) ->
  wpe (for_each l body acc) (fun h' acc' => I [] h' acc') E h.
Proof.
  intros HI Hbody. revert h acc HI.
  induction l as [|x l IH]; intros h acc HI; simpl; [done|].
  apply wpe_bind. eapply wpe_mono; [by apply Hbody|].
  intros h' acc' HI'. by apply IH.
Qed.

Lemma set__tick_set__tick t t' b : set__tick t' (set__tick t b) = set__tick t' b.
Proof. reflexivity. Qed.

Lemma set__tick_eta b : set__tick (_tick b) b = b.
Proof. by destruct b. Qed.

Lemma set__tick_modulo x y :
  set__tick 0 x = set__tick 0 y -> x = set__tick (_tick x) y.
Proof.
  intros H. rewrite <- (set__tick_eta x) at 1.
  rewrite <- (set__tick_set__tick 0 (_tick x) x), H. reflexivity.
Qed.

(** [chain h x r n]: the [n] parent steps from [x] end at the root [r],
    which is flagged as root and is the only flagged builder on the
    way. *)
Inductive chain (h : heap) : nat -> nat -> nat -> Prop :=
| chain_root x b :
    h !! x = Some b -> _parent b = None -> _isRootQuery b = true ->
    chain h x x 0
| chain_child x b p r n :
    h !! x = Some b -> _parent b = Some p -> _isRootQuery b = false ->
    chain h p r n -> chain h x r (S n).

Lemma chain_top h x r n :
  chain h x r n ->
  exists rb, h !! r = Some rb /\ _parent rb = None /\ _isRootQuery rb = true.
Proof. induction 1; eauto. Qed.

Lemma chain_same_links h h' x r n :
  (forall x, links <$> h' !! x = links <$> h !! x) ->
  chain h x r n -> chain h' x r n.
Proof.
  intros Hsame. induction 1 as [x b Hb Hp Hr|x b p r n Hb Hp Hr _ IH].
  - destruct (same_links_lookup h h' x b Hsame Hb) as (b' & Hb' & Hr' & Hp').
    apply (chain_root _ x b'); congruence.
  - destruct (same_links_lookup h h' x b Hsame Hb) as (b' & Hb' & Hr' & Hp').
    apply (chain_child _ x b' p); [done|congruence|congruence|done].
Qed.

Lemma getTopmostParentQuery_loop_chain h gas p r n :
  chain h p r n -> n <= gas -> 1 <= gas ->
  getTopmostParentQuery_loop gas p h = Ret h r.
Proof.
  intros H. revert gas.
  induction H as [x b Hb Hp Hr|x b p r n Hb Hp Hr Hc IH]; intros gas Hgas H1.
  - destruct gas as [|gas]; [lia|]. simpl. unfold getParentQuery.
    rewrite bind_assoc, (bind_read _ b) by done.
    rewrite bind_ret. by rewrite Hp.
  - destruct gas as [|gas]; [lia|].
    cbn [getTopmostParentQuery_loop].
    unfold getParentQuery. rewrite bind_assoc, (bind_read _ b) by done.
    rewrite bind_ret, Hp.
    inversion Hc as [? pb Hpb Hpp Hpr|? pb q ? m Hpb Hpp Hpr Hc']; subst.
    + unfold isRootQuery. rewrite bind_assoc, (bind_read _ pb) by done.
      rewrite bind_ret. by rewrite Hpr.
    + unfold isRootQuery. rewrite bind_assoc, (bind_read _ pb) by done.
      rewrite bind_ret. rewrite Hpr. apply IH; lia.
Qed.

Lemma getTopmostParentQuery_chain h gas x r n :
  chain h x r n -> n <= gas -> 1 <= gas ->
  getTopmostParentQuery gas x h = Ret h r.
Proof.
  intros H Hgas H1. unfold getTopmostParentQuery.
  inversion H as [? b Hb Hp Hr|? b p ? m Hb Hp Hr Hc]; subst.
  - rewrite (bind_read _ b) by done. by rewrite Hp.
  - rewrite (bind_read _ b) by done. rewrite Hp.
    inversion Hc as [? pb Hpb Hpp Hpr|? pb q ? m' Hpb Hpp Hpr Hc']; subst.
    + unfold isRootQuery. rewrite bind_assoc, (bind_read _ pb) by done.
      rewrite bind_ret. by rewrite Hpr.
    + unfold isRootQuery. rewrite bind_assoc, (bind_read _ pb) by done.
      rewrite bind_ret. rewrite Hpr.
      eapply getTopmostParentQuery_loop_chain; [done|lia..].
Qed.

(** [only_changed T r h h']: from [h] to [h'], the objects outside [T]
    are untouched, but for the counter of [r]. *)
Definition only_changed (T : list nat) (r : nat) (h h' : heap) : Prop :=
  forall x,
    x ∉ T ->
    (x <> r -> h' !! x = h !! x)
    /\ set__tick 0 <$> h' !! x = set__tick 0 <$> h !! x.

Lemma only_changed_refl T r h : only_changed T r h h.
Proof. by intros x Hx. Qed.

Lemma only_changed_trans T r h1 h2 h3 :
  only_changed T r h1 h2 -> only_changed T r h2 h3 -> only_changed T r h1 h3.
Proof.
  intros H12 H23 x Hx. destruct (H12 x Hx) as [A1 B1].
  destruct (H23 x Hx) as [A2 B2]. split.
  - intros Hr. by rewrite A2, A1.
  - by rewrite B2, B1.
Qed.

Lemma only_changed_mono T T' r h h' :
  T ⊆ T' -> only_changed T r h h' -> only_changed T' r h h'.
Proof. intros Hsub H x Hx. apply H. intros Hin. apply Hx, Hsub, Hin. Qed.

Section Node.
Context (gas : nat) (this r : nat).

(** [at_node T h0 h b k n]: while [this] is being built, starting from the
    store [h0]: the fields of [this] are [b] (up to its own counter), the
    counter of the root [r], which lies [n] steps above, stands at [k],
    and nothing outside [T] has been touched. *)
Definition at_node (T : list nat) (h0 h : heap) (b : Builder) (k n : nat)
  : Prop :=
  this ∈ T
  /\ (exists t, h !! this = Some (set__tick t b))
  /\ (exists rb, h !! r = Some rb /\ _tick rb = k)
  /\ chain h this r n /\ n <= gas /\ 1 <= gas
  /\ only_changed T r h0 h
  /\ same_static h0 h.

(** A function on builders that assigns fields other than the counter and
    the static ones. *)
Definition assigns (f : Builder -> Builder) : Prop :=
  (forall t x, f (set__tick t x) = set__tick t (f x))
  /\ (forall x, static (f x) = static x).

Lemma wpe_read_this {B} T h0 h b k n (K : Builder -> M B) Q E :
  at_node T h0 h b k n ->
  (forall t, wpe (K (set__tick t b)) Q E h) ->
  wpe (bind (read this) K) Q E h.
Proof.
  intros (_ & [t Ht] & _) HK. unfold wpe.
  rewrite (bind_read _ _ _ _ Ht). apply HK.
Qed.

Lemma at_node_modify T h0 h b k n f :
  at_node T h0 h b k n -> assigns f ->
  exists b1, h !! this = Some b1
    /\ at_node T h0 (<[this := f b1]> h) (f b) k n.
Proof.
  intros (HT & [t Ht] & (rb & Hrb & Hk) & Hc & Hn & Hg & Hoc & Hss) [Hf1 Hf2].
  exists (set__tick t b). split; [done|].
  assert (same_static h (<[this := f (set__tick t b)]> h)) as Hss'.
  { pose proof (keeps_modify this f Hf2 h) as Hkm.
    unfold modify in Hkm. by rewrite Ht in Hkm. }
  pose proof (same_static_links _ _ Hss') as Hlinks.
  split; [done|]. split.
  { exists t. by rewrite lookup_insert_eq, Hf1. }
  split.
  { destruct (decide (r = this)) as [->|Hne].
    - rewrite lookup_insert_eq. eexists. split; [done|].
      rewrite Hf1. simpl. assert (rb = set__tick t b) as -> by congruence.
      by simpl in Hk.
    - rewrite lookup_insert_ne by done. eauto. }
  split; [by eapply chain_same_links|]. split; [done|]. split; [done|].
  split; [|by eapply same_static_trans].
  eapply only_changed_trans; [done|].
  intros x Hx. assert (x <> this) by (intros ->; done).
  by rewrite lookup_insert_ne.
Qed.

Lemma wpe_modify_this {B} T h0 h b k n f (K : unit -> M B) Q E :
  at_node T h0 h b k n -> assigns f ->
  (forall h', at_node T h0 h' (f b) k n -> wpe (K tt) Q E h') ->
  wpe (bind (modify this f) K) Q E h.
Proof.
  intros Hat Hf HK.
  destruct (at_node_modify _ _ _ _ _ _ _ Hat Hf) as (b1 & Hb1 & Hat').
  unfold wpe. rewrite (bind_modify _ _ _ _ _ Hb1). by apply HK.
Qed.

Lemma at_node_tick T h0 h b k n :
  at_node T h0 h b k n ->
  exists h',
    getNextGlobalTick gas this h = Ret h' (k + 1)
    /\ at_node T h0 h' b (k + 1) n.
Proof.
  intros (HT & [t Ht] & (rb & Hrb & <-) & Hc & Hn & Hg & Hoc & Hss).
  exists (<[r := set__tick (_tick rb + 1) rb]> h). split.
  { unfold getNextGlobalTick, bind.
    rewrite (getTopmostParentQuery_chain _ _ _ _ _ Hc Hn Hg).
    by rewrite (getNextTick_run _ _ _ Hrb). }
  assert (same_static h (<[r := set__tick (_tick rb + 1) rb]> h)) as Hss'.
  { pose proof (keeps_modify r (fun b => set__tick (_tick b + 1) b)
                  (fun _ => eq_refl) h) as Hkm.
    unfold modify in Hkm. by rewrite Hrb in Hkm. }
  pose proof (same_static_links _ _ Hss') as Hlinks.
  split; [done|]. split.
  { destruct (decide (this = r)) as [Heq|Hne].
    - rewrite Heq, lookup_insert_eq. exists (_tick rb + 1).
      rewrite Heq in Ht.
      assert (rb = set__tick t b) as -> by congruence. reflexivity.
    - rewrite lookup_insert_ne by done. eauto. }
  split.
  { rewrite lookup_insert_eq. eexists. split; [done|]. reflexivity. }
  split; [by eapply chain_same_links|]. split; [done|]. split; [done|].
  split; [|by eapply same_static_trans].
  eapply only_changed_trans; [done|].
  intros x Hx. split.
  - intros Hr. by rewrite lookup_insert_ne.
  - destruct (decide (x = r)) as [->|Hr].
    + by rewrite lookup_insert_eq, Hrb.
    + by rewrite lookup_insert_ne.
Qed.

Lemma wpe_tick {B} T h0 h b k n (K : nat -> M B) Q E :
  at_node T h0 h b k n ->
  (forall h', at_node T h0 h' b (k + 1) n -> wpe (K (k + 1)) Q E h') ->
  wpe (bind (getNextGlobalTick gas this) K) Q E h.
Proof.
  intros Hat HK. destruct (at_node_tick _ _ _ _ _ _ Hat) as (h' & Hrun & Hat').
  unfold wpe, bind. rewrite Hrun. by apply HK.
Qed.

Lemma assigns_set_bindVars g :
  assigns (fun b => set_bindVars (g (bindVars b)) b).
Proof. by split. Qed.

Lemma wpe_setBindVar {B} T h0 h b k n key value (K : unit -> M B) Q E :
  at_node T h0 h b k n ->
  (forall h',
     at_node T h0 h' (set_bindVars (<[key := value]> (bindVars b)) b) k n ->
     wpe (K tt) Q E h') ->
  wpe (bind (setBindVar this key value) K) Q E h.
Proof.
  intros Hat HK. unfold setBindVar.
  eapply wpe_modify_this; [done| |done].
  apply (assigns_set_bindVars (fun m => <[key := value]> m)).
Qed.

Lemma wpe_mergeBindVars {B} T h0 h b k n vars (K : unit -> M B) Q E :
  at_node T h0 h b k n ->
  (forall h',
     at_node T h0 h' (set_bindVars (bindVars b ∪ vars) b) k n ->
     wpe (K tt) Q E h') ->
  wpe (bind (mergeBindVars this vars) K) Q E h.
Proof.
  intros Hat HK. unfold mergeBindVars.
  eapply wpe_modify_this; [done| |done].
  apply (assigns_set_bindVars (fun m => m ∪ vars)).
Qed.

End Node.

(* ================================================================== *)
(** * Comma-separated collection parameters *)
(* ================================================================== *)

(** What the loop of [handleCommaSeparated] leaves in [statement] and in
    the bind variables when the counter stands at [k] on entry. *)
Fixpoint comma_statement (keyNameInput : string) (k : nat)
  (values : list string) (statement : string) : string :=
  match values with
  | [] => statement
  | _ :: rest =>
      let statement :=
        statement +:+ "@@" +:+ (keyNameInput +:+ "_" +:+ pretty (k + 1)) in
      comma_statement keyNameInput (k + 1) rest
        match rest with [] => statement | _ => statement +:+ ", " end
  end.

Fixpoint comma_vars (keyNameInput : string) (k : nat) (values : list string)
  (vars : gmap string JsVal) : gmap string JsVal :=
  match values with
  | [] => vars
  | value :: rest =>
      comma_vars keyNameInput (k + 1) rest
        (<["@" +:+ (keyNameInput +:+ "_" +:+ pretty (k + 1))
           := JPrim (PString value)]> vars)
  end.

Lemma set_bindVars_eta b : set_bindVars (bindVars b) b = b.
Proof. by destruct b. Qed.

Section NodeSteps.
Context (gas : nat) (this r : nat).
Context (T : list nat) (h0 : heap) (n : nat).

Abbreviation here := (at_node gas this r T h0).

Lemma wpe_handleCommaSeparated_loop keyNameInput values :
  forall h b k statement Q E,
    here h b k n ->
    (forall h',
       here h' (set_bindVars (comma_vars keyNameInput k values (bindVars b)) b)
         (k + length values) n ->
       Q h' (comma_statement keyNameInput k values statement)) ->
    wpe (handleCommaSeparated_loop gas this keyNameInput values statement)
      Q E h.
Proof.
  induction values as [|value rest IH]; intros h b k statement Q E Hat HQ.
  - simpl. apply wpe_ret. apply HQ. simpl.
    by rewrite set_bindVars_eta, Nat.add_0_r.
  - simpl. eapply wpe_tick; [done|]. intros h1 Hat1.
    eapply wpe_setBindVar; [done|]. intros h2 Hat2.
    eapply IH; [done|]. intros h3 Hat3. apply HQ.
    replace (k + length (value :: rest)) with (k + 1 + length rest)
      by (simpl; lia).
    exact Hat3.
Qed.

Lemma wpe_handleCommaSeparated {B} keyNameInput values h b k
  (K : string -> M B) Q E :
  Re.matches Re.identifier keyNameInput ->
  here h b k n ->
  (forall h',
     here h' (set_bindVars (comma_vars keyNameInput k values (bindVars b)) b)
       (k + length values) n ->
     wpe (K (comma_statement keyNameInput k values "")) Q E h') ->
  wpe (bind (handleCommaSeparated gas this values keyNameInput) K) Q E h.
Proof.
  intros Hsafe Hat HK. apply wpe_bind. unfold handleCommaSeparated.
  apply wpe_checkSafe; [intros _|done].
  destruct values as [|v values].
  - apply wpe_ret. apply HK. simpl.
    by rewrite set_bindVars_eta, Nat.add_0_r.
  - by eapply wpe_handleCommaSeparated_loop.
Qed.

End NodeSteps.

Lemma at_node_start gas this r (h : heap) b rb n :
  h !! this = Some b -> h !! r = Some rb -> chain h this r n ->
  n <= gas -> 1 <= gas ->
  at_node gas this r [this] h h b (_tick rb) n.
Proof.
  intros Hb Hrb Hc Hn Hg. split; [apply list_elem_of_here|]. split.
  { exists (_tick b). by rewrite set__tick_eta. }
  split; [eauto|]. split; [done|]. split; [done|]. split; [done|].
  split; [apply only_changed_refl | apply same_static_refl].
Qed.

(* ================================================================== *)
(** * The starting vertex of a traversal *)
(* ================================================================== *)

Lemma wpe_bind_assoc {A B C} (m : M A) (f : A -> M B) (k : B -> M C) Q E h :
  wpe (bind m (fun x => bind (f x) k)) Q E h -> wpe (bind (bind m f) k) Q E h.
Proof. unfold wpe. by rewrite bind_assoc. Qed.

(** Brings the computation at the head into the form [bind m k] with [m]
    not itself a [bind]. *)
Ltac wpe_assoc :=
  repeat match goal with
         | |- wpe (bind (bind _ _) _) _ _ _ => apply wpe_bind_assoc
         end.

Lemma wpe_bind_ret {A B} (a : A) (k : A -> M B) Q E h :
  wpe (k a) Q E h -> wpe (bind (ret a) k) Q E h.
Proof. done. Qed.

Lemma wpe_getDocSelector {B} x xb (K : string -> M B) Q E (h : heap) :
  h !! x = Some xb -> wpe (K (doc xb)) Q E h ->
  wpe (bind (getDocSelector x) K) Q E h.
Proof.
  intros Hx HK. unfold wpe, getDocSelector.
  by rewrite bind_assoc, (bind_read _ xb), bind_ret.
Qed.

Lemma wpe_returns {A} (m : M A) Q (h : heap) :
  wpe m Q no_throw h -> exists h' a, m h = Ret h' a /\ Q h' a.
Proof. unfold wpe. destruct (m h) as [h' a|h' e| |]; try done. eauto. Qed.

Lemma wpe_throws {A} (m : M A) (e : Error) (h : heap) :
  wpe m (fun _ _ => False) (fun _ e' => e' = e) h ->
  exists h', m h = Throw h' e.
Proof.
  unfold wpe. destruct (m h) as [h' a|h' e'| |]; try done.
  intros ->. eauto.
Qed.

Section StartingVertex.
Context (gas : nat) (this r : nat).
Context (T : list nat) (h0 : heap) (n : nat).

Abbreviation here := (at_node gas this r T h0).

Lemma at_node_root h b k :
  here h b k n -> forall rb0, h0 !! r = Some rb0 ->
  exists rb, h !! r = Some rb /\ static rb = static rb0.
Proof.
  intros (_ & _ & _ & _ & _ & _ & _ & Hss) rb0 Hrb0.
  by eapply same_static_lookup.
Qed.

Lemma wpe_getTopmostParentQuery {B} h b k (K : nat -> M B) Q E :
  here h b k n -> wpe (K r) Q E h ->
  wpe (bind (getTopmostParentQuery gas this) K) Q E h.
Proof.
  intros (_ & _ & _ & Hc & Hn & Hg & _) HK. unfold wpe, bind.
  by rewrite (getTopmostParentQuery_chain _ _ _ _ _ Hc Hn Hg).
Qed.

Lemma assigns_set_startingVertexId s : assigns (set_startingVertexId s).
Proof. by split. Qed.

Lemma assigns_set_rootDoc s : assigns (set_rootDoc s).
Proof. by split. Qed.

(** The four ways [buildStartingVertexId] can go, as the fields it leaves
    in [this] and the error it throws. *)
Lemma wpe_buildStartingVertexId {B} o h b k rb0 (K : unit -> M B) Q E :
  here h b k n ->
  h0 !! r = Some rb0 ->
  match truthy_string (Options.startingVertexId o) with
  | Some vertex =>
      if Re.test Re.documentId vertex then
        let id := "starting_vertex_" +:+ pretty (k + 1) in
        forall h',
          here h'
            (set_bindVars (<[id := JPrim (PString vertex)]> (bindVars b))
               (set_startingVertexId ("@" +:+ id) b)) (k + 1) n ->
          wpe (K tt) Q E h'
      else E h InvalidVertexReference
  | None =>
      if String.eqb (rootDoc b) "" then
        if bool_decide (r = this) then E h MissingStartingVertex
        else
          forall h',
            here h'
              (set_startingVertexId (doc rb0 +:+ "._id")
                 (set_rootDoc (doc rb0) b)) k n ->
            wpe (K tt) Q E h'
      else
        forall h',
          here h' (set_startingVertexId (rootDoc b +:+ "._id") b) k n ->
          wpe (K tt) Q E h'
  end ->
  wpe (bind (buildStartingVertexId gas this o) K) Q E h.
Proof.
  intros Hat Hrb0 H. apply wpe_bind. unfold buildStartingVertexId.
  destruct (truthy_string (Options.startingVertexId o)) as [vertex|].
  - destruct (Re.test Re.documentId vertex); simpl; [|by apply wpe_throw].
    eapply wpe_tick; [done|]. intros h1 Hat1.
    eapply wpe_modify_this; [done|apply assigns_set_startingVertexId|].
    intros h2 Hat2. apply wpe_tail.
    eapply wpe_setBindVar; [done|]. intros h3 Hat3.
    apply wpe_ret. by apply H.
  - eapply wpe_read_this; [done|]. intros t. simpl.
    destruct (String.eqb (rootDoc b) "") eqn:Hroot.
    + apply wpe_bind_assoc.
      eapply wpe_getTopmostParentQuery; [done|].
      destruct (bool_decide (r = this)) eqn:Hrt; [by apply wpe_throw|].
      destruct (at_node_root _ _ _ Hat _ Hrb0) as (rb & Hrb & Hst).
      assert (doc rb = doc rb0) as Hdoc by (unfold static in Hst; congruence).
      apply wpe_bind_assoc.
      eapply wpe_getDocSelector; [done|]. rewrite Hdoc.
      eapply wpe_modify_this; [done|apply assigns_set_rootDoc|].
      intros h1 Hat1. eapply wpe_read_this; [done|]. intros t1. simpl.
      apply wpe_tail.
      eapply wpe_modify_this; [done|apply assigns_set_startingVertexId|].
      intros h2 Hat2. apply wpe_ret. by apply H.
    + apply wpe_bind_ret.
      eapply wpe_read_this; [done|]. intros t1. simpl. apply wpe_tail.
      eapply wpe_modify_this; [done|apply assigns_set_startingVertexId|].
      intros h2 Hat2. apply wpe_ret. by apply H.
Qed.

End StartingVertex.

Lemma chain_zero_iff h x r n b :
  chain h x r n -> h !! x = Some b -> (_parent b = None <-> x = r).
Proof.
  intros Hc Hb. split.
  - intros Hp. inversion Hc; simplify_eq; done.
  - intros ->. destruct (chain_top _ _ _ _ Hc) as (rb & Hrb & Hp & _).
    congruence.
Qed.

Lemma assigns_set_edges s : assigns (set_edges s).
Proof. by split. Qed.

Lemma identifier_edge : Re.matches Re.identifier "edge".
Proof. by apply Re.test_spec. Qed.

Lemma identifier_target : Re.matches Re.identifier "target".
Proof. by apply Re.test_spec. Qed.

Lemma truthy_string_Some v : v <> "" -> truthy_string (Some v) = Some v.
Proof. intros Hv. simpl. apply String.eqb_neq in Hv. by rewrite Hv. Qed.

(** The selector of an edge builder, up to the point where the starting
    vertex is resolved: [K] is what [buildStartingVertexId] is run
    with. *)
Lemma prepareQuery_edge_throws gas fuel this r n (h : heap) b rb o e :
  h !! this = Some b -> variant b = Edge o -> h !! r = Some rb ->
  chain h this r n -> n <= gas -> 1 <= gas ->
  (forall h1 b1 k1,
     at_node gas this r [this] h h1 b1 k1 n -> rootDoc b1 = rootDoc b ->
     forall B (K : unit -> M B),
       wpe (bind (buildStartingVertexId gas this o) K) (fun _ _ => False)
         (fun _ e' => e' = e) h1) ->
  exists h', prepareQuery gas (S fuel) this h = Throw h' e.
Proof.
  intros Hb Hv Hrb Hc Hn Hg Hstart. apply wpe_throws.
  pose proof (at_node_start gas this r h b rb n Hb Hrb Hc Hn Hg) as Hat.
  simpl. unfold buildEverything. wpe_assoc.
  unfold buildSelector. wpe_assoc.
  eapply wpe_read_this; [done|]. intros t. simpl. rewrite Hv.
  unfold Edge_buildSelector, buildEdges. wpe_assoc.
  eapply wpe_handleCommaSeparated; [apply identifier_edge|done|].
  intros h1 Hat1.
  eapply wpe_modify_this; [done|apply assigns_set_edges|]. intros h2 Hat2.
  wpe_assoc. by eapply Hstart.
Qed.

(** C4, amended.  [buildStartingVertexId] resolves the starting vertex of
    an edge builder in this order.  (a) A starting vertex given in the
    options and not the empty string: unless it matches
    [collection/key] the call throws the invalid-vertex-reference error
    (and so does [prepareQuery]); when it matches, it is bound to a fresh
    [starting_vertex_k] parameter, which is what the selector will name.
    Otherwise, with no starting vertex or the empty string: (b) a root
    document selector that was set is inlined; (c) failing that, a
    builder that has a parent takes the row alias of the root of its
    tree; (d) and a builder without parent throws the
    missing-starting-vertex error (and so does [prepareQuery]). *)
Theorem buildStartingVertexId_resolution_order
  (gas fuel this r n : nat) (h : heap) (b rb : Builder)
  (o : Options.ArangoEdgeQueryOptions) :
  h !! this = Some b -> variant b = Edge o -> h !! r = Some rb ->
  chain h this r n -> n <= gas -> 1 <= gas ->
  (forall v,
     Options.startingVertexId o = Some v -> v <> "" ->
     (~ Re.matches Re.documentId v ->
      buildStartingVertexId gas this o h = Throw h InvalidVertexReference
      /\ exists h', prepareQuery gas (S fuel) this h
                    = Throw h' InvalidVertexReference)
     /\ (Re.matches Re.documentId v ->
         exists h' b',
           buildStartingVertexId gas this o h = Ret h' tt
           /\ h' !! this = Some b'
           /\ let id := "starting_vertex_" +:+ pretty (_tick rb + 1) in
              startingVertexId b' = "@" +:+ id
              /\ bindVars b' = <[id := JPrim (PString v)]> (bindVars b)))
  /\ (truthy_string (Options.startingVertexId o) = None ->
      (rootDoc b <> "" ->
       exists h' b',
         buildStartingVertexId gas this o h = Ret h' tt
         /\ h' !! this = Some b'
         /\ startingVertexId b' = rootDoc b +:+ "._id"
         /\ bindVars b' = bindVars b)
      /\ (rootDoc b = "" -> is_Some (_parent b) ->
          exists h' b',
            buildStartingVertexId gas this o h = Ret h' tt
            /\ h' !! this = Some b'
            /\ startingVertexId b' = doc rb +:+ "._id"
            /\ bindVars b' = bindVars b)
      /\ (rootDoc b = "" -> _parent b = None ->
          buildStartingVertexId gas this o h = Throw h MissingStartingVertex
          /\ exists h', prepareQuery gas (S fuel) this h
                        = Throw h' MissingStartingVertex)).
Proof.
  intros Hb Hv Hrb Hc Hn Hg.
  pose proof (at_node_start gas this r h b rb n Hb Hrb Hc Hn Hg) as Hat.
  pose proof (chain_zero_iff _ _ _ _ _ Hc Hb) as Hroot.
  split.
  - intros v Hsv Hne. split.
    + intros Hbad%Re.test_false. split.
      * unfold buildStartingVertexId.
        rewrite Hsv, truthy_string_Some by done. by rewrite Hbad.
      * eapply (prepareQuery_edge_throws gas fuel this r n h b rb o);
          [done..|].
        intros h1 b1 k1 Hat1 _ B K.
        eapply wpe_buildStartingVertexId; [done..|].
        rewrite Hsv, truthy_string_Some by done. by rewrite Hbad.
    + intros Hok%Re.test_spec.
      destruct (wpe_returns (buildStartingVertexId gas this o)
                  (fun h' _ =>
                     at_node gas this r [this] h h'
                       (set_bindVars
                          (<["starting_vertex_" +:+ pretty (_tick rb + 1)
                             := JPrim (PString v)]> (bindVars b))
                          (set_startingVertexId
                             ("@" +:+ "starting_vertex_"
                              +:+ pretty (_tick rb + 1)) b))
                       (_tick rb + 1) n) h)
        as (h' & [] & Hrun & Hat').
      { apply wpe_tail. eapply wpe_buildStartingVertexId; [done..|].
        rewrite Hsv, truthy_string_Some by done. rewrite Hok. cbv zeta.
        intros h' Hat'. by apply wpe_ret. }
      destruct Hat' as (_ & [t Ht] & _).
      eexists _, _. split; [done|]. split; [done|]. done.
  - intros Hnone. split; [|split].
    + intros Hrd%String.eqb_neq.
      destruct (wpe_returns (buildStartingVertexId gas this o)
                  (fun h' _ =>
                     at_node gas this r [this] h h'
                       (set_startingVertexId (rootDoc b +:+ "._id") b)
                       (_tick rb) n) h)
        as (h' & [] & Hrun & Hat').
      { apply wpe_tail. eapply wpe_buildStartingVertexId; [done..|].
        rewrite Hnone, Hrd. intros h' Hat'. by apply wpe_ret. }
      destruct Hat' as (_ & [t Ht] & _).
      eexists _, _. split; [done|]. split; [done|]. done.
    + intros Hrd [p Hp].
      assert (r <> this) as Hne.
      { intros <-. pose proof (proj2 Hroot eq_refl). congruence. }
      destruct (wpe_returns (buildStartingVertexId gas this o)
                  (fun h' _ =>
                     at_node gas this r [this] h h'
                       (set_startingVertexId (doc rb +:+ "._id")
                          (set_rootDoc (doc rb) b))
                       (_tick rb) n) h)
        as (h' & [] & Hrun & Hat').
      { apply wpe_tail. eapply wpe_buildStartingVertexId; [done..|].
        rewrite Hnone, Hrd. simpl. rewrite bool_decide_eq_false_2 by done.
        intros h' Hat'. by apply wpe_ret. }
      destruct Hat' as (_ & [t Ht] & _).
      eexists _, _. split; [done|]. split; [done|]. done.
    + intros Hrd Hp. apply Hroot in Hp as <-.
      assert (rb = b) as -> by congruence. split.
      * unfold buildStartingVertexId. rewrite Hnone.
        rewrite (bind_read _ b) by done. rewrite Hrd. simpl.
        rewrite !bind_assoc.
        unfold bind at 1.
        rewrite (getTopmostParentQuery_chain _ _ _ _ _ Hc Hn Hg).
        by rewrite bool_decide_eq_true_2.
      * eapply (prepareQuery_edge_throws gas fuel this this n h b b o);
          [done..|].
        intros h1 b1 k1 Hat1 Hrd1 B K.
        eapply wpe_buildStartingVertexId; [done..|].
        rewrite Hnone, Hrd1, Hrd. simpl.
        by rewrite bool_decide_eq_true_2.
Qed.

(** An edge builder on its own, with the options of the repository's
    test "should throw when no parent and no root doc nor startingVertexId
    is set", and the same with the empty string as starting vertex. *)
Definition lonely_edge_options (vertex : option string)
  : Options.ArangoEdgeQueryOptions :=
  edge_defaults
    (Options.mkEdgeOptions Options.no_options (Options.One "edge")
       (Options.One "related") vertex None None).

Definition lonely_edge (vertex : option string) : heap :=
  <[0 := initial (Edge (lonely_edge_options vertex)) "vertex"]> ∅.

Lemma lonely_edge_chain vertex : chain (lonely_edge vertex) 0 0 0.
Proof.
  eapply chain_root; [apply lookup_insert_eq|done..].
Qed.

Lemma buildStartingVertexId_resolution_order_witness :
  buildStartingVertexId 1 0 (lonely_edge_options None) (lonely_edge None)
  = Throw (lonely_edge None) MissingStartingVertex
  /\ exists h',
       prepareQuery 1 1 0 (lonely_edge None) = Throw h' MissingStartingVertex.
Proof.
  refine (proj2 (proj2 (proj2
    (buildStartingVertexId_resolution_order 1 0 0 0 0 (lonely_edge None)
       (initial (Edge (lonely_edge_options None)) "vertex")
       (initial (Edge (lonely_edge_options None)) "vertex")
       (lonely_edge_options None) _ eq_refl _ (lonely_edge_chain None)
       _ _) eq_refl)) eq_refl eq_refl).
  - apply lookup_insert_eq.
  - apply lookup_insert_eq.
  - lia.
  - lia.
Defined.

(** C4 as stated fails on the empty string: it is a starting vertex given
    explicitly and it does not match [collection/key], yet the builder
    reports a missing starting vertex, not an invalid one. *)
Lemma empty_starting_vertex_counts_as_missing :
  Options.startingVertexId (lonely_edge_options (Some "")) = Some ""
  /\ Re.test Re.documentId "" = false
  /\ exists h',
       prepareQuery 1 1 0 (lonely_edge (Some ""))
       = Throw h' MissingStartingVertex.
Proof.
  split; [done|]. split; [done|]. eexists. vm_compute. reflexivity.
Qed.

(* ================================================================== *)
(** * Trees of builders *)
(* ================================================================== *)

(** The shape of a tree of builders: the identity of each builder and,
    in the order of its [additionalQueries], the trees of its children. *)
#[warnings="-register-all"]
Inductive Tree : Type :=
| Node (id : nat) (kids : list Tree).

Definition tid (t : Tree) : nat :=
  match t with Node id _ => id end.

Definition kids_of (t : Tree) : list Tree :=
  match t with Node _ kids => kids end.

Fixpoint ids (t : Tree) : list nat :=
  match t with Node id kids => id :: flat_map ids kids end.

Fixpoint height (t : Tree) : nat :=
  match t with Node _ kids => S (foldr (fun c m => max (height c) m) 0 kids) end.

Lemma height_kid c kids :
  c ∈ kids -> height c <= foldr (fun c m => max (height c) m) 0 kids.
Proof.
  induction kids as [|c' kids IH]; [by intros ?%elem_of_nil|].
  intros [->|Hin]%elem_of_cons; simpl; [lia|].
  specialize (IH Hin). lia.
Qed.

(** [shape h t]: in the store [h], the children maps spell out [t]. *)
#[warnings="-register-all"]
Inductive shape (h : heap) : Tree -> Prop :=
| shape_node id kids b :
    h !! id = Some b ->
    (additionalQueries b).*2 = map tid kids ->
    Forall (shape h) kids ->
    shape h (Node id kids).

(** The related collections a builder declares itself: those of its
    options when they are truthy. *)
Definition own_related (b : Builder) : list string :=
  match relatedCollections (variant b) with
  | Some c => if truthy_collections (Some c) then concatArrays [] c else []
  | None => []
  end.

(** The related collections of a tree, gathered depth first, parent
    before children, children in order, with repetitions kept. *)
Fixpoint related (h : heap) (t : Tree) : list string :=
  match t with
  | Node id kids =>
      from_option own_related [] (h !! id) ++ flat_map (related h) kids
  end.

Lemma gatherRelatedCollectionsRecursively_kids (h : heap) gas :
  (forall t,
     shape h t -> height t <= gas ->
     gatherRelatedCollectionsRecursively gas (tid t) h = Ret h (related h t)) ->
  forall kids (l : list (string * nat)) acc,
    l.*2 = map tid kids -> Forall (shape h) kids ->
    (forall c, c ∈ kids -> height c <= gas) ->
    for_each l
      (fun targets elem =>
         do sub <- gatherRelatedCollectionsRecursively gas elem.2 ;;
         ret (concatArrays targets (Options.Many sub)))
      acc h
    = Ret h (acc ++ flat_map (related h) kids).
Proof.
  intros IH. induction kids as [|c kids IHk]; intros l acc Hl Hall Hhk.
  - destruct l; [|done]. simpl. by rewrite app_nil_r.
  - destruct l as [|[name x] l]; [done|].
    simpl in Hl. injection Hl as -> Hl.
    apply Forall_cons in Hall as [Hc Hall].
    cbn [for_each]. unfold bind at 1. unfold bind at 1.
    cbn [snd]. rewrite (IH c Hc) by (apply Hhk; left).
    unfold ret at 1. rewrite IHk; [|done..|].
    + cbn [concatArrays flat_map]. by rewrite <- app_assoc.
    + intros c' Hc'. apply Hhk. by right.
Qed.

Lemma gatherRelatedCollectionsRecursively_tree (h : heap) gas :
  forall t,
    shape h t -> height t <= gas ->
    gatherRelatedCollectionsRecursively gas (tid t) h = Ret h (related h t).
Proof.
  induction gas as [|gas IH]; intros t Hs Hh.
  { destruct t. simpl in Hh. lia. }
  destruct Hs as [id kids b Hb Hkids Hall]. simpl in Hh.
  cbn [gatherRelatedCollectionsRecursively tid related].
  rewrite (bind_read _ b) by done. rewrite Hb.
  apply (gatherRelatedCollectionsRecursively_kids h gas IH kids
           (additionalQueries b) (own_related b)); [done..|].
  intros c Hc. pose proof (height_kid c kids Hc). lia.
Qed.

(* ================================================================== *)
(** * The declaration clause *)
(* ================================================================== *)

Lemma wpe_bind_run {A B} (m : M A) (K : A -> M B) Q E (h h' : heap) a :
  m h = Ret h' a -> wpe (K a) Q E h' -> wpe (bind m K) Q E h.
Proof. intros Hm HK. unfold wpe, bind. by rewrite Hm. Qed.

(** The name generated from the base [keyNameInput] at tick [k]. *)
Definition keyName (keyNameInput : string) (k : nat) : string :=
  keyNameInput +:+ "_" +:+ pretty k.

Lemma app_inv_head (a x y : string) : a +:+ x = a +:+ y -> x = y.
Proof.
  induction a as [|c a IH]; [done|]. rewrite !Str.app_cons.
  intros [= H]. auto.
Qed.

Lemma keyName_inj keyNameInput k k' :
  keyName keyNameInput k = keyName keyNameInput k' -> k = k'.
Proof.
  unfold keyName. intros H%app_inv_head%app_inv_head.
  by apply (inj pretty) in H.
Qed.

Lemma join_cons sep x l :
  l <> [] -> Str.join sep (x :: l) = x +:+ sep +:+ Str.join sep l.
Proof. by destruct l. Qed.

Lemma comma_statement_join keyNameInput values :
  forall k statement,
    comma_statement keyNameInput k values statement
    = statement
      +:+ Str.join ", "
            (imap (fun i _ => "@@" +:+ keyName keyNameInput (k + 1 + i)) values).
Proof.
  induction values as [|v rest IH]; intros k statement; simpl.
  - by rewrite Str.app_nil_r.
  - rewrite IH. rewrite Nat.add_0_r. fold (keyName keyNameInput (k + 1)).
    assert (imap ((fun i _ => "@@" +:+ keyName keyNameInput (k + 1 + i)) ∘ S)
              rest
            = imap (fun i (_ : string) =>
                      "@@" +:+ keyName keyNameInput (k + 1 + 1 + i)) rest) as ->.
    { apply imap_ext. intros i x _. simpl. do 2 f_equal. lia. }
    destruct rest as [|v' rest].
    + simpl. by rewrite !Str.app_nil_r.
    + simpl. by rewrite !Str.app_assoc.
Qed.

Lemma comma_vars_other keyNameInput values :
  forall k vars x,
    (forall i, i < length values -> x <> "@" +:+ keyName keyNameInput (k + 1 + i)) ->
    comma_vars keyNameInput k values vars !! x = vars !! x.
Proof.
  induction values as [|v rest IH]; intros k vars x Hx; simpl; [done|].
  rewrite IH.
  - rewrite lookup_insert_ne; [done|].
    intros E. apply (Hx 0); [simpl; lia|]. rewrite Nat.add_0_r. done.
  - intros i Hi. replace (k + 1 + 1 + i) with (k + 1 + S i) by lia.
    apply Hx. simpl. lia.
Qed.

Lemma comma_vars_lookup keyNameInput values :
  forall k vars i v,
    values !! i = Some v ->
    comma_vars keyNameInput k values vars
      !! ("@" +:+ keyName keyNameInput (k + 1 + i))
    = Some (JPrim (PString v)).
Proof.
  induction values as [|v0 rest IH]; intros k vars i v Hi; [done|].
  destruct i as [|i]; simpl in Hi.
  - injection Hi as ->. simpl. rewrite comma_vars_other.
    + rewrite Nat.add_0_r. apply lookup_insert_eq.
    + intros i _ E%app_inv_head%keyName_inj. lia.
  - simpl. replace (k + 1 + S i) with (k + 1 + 1 + i) by lia. by apply IH.
Qed.

Lemma assigns_set_withClause s : assigns (set_withClause s).
Proof. by split. Qed.

(** C6. [buildWithClause] does nothing on a builder that is not flagged
    as root.  On the root of a tree it gathers the related collections of
    the whole tree depth first ([related]: a builder's own, then those of
    its children in order, repetitions kept); when there is none the
    clause is left out and nothing changes; otherwise the clause is
    [WITH], one [@@target_k] per gathered name, in order, separated by
    commas, and each occurrence is bound under a key of its own. *)
Theorem buildWithClause_declares_related_collections
  (gas this : nat) (h : heap) (b : Builder) :
  h !! this = Some b ->
  (_isRootQuery b = false -> buildWithClause gas this h = Ret h tt)
  /\ (forall t,
        _isRootQuery b = true -> _parent b = None ->
        tid t = this -> shape h t -> height t <= gas ->
        let targets := related h t in
        let k := _tick b in
        (targets = [] -> buildWithClause gas this h = Ret h tt)
        /\ (targets <> [] ->
            exists h' b',
              buildWithClause gas this h = Ret h' tt
              /\ h' !! this = Some b'
              /\ withClause b'
                 = "WITH "
                   +:+ Str.join ", "
                         (imap (fun i _ => "@@" +:+ keyName "target" (k + 1 + i))
                            targets)
                   +:+ " "
              /\ _tick b' = k + length targets
              /\ (forall i v,
                    targets !! i = Some v ->
                    bindVars b' !! ("@" +:+ keyName "target" (k + 1 + i))
                    = Some (JPrim (PString v)))
              /\ forall x, x <> this -> h' !! x = h !! x)).
Proof.
  intros Hb. split.
  { intros Hr. unfold buildWithClause.
    rewrite (bind_read _ b) by done. by rewrite Hr. }
  intros t Hr Hp Ht Hs Hh targets k.
  assert (gatherRelatedCollectionsRecursively gas this h = Ret h targets)
    as Hg.
  { rewrite <- Ht. by apply gatherRelatedCollectionsRecursively_tree. }
  split.
  { intros Hnil. unfold buildWithClause.
    rewrite (bind_read _ b) by done. rewrite Hr.
    unfold bind. by rewrite Hg, Hnil. }
  intros Hne.
  assert (chain h this this 0) as Hc by by eapply chain_root.
  assert (1 <= gas) as Hg1 by (destruct t; simpl in Hh; lia).
  pose proof (at_node_start gas this this h b b 0 Hb Hb Hc
                ltac:(lia) Hg1) as Hat.
  destruct (wpe_returns (buildWithClause gas this)
              (fun h' _ =>
                 at_node gas this this [this] h h'
                   (set_withClause
                      ("WITH " +:+ comma_statement "target" k targets ""
                       +:+ " ")
                      (set_bindVars
                         (comma_vars "target" k targets (bindVars b)) b))
                   (k + length targets) 0) h)
    as (h' & [] & Hrun & Hat').
  { apply wpe_tail. unfold buildWithClause. wpe_assoc.
    eapply wpe_read_this; [done|]. intros t0. simpl. rewrite Hr.
    wpe_assoc. eapply wpe_bind_run; [done|].
    destruct targets as [|v targets'] eqn:Et; [done|]. rewrite <- Et.
    wpe_assoc.
    eapply wpe_handleCommaSeparated; [apply identifier_target|done|].
    intros h1 Hat1.
    eapply wpe_modify_this; [done|apply assigns_set_withClause|].
    intros h2 Hat2. by apply wpe_ret. }
  destruct Hat' as (_ & [t0 Ht0] & (rb & Hrb & Hk) & _ & _ & _ & Hoc & _).
  rewrite Ht0 in Hrb. injection Hrb as <-.
  eexists _, _. split; [done|]. split; [exact Ht0|].
  split; [|split; [|split]].
  - simpl. by rewrite comma_statement_join.
  - done.
  - intros i v Hi. simpl. by apply comma_vars_lookup.
  - intros x Hx. apply Hoc; [|done]. by intros ->%list_elem_of_singleton.
Qed.

(** A document builder with two traversal children that both declare the
    collection [afyon]. *)
Definition afyon_edge : Builder :=
  set__parent (Some 0)
    (set__isRootQuery false
       (initial
          (Edge (edge_defaults
                   (Options.mkEdgeOptions Options.no_options
                      (Options.One "tospaa") (Options.One "afyon")
                      None None None)))
          "vertex")).

Definition twice_afyon : heap :=
  <[2 := afyon_edge]>
    (<[1 := afyon_edge]>
       (<[0 := set_additionalQueries [("first", 1); ("second", 2)]
                 (initial (Document some_document) "doc")]> ∅)).

Lemma twice_afyon_shape : shape twice_afyon (Node 0 [Node 1 []; Node 2 []]).
Proof.
  eapply shape_node; [reflexivity|reflexivity|].
  repeat constructor; (eapply shape_node; [reflexivity|reflexivity|constructor]).
Qed.

Lemma buildWithClause_declares_related_collections_witness :
  exists h' b',
    buildWithClause 2 0 twice_afyon = Ret h' tt
    /\ h' !! 0 = Some b'
    /\ withClause b' = "WITH @@target_1, @@target_2 "
    /\ bindVars b' !! "@target_1" = Some (JPrim (PString "afyon"))
    /\ bindVars b' !! "@target_2" = Some (JPrim (PString "afyon")).
Proof.
  destruct (proj2 (buildWithClause_declares_related_collections 2 0
                     twice_afyon _ eq_refl)
              (Node 0 [Node 1 []; Node 2 []]) eq_refl eq_refl eq_refl
              twice_afyon_shape (le_n 2)) as [_ H].
  destruct H as (h' & b' & Hrun & Hb' & Hw & _ & Hv & _); [done|].
  exists h', b'. split; [done|]. split; [done|]. split; [exact Hw|].
  split; [exact (Hv 0 "afyon" eq_refl) | exact (Hv 1 "afyon" eq_refl)].
Defined.

(* ================================================================== *)
(** * Assembling the children *)
(* ================================================================== *)






(* ================================================================== *)
(** * Placeholders in a query text *)
(* ================================================================== *)

(** The characters of a bind parameter name. *)
Definition name_char (c : ascii) : bool :=
  Re.letter c || Re.between "0" "9" c || Ascii.eqb c "_".

Definition is_at (c : ascii) : bool := Ascii.eqb c "@".

(** What a finished run of name characters after [@] or [@@] refers to:
    the key of the bind variable, which for [@@name] is [@name]. *)
Definition flush (acc : string) : list string :=
  if String.eqb acc "" || String.eqb acc "@" then [] else [acc].

(** Scans a query text from left to right.  The state is [None] in plain
    text and [Some acc] after an [@], where [acc] is the key read so
    far.  The result is the list of keys referred to and the state at the
    end. *)
Fixpoint scan (st : option string) (s : string) : list string * option string :=
  match s with
  | EmptyString => ([], st)
  | String c s' =>
      match st with
      | None => scan (if is_at c then Some "" else None) s'
      | Some acc =>
          if name_char c then scan (Some (acc +:+ String c "")) s'
          else if is_at c && String.eqb acc "" then scan (Some "@") s'
          else
            let '(out, st') := scan (if is_at c then Some "" else None) s' in
            (flush acc ++ out, st')
      end
  end.

(** The keys of the bind parameters a query text refers to. *)
Definition placeholders (s : string) : list string :=
  let '(out, st) := scan None s in out ++ from_option flush [] st.

Lemma scan_app s1 : forall st s2,
  scan st (s1 +:+ s2)
  = let '(o1, st1) := scan st s1 in
    let '(o2, st2) := scan st1 s2 in (o1 ++ o2, st2).
Proof.
  induction s1 as [|c s1 IH]; intros st s2.
  - rewrite Str.app_nil_l. simpl. by destruct (scan st s2).
  - rewrite Str.app_cons. simpl. destruct st as [acc|].
    + destruct (name_char c); [apply IH|].
      destruct (is_at c && String.eqb acc ""); [apply IH|].
      rewrite IH. destruct (scan _ s1) as [o1 st1].
      destruct (scan st1 s2) as [o2 st2]. by rewrite app_assoc.
    + apply IH.
Qed.

(** [runs K st s st']: scanning [s] from state [st] ends in state [st']
    and meets keys of [K] only. *)
Definition runs (K : gset string) (st : option string) (s : string)
  (st' : option string) : Prop :=
  exists out, scan st s = (out, st') /\ forall x, x ∈ out -> x ∈ K.

(** A piece of text that starts and ends outside of a parameter name and
    refers to keys of [K] only. *)
Definition closed (K : gset string) (s : string) : Prop := runs K None s None.

Lemma runs_app K st s1 st1 s2 st2 :
  runs K st s1 st1 -> runs K st1 s2 st2 -> runs K st (s1 +:+ s2) st2.
Proof.
  intros (o1 & H1 & K1) (o2 & H2 & K2). exists (o1 ++ o2).
  rewrite scan_app, H1, H2. split; [done|].
  intros x [?|?]%elem_of_app; auto.
Qed.

Lemma runs_mono K K' st s st' : K ⊆ K' -> runs K st s st' -> runs K' st s st'.
Proof. intros Hsub (o & H & HK). exists o. split; [done|]. auto. Qed.

Lemma runs_compute K st s st' : scan st s = ([], st') -> runs K st s st'.
Proof. intros H. exists []. split; [done|]. by intros x ?%elem_of_nil. Qed.

Lemma runs_nil K st : runs K st "" st.
Proof. by apply runs_compute. Qed.

Lemma runs_text K s :
  Str.all (fun c => negb (is_at c)) s = true -> runs K None s None.
Proof.
  intros H. apply runs_compute. induction s as [|c s IH]; [done|].
  simpl in *. apply andb_prop in H as [Hc Hs].
  apply negb_true_iff in Hc. rewrite Hc. auto.
Qed.

Lemma runs_word K acc s :
  Str.all name_char s = true -> runs K (Some acc) s (Some (acc +:+ s)).
Proof.
  intros H. apply runs_compute. revert acc.
  induction s as [|c s IH]; intros acc.
  - by rewrite Str.app_nil_r.
  - simpl in *. apply andb_prop in H as [Hc Hs]. rewrite Hc, IH by done.
    by rewrite Str.app_assoc.
Qed.

Lemma runs_end K acc c s st' :
  name_char c = false -> is_at c = false -> acc ∈ K ->
  runs K None s st' -> runs K (Some acc) (String c s) st'.
Proof.
  intros Hn Ha Hacc (o & H & HK). exists (flush acc ++ o). simpl.
  rewrite Hn, Ha, H. split; [done|].
  intros x [Hx|Hx]%elem_of_app; [|auto].
  unfold flush in Hx. destruct (_ || _); [by apply elem_of_nil in Hx|].
  by apply list_elem_of_singleton in Hx as ->.
Qed.

Lemma closed_app K s1 s2 : closed K s1 -> closed K s2 -> closed K (s1 +:+ s2).
Proof. apply runs_app. Qed.


(** Identifiers that pass the guard hold no [@]. *)
Lemma word_not_at c : Re.word c = true -> negb (is_at c) = true.
Proof.
  intros H. apply negb_true_iff. unfold is_at.
  destruct (Ascii.eqb c "@") eqn:E; [|done].
  apply Ascii.eqb_eq in E as ->. done.
Qed.

Lemma letter_word c : Re.letter c = true -> Re.word c = true.
Proof. intros H. unfold Re.word. by rewrite H. Qed.

Lemma identifier_text K s : Re.matches Re.identifier s -> closed K s.
Proof.
  intros (c & s' & -> & Hc & Hs)%Re.identifier_inv. apply runs_text.
  simpl. rewrite (word_not_at c (letter_word c Hc)). simpl.
  eapply Str.all_impl; [|done]. apply word_not_at.
Qed.

(* ================================================================== *)
(** * Generated names *)
(* ================================================================== *)

Definition digit (c : ascii) : bool := Re.between "0" "9" c.

Lemma digit_pretty_N_char x : digit (pretty_N_char x) = true.
Proof. unfold pretty_N_char. by repeat case_match. Qed.

Lemma digits_pretty_N_go x : forall s,
  Str.all digit s = true -> Str.all digit (pretty_N_go x s) = true.
Proof.
  induction (N.lt_wf_0 x) as [x _ IH]. intros s Hs.
  destruct (decide (0 < x)%N) as [Hx|Hx].
  - rewrite pretty_N_go_step by done. apply IH.
    + by apply N.div_lt.
    + simpl. by rewrite digit_pretty_N_char.
  - assert (x = 0%N) as -> by lia. by rewrite pretty_N_go_0.
Qed.

Lemma digits_pretty (k : nat) : Str.all digit (pretty k) = true.
Proof.
  unfold pretty, pretty_nat, pretty, pretty_N. case_decide; [done|].
  by apply digits_pretty_N_go.
Qed.

Lemma digit_name_char c : digit c = true -> name_char c = true.
Proof.
  intros H. unfold name_char. unfold digit in H. rewrite H.
  by rewrite orb_true_r.
Qed.

Lemma keyName_word p k :
  Str.all name_char p = true -> Str.all name_char (keyName p k) = true.
Proof.
  intros Hp. unfold keyName. rewrite !Str.all_app, Hp. simpl.
  eapply Str.all_impl; [apply digit_name_char|apply digits_pretty].
Qed.

(** Names generated at different ticks differ, whatever their bases. *)
Lemma digits_after_underscore p : forall p' d d',
  Str.all digit d = true -> Str.all digit d' = true ->
  p +:+ "_" +:+ d = p' +:+ "_" +:+ d' -> d = d'.
Proof.
  induction p as [|c p IH]; intros p' d d' Hd Hd' E.
  - destruct p' as [|c' p'].
    + rewrite !Str.app_nil_l, !Str.app_cons, !Str.app_nil_l in E.
      by injection E.
    + rewrite !Str.app_nil_l, !Str.app_cons, !Str.app_nil_l in E.
      injection E as _ E. subst d.
      rewrite Str.all_app in Hd. apply andb_prop in Hd as [_ Hd].
      rewrite ?Str.app_cons, ?Str.app_nil_l in Hd. simpl in Hd. discriminate.
  - destruct p' as [|c' p'].
    + rewrite !Str.app_nil_l, !Str.app_cons, !Str.app_nil_l in E.
      injection E as _ E. subst d'.
      rewrite Str.all_app in Hd'. apply andb_prop in Hd' as [_ Hd'].
      rewrite ?Str.app_cons, ?Str.app_nil_l in Hd'. simpl in Hd'.
      discriminate.
    + rewrite !Str.app_cons in E. injection E as _ E. by eapply IH.
Qed.

Lemma keyName_tick_inj p p' k k' : keyName p k = keyName p' k' -> k = k'.
Proof.
  unfold keyName. intros E.
  apply digits_after_underscore in E; [|apply digits_pretty..].
  by apply (inj pretty) in E.
Qed.

Set Warnings "-clear-no-such-hyp".

(** The names generated at the ticks after [k0], one base per tick. *)
Definition generated (k0 : nat) (bases : list string) : list string :=
  imap (fun i p => keyName p (k0 + 1 + i)) bases.

(** [names K0 K k0 k]: the keys [K] are those of [K0] and one name
    generated at each of the ticks [k0 + 1 .. k]. *)
Definition names (K0 K : gset string) (k0 k : nat) : Prop :=
  exists bases,
    k = k0 + length bases /\ K = K0 ∪ list_to_set (generated k0 bases).

Lemma generated_app k0 l1 l2 :
  generated k0 (l1 ++ l2) = generated k0 l1 ++ generated (k0 + length l1) l2.
Proof.
  unfold generated. rewrite imap_app. f_equal.
  apply imap_ext. intros i x _. simpl. f_equal. lia.
Qed.

Lemma generated_NoDup k0 bases : NoDup (generated k0 bases).
Proof.
  apply NoDup_alt. intros i j x Hi Hj. unfold generated in *.
  rewrite list_lookup_imap in Hi, Hj.
  destruct (bases !! i) as [p|]; [|done].
  destruct (bases !! j) as [p'|]; [|done].
  simpl in *. injection Hi as <-. injection Hj as Hj.
  apply keyName_tick_inj in Hj. lia.
Qed.

Lemma names_refl K k : names K K k k.
Proof.
  exists []. split; [simpl; lia|]. simpl. by rewrite (right_id_L ∅ (∪)).
Qed.

Lemma names_merge K0 K K0' K' k0 k1 k2 :
  names K0 K k0 k1 -> names K0' K' k1 k2 -> names (K0 ∪ K0') (K ∪ K') k0 k2.
Proof.
  intros (l1 & -> & ->) (l2 & -> & ->). exists (l1 ++ l2). split.
  - rewrite length_app. lia.
  - rewrite generated_app, list_to_set_app_L. set_solver.
Qed.

Lemma names_one p k : names ∅ {[keyName p (k + 1)]} k (k + 1).
Proof.
  exists [p]. split; [done|]. unfold generated. simpl.
  rewrite Nat.add_0_r. set_solver.
Qed.

Lemma names_insert K0 K p k0 k :
  names K0 K k0 k -> names K0 ({[keyName p (k + 1)]} ∪ K) k0 (k + 1).
Proof.
  intros H. rewrite (comm_L _ _ K), <- (right_id_L ∅ (∪) K0).
  eapply names_merge; [done|apply names_one].
Qed.

Lemma names_size K k0 k : names ∅ K k0 k -> size K = k - k0.
Proof.
  intros (l & -> & ->). rewrite (left_id_L ∅ (∪)).
  rewrite size_list_to_set by apply generated_NoDup.
  unfold generated. rewrite length_imap. lia.
Qed.

Lemma names_le K0 K k0 k : names K0 K k0 k -> k0 <= k.
Proof. intros (l & -> & _). lia. Qed.

Lemma names_subseteq K0 K k0 k : names K0 K k0 k -> K0 ⊆ K.
Proof. intros (l & _ & ->). set_solver. Qed.

(* ================================================================== *)
(** * Trees of builders that are ready to be prepared *)
(* ================================================================== *)

(** The six comparison operators of [FilterObj]. *)
Definition operators : list string := ["=="; "!="; "<"; ">"; "<="; ">="].

(** An [@operator] as its type has it: missing, or one of the six. *)
Definition operator_ok (x : option JsVal) : Prop :=
  match x with
  | None | Some (JPrim PUndefined) | Some (JPrim PNull) => True
  | Some (JPrim (PString s)) => s ∈ operators
  | Some _ => False
  end.

(** A [@docNameToFilter] that is missing or is an identifier. *)
Definition alias_ok (x : option JsVal) : Prop :=
  match x with
  | None | Some (JPrim PUndefined) | Some (JPrim PNull) => True
  | Some (JPrim (PString s)) => Re.matches Re.identifier s
  | Some _ => False
  end.

(** The property [key] of a value that has properties. *)
Definition own (v : JsVal) (key : string) : option JsVal :=
  match v with
  | JObj fields => prop key fields
  | _ => None
  end.

Definition leaf_ok (v : JsVal) : Prop :=
  alias_ok (own v "@docNameToFilter") /\ operator_ok (own v "@operator").

(** [filter_ok v]: every entry that [extractFilters] turns into a
    condition is [leaf_ok]. *)
Fixpoint filter_ok_loop (recurse : JsVal -> Prop) (l : list (string * JsVal))
  : Prop :=
  match l with
  | [] => True
  | (_, x) :: l' =>
      (if isFilterPrimitiveType x || isFilterProperFilterObject x
       then leaf_ok x else recurse x)
      /\ filter_ok_loop recurse l'
  end.

Fixpoint filter_ok (v : JsVal) : Prop :=
  match v with
  | JObj fields => filter_ok_loop filter_ok fields
  | _ => True
  end.

(** What the guarded setters and the option types give: the row alias and
    the names of the children are identifiers, and the filter is
    [filter_ok]. *)
Definition node_ok (b : Builder) : Prop :=
  Re.matches Re.identifier (doc b)
  /\ Forall (fun elem => Re.matches Re.identifier elem.1) (additionalQueries b)
  /\ from_option (fun f => filter_ok (JObj (Options.filter f))) True
       (Options.filterBy (options (variant b))).

(** The clauses of [b] refer to keys of [K] only. *)
Definition clauses_closed (K : gset string) (b : Builder) : Prop :=
  closed K (withClause b) /\ closed K (selector b) /\ closed K (filter b)
  /\ closed K (sort b) /\ closed K (limit b) /\ closed K (inlineQueries b)
  /\ closed K (returnClause b).

(** A builder at rest, before or after any [prepareQuery]: its clauses
    refer to its own bind variables only, and its root document selector
    is unset or an identifier. *)
Definition settled (b : Builder) : Prop :=
  clauses_closed (dom (bindVars b)) b
  /\ (rootDoc b = "" \/ Re.matches Re.identifier (rootDoc b)).

(** [valid h p t]: in the store [h], [t] is a tree of builders at rest
    below the parent [p]: the children maps spell out [t] and each child
    points back at the builder that holds it. *)
#[warnings="-register-all"]
Inductive valid (h : heap) : option nat -> Tree -> Prop :=
| valid_node p id kids b :
    h !! id = Some b ->
    _parent b = p ->
    _isRootQuery b = bool_decide (p = None) ->
    (additionalQueries b).*2 = map tid kids ->
    node_ok b -> settled b ->
    Forall (valid h (Some id)) kids ->
    valid h p (Node id kids).

Lemma elem_of_flat_map {A B} (f : A -> list B) (l : list A) (x : B) :
  x ∈ flat_map f l <-> exists y, y ∈ l /\ x ∈ f y.
Proof.
  induction l as [|a l IH]; simpl.
  - split; [by intros ?%elem_of_nil|by intros (y & ?%elem_of_nil & _)].
  - rewrite elem_of_app, IH. split.
    + intros [Hx|(y & Hy & Hx)]; [exists a|exists y];
        (split; [|done]); [left|by right].
    + intros (y & [->|Hy]%elem_of_cons & Hx); eauto.
Qed.

(** Induction on trees, with the children as smaller. *)
Lemma Tree_nested_ind (P : Tree -> Prop) :
  (forall id kids, Forall P kids -> P (Node id kids)) -> forall t, P t.
Proof.
  intros H. fix IH 1. intros [id kids]. apply H.
  induction kids as [|c kids IHk]; constructor; [apply IH|apply IHk].
Qed.

Lemma valid_lookup h p t :
  valid h p t ->
  exists b,
    h !! tid t = Some b /\ _parent b = p
    /\ _isRootQuery b = bool_decide (p = None).
Proof. intros Hv. inversion Hv; subst. eauto. Qed.

Lemma valid_shape h t : forall p, valid h p t -> shape h t.
Proof.
  induction t as [id kids IH] using Tree_nested_ind. intros p Hv.
  inversion Hv as [? ? ? b Hb Hp Hr Hk Hn Hs Hkids]; subst.
  apply (shape_node _ _ _ b); [done..|].
  rewrite Forall_forall in IH, Hkids. apply Forall_forall.
  intros c Hc. by apply (IH c Hc (Some id)), Hkids.
Qed.

Lemma valid_agree h h' t : forall p,
  (forall x, x ∈ ids t -> h' !! x = h !! x) -> valid h p t -> valid h' p t.
Proof.
  induction t as [id kids IH] using Tree_nested_ind. intros p Hag Hv.
  inversion Hv as [? ? ? b Hb Hp Hr Hk Hn Hs Hkids]; subst.
  apply (valid_node _ _ _ _ b); try done.
  { rewrite Hag; [done|]. simpl. left. }
  rewrite Forall_forall in IH, Hkids. apply Forall_forall.
  intros c Hc. apply (IH c Hc); [|by apply Hkids].
  intros x Hx. apply Hag. simpl. right.
  apply elem_of_flat_map. eauto.
Qed.

Lemma shape_same_static h h' t :
  same_static h h' -> shape h t -> shape h' t.
Proof.
  intros Hss. induction t as [id kids IH] using Tree_nested_ind.
  intros Hs. inversion Hs as [? ? b Hb Hk Hkids]; subst.
  destruct (same_static_lookup _ _ _ _ Hss Hb) as (b' & Hb' & Hst).
  apply (shape_node _ _ _ b'); [done| |].
  - unfold static in Hst. congruence.
  - rewrite Forall_forall in IH, Hkids. apply Forall_forall.
    intros c Hc. by apply IH, Hkids.
Qed.

(** The keys the builders of a tree hold before it is prepared. *)
Fixpoint old_keys (h : heap) (t : Tree) : gset string :=
  match t with
  | Node id kids =>
      from_option (fun b => dom (bindVars b)) ∅ (h !! id)
      ∪ ⋃ (map (old_keys h) kids)
  end.

Lemma old_keys_agree h h' t :
  (forall x, x ∈ ids t -> bindVars <$> h' !! x = bindVars <$> h !! x) ->
  old_keys h' t = old_keys h t.
Proof.
  induction t as [id kids IH] using Tree_nested_ind. intros Hag. simpl.
  f_equal.
  - specialize (Hag id ltac:(simpl; left)).
    destruct (h' !! id), (h !! id); simpl in *; congruence.
  - f_equal. apply map_ext_in. intros c Hc%list_elem_of_In.
    rewrite Forall_forall in IH. apply (IH c Hc).
    intros x Hx. apply Hag. simpl. right.
    apply elem_of_flat_map. eauto.
Qed.

(* ================================================================== *)
(** * The clauses refer to bound parameters only *)
(* ================================================================== *)

Lemma runs_at K acc name c rest st :
  Str.all name_char name = true -> acc +:+ name ∈ K ->
  name_char c = false -> is_at c = false -> runs K None rest st ->
  runs K (Some acc) (name +:+ String c rest) st.
Proof.
  intros Hn Hin Hc Ha Hrest.
  eapply runs_app; [by apply runs_word | by apply runs_end].
Qed.

(** A text that ends in the name of a parameter of [K]. *)
Definition ends_in_name (K : gset string) (s : string) : Prop :=
  exists x, x ∈ K /\ runs K None s (Some x).

Lemma runs_seal K s c rest st :
  closed K s \/ ends_in_name K s ->
  name_char c = false -> is_at c = false -> runs K None rest st ->
  runs K None (s +:+ String c rest) st.
Proof.
  intros [Hs|(x & Hx & Hs)] Hc Ha Hrest.
  - eapply runs_app; [exact Hs|].
    destruct Hrest as (o & Ho & HK). exists o. simpl. by rewrite Ha.
  - eapply runs_app; [exact Hs|]. by apply runs_end.
Qed.

Lemma ends_in_name_mono K K' s :
  K ⊆ K' -> ends_in_name K s -> ends_in_name K' s.
Proof.
  intros Hsub (x & Hx & Hs). exists x. split; [by apply Hsub|].
  by eapply runs_mono.
Qed.

Lemma clauses_closed_mono K K' b :
  K ⊆ K' -> clauses_closed K b -> clauses_closed K' b.
Proof.
  intros Hsub (H1 & H2 & H3 & H4 & H5 & H6 & H7).
  repeat split; by eapply runs_mono.
Qed.

Lemma runs_lit K st lit st1 s st2 :
  scan st lit = ([], st1) -> runs K st1 s st2 -> runs K st (lit +:+ s) st2.
Proof. intros H Hs. eapply runs_app; [by apply runs_compute|done]. Qed.

Lemma runs_name K acc name s st :
  Str.all name_char name = true ->
  runs K (Some (acc +:+ name)) s st -> runs K (Some acc) (name +:+ s) st.
Proof. intros H Hs. eapply runs_app; [by apply runs_word|done]. Qed.

Lemma runs_flush K acc c lit st1 s st2 :
  name_char c = false -> is_at c = false -> acc ∈ K ->
  scan None lit = ([], st1) -> runs K st1 s st2 ->
  runs K (Some acc) (String c lit +:+ s) st2.
Proof.
  intros Hc Ha Hacc Hlit Hs. eapply runs_app; [|exact Hs].
  apply runs_end; [done..|]. by apply runs_compute.
Qed.

Lemma runs_param K name :
  Str.all name_char name = true -> runs K None ("@" +:+ name) (Some name).
Proof. intros H. exact (runs_word K "" name H). Qed.

(** Texts without [@]. *)
Definition plain (s : string) : Prop :=
  Str.all (fun c => negb (is_at c)) s = true.

Lemma plain_app s1 s2 : plain s1 -> plain s2 -> plain (s1 +:+ s2).
Proof. unfold plain. intros H1 H2. by rewrite Str.all_app, H1, H2. Qed.

Lemma plain_closed K s : plain s -> closed K s.
Proof. apply runs_text. Qed.

Lemma identifier_plain s : Re.matches Re.identifier s -> plain s.
Proof.
  intros (c & s' & -> & Hc & Hs)%Re.identifier_inv. unfold plain.
  simpl. rewrite (word_not_at c (letter_word c Hc)). simpl.
  eapply Str.all_impl; [|done]. apply word_not_at.
Qed.

Lemma plain_join sep l : plain sep -> Forall plain l -> plain (Str.join sep l).
Proof.
  intros Hsep. induction 1 as [|x l Hx Hl IH]; [done|].
  destruct l as [|y l]; [done|].
  change (plain (x +:+ sep +:+ Str.join sep (y :: l))).
  by repeat apply plain_app.
Qed.

(** The texts of the clauses. *)
Lemma closed_selector_document K d (k : nat) :
  Re.matches Re.identifier d ->
  "@" +:+ ("collection_" +:+ pretty k) ∈ K ->
  closed K ("FOR " +:+ d +:+ " IN @@" +:+ ("collection_" +:+ pretty k) +:+ " ").
Proof.
  intros Hd Hk.
  eapply runs_lit; [reflexivity|].
  eapply runs_app; [by apply identifier_text|].
  eapply runs_lit; [reflexivity|].
  eapply runs_name; [exact (keyName_word "collection" k eq_refl)|].
  apply runs_end; [done..|apply runs_nil].
Qed.

Lemma closed_sort K d (k1 k2 : nat) :
  Re.matches Re.identifier d ->
  "sortField_" +:+ pretty k1 ∈ K -> "sortOrder_" +:+ pretty k2 ∈ K ->
  closed K ("SORT " +:+ d +:+ ".@" +:+ ("sortField_" +:+ pretty k1)
            +:+ " @" +:+ ("sortOrder_" +:+ pretty k2) +:+ " ").
Proof.
  intros Hd H1 H2.
  eapply runs_lit; [reflexivity|].
  eapply runs_app; [by apply identifier_text|].
  eapply runs_lit; [reflexivity|].
  eapply runs_name; [exact (keyName_word "sortField" k1 eq_refl)|].
  eapply runs_flush; [done..|reflexivity|].
  eapply runs_name; [exact (keyName_word "sortOrder" k2 eq_refl)|].
  apply runs_end; [done..|apply runs_nil].
Qed.

Lemma closed_limit K (k1 k2 : nat) :
  "limitByOffset_" +:+ pretty k1 ∈ K -> "limitByLimit_" +:+ pretty k2 ∈ K ->
  closed K ("LIMIT @" +:+ ("limitByOffset_" +:+ pretty k1)
            +:+ ", @" +:+ ("limitByLimit_" +:+ pretty k2) +:+ " ").
Proof.
  intros H1 H2.
  eapply runs_lit; [reflexivity|].
  eapply runs_name; [exact (keyName_word "limitByOffset" k1 eq_refl)|].
  eapply runs_flush; [done..|reflexivity|].
  eapply runs_name; [exact (keyName_word "limitByLimit" k2 eq_refl)|].
  apply runs_end; [done..|apply runs_nil].
Qed.

Lemma closed_direction K d :
  closed K (from_option Options.Direction_value "undefined" d).
Proof. destruct d as [[]|]; by apply runs_compute. Qed.

Lemma closed_selector_edge K d (k : nat) dir start edges :
  Re.matches Re.identifier d ->
  "depth_" +:+ pretty k ∈ K ->
  closed K start \/ ends_in_name K start ->
  closed K edges \/ ends_in_name K edges ->
  closed K ("FOR " +:+ d +:+ " IN 1..@" +:+ ("depth_" +:+ pretty k) +:+ " "
            +:+ from_option Options.Direction_value "undefined" dir
            +:+ " " +:+ start +:+ " " +:+ edges +:+ " ").
Proof.
  intros Hd Hk Hstart Hedges.
  eapply runs_lit; [reflexivity|].
  eapply runs_app; [by apply identifier_text|].
  eapply runs_lit; [reflexivity|].
  eapply runs_name; [exact (keyName_word "depth" k eq_refl)|].
  eapply runs_flush; [done..|reflexivity|].
  eapply runs_app; [apply closed_direction|].
  eapply runs_lit; [reflexivity|].
  apply (runs_seal K start " " (edges +:+ " ")); [done..|].
  apply (runs_seal K edges " " ""); [done..|apply runs_nil].
Qed.

Lemma closed_with K statement :
  ends_in_name K statement -> closed K ("WITH " +:+ statement +:+ " ").
Proof.
  intros H. eapply runs_lit; [reflexivity|].
  apply (runs_seal K statement " " ""); [by right|done..|apply runs_nil].
Qed.

Lemma closed_return K d names :
  Re.matches Re.identifier d -> Forall (Re.matches Re.identifier) names ->
  closed K ("MERGE(" +:+ d +:+ ", { " +:+ Str.join ", " names +:+ " })").
Proof.
  intros Hd Hn. apply plain_closed.
  apply (plain_app "MERGE("); [done|].
  apply plain_app; [by apply identifier_plain|].
  apply (plain_app ", { "); [done|].
  apply plain_app; [|done].
  apply plain_join; [done|].
  eapply Forall_impl; [done|]. apply identifier_plain.
Qed.

Lemma closed_letBinding K name first query :
  Re.matches Re.identifier name -> closed K query ->
  closed K (letBinding name first query).
Proof.
  intros Hn Hq. unfold letBinding.
  eapply runs_lit; [reflexivity|].
  eapply runs_app; [by apply identifier_text|].
  eapply runs_lit; [reflexivity|].
  apply (runs_app K _ _ None); [destruct first; by apply runs_compute|].
  eapply runs_lit; [reflexivity|].
  eapply runs_app; [exact Hq|]. by apply runs_compute.
Qed.

Lemma closed_join_empty K l :
  Forall (closed K) l -> closed K (Str.join "" l).
Proof.
  induction 1 as [|x l Hx Hl IH]; [apply runs_nil|].
  destruct l as [|y l]; [done|].
  change (closed K (x +:+ "" +:+ Str.join "" (y :: l))).
  apply closed_app; [done|]. apply (closed_app K ""); [apply runs_nil|done].
Qed.

Lemma ends_in_name_join K l :
  Forall (ends_in_name K) l -> l <> [] -> ends_in_name K (Str.join " && " l).
Proof.
  induction 1 as [|x l Hx Hl IH]; [done|]. intros _.
  destruct l as [|y l]; [done|].
  destruct (IH ltac:(done)) as (z & Hz & Hrun).
  exists z. split; [done|].
  change (runs K None (x +:+ " && " +:+ Str.join " && " (y :: l)) (Some z)).
  apply (runs_seal K x " " ("&& " +:+ Str.join " && " (y :: l)));
    [by right|done..|].
  by eapply runs_lit; [reflexivity|].
Qed.

Lemma closed_filter K l :
  Forall (ends_in_name K) l ->
  closed K ("FILTER " +:+ Str.join " && " l +:+ " ").
Proof.
  intros Hl. eapply runs_lit; [reflexivity|].
  destruct l as [|x l]; [by apply runs_compute|].
  apply (runs_seal K _ " " ""); [right|done..|apply runs_nil].
  by apply ends_in_name_join.
Qed.

Lemma closed_queryText K b : clauses_closed K b -> closed K (queryText b).
Proof.
  intros (H1 & H2 & H3 & H4 & H5 & H6 & H7). unfold queryText.
  destruct (truthy_flag _).
  - repeat first
      [ apply closed_app; [eassumption|]
      | eapply runs_lit; [reflexivity|]
      | by apply runs_compute ].
  - repeat first
      [ apply closed_app; [eassumption|]
      | eapply runs_lit; [reflexivity|]
      | eassumption ].
Qed.

Lemma comma_vars_names K0 k0 p values :
  forall k vars,
    names K0 (dom vars) k0 k ->
    names K0 (dom (comma_vars p k values vars)) k0 (k + length values).
Proof.
  induction values as [|v rest IH]; intros k vars H; simpl.
  - by rewrite Nat.add_0_r.
  - replace (k + S (length rest)) with (k + 1 + length rest) by lia.
    apply IH. rewrite dom_insert_L.
    exact (names_insert K0 (dom vars) ("@" +:+ p) k0 k H).
Qed.

Lemma comma_vars_subseteq p values k vars :
  dom vars ⊆ dom (comma_vars p k values vars).
Proof.
  eapply names_subseteq. apply (comma_vars_names _ k). apply names_refl.
Qed.

Lemma comma_vars_elem_of p values k vars i :
  i < length values ->
  "@" +:+ keyName p (k + 1 + i) ∈ dom (comma_vars p k values vars).
Proof.
  intros Hi. destruct (lookup_lt_is_Some_2 values i Hi) as [v Hv].
  apply elem_of_dom. eexists. by apply comma_vars_lookup.
Qed.

Lemma comma_statement_ends K p values :
  Str.all name_char p = true ->
  forall k statement,
    values <> [] -> closed K statement ->
    (forall i, i < length values -> "@" +:+ keyName p (k + 1 + i) ∈ K) ->
    ends_in_name K (comma_statement p k values statement).
Proof.
  intros Hp. induction values as [|v rest IH]; intros k statement Hne Hs HK;
    [done|].
  assert (runs K None (statement +:+ "@@" +:+ keyName p (k + 1))
            (Some ("@" +:+ keyName p (k + 1)))) as Hrun.
  { eapply runs_app; [exact Hs|]. eapply runs_lit; [reflexivity|].
    apply runs_word. by apply keyName_word. }
  assert ("@" +:+ keyName p (k + 1) ∈ K) as Hin.
  { specialize (HK 0 ltac:(simpl; lia)). by rewrite Nat.add_0_r in HK. }
  destruct rest as [|v' rest].
  - simpl. by exists ("@" +:+ keyName p (k + 1)).
  - cbn [comma_statement]. apply IH; [done| |].
    + eapply runs_app; [exact Hrun|]. apply runs_end; [done..|].
      by apply runs_compute.
    + intros i Hi. replace (k + 1 + 1 + i) with (k + 1 + S i) by lia.
      apply HK. simpl in *. lia.
Qed.

Lemma assigns_set_sort s : assigns (set_sort s).
Proof. by split. Qed.

Lemma assigns_set_limit s : assigns (set_limit s).
Proof. by split. Qed.

Lemma assigns_set_filter s : assigns (set_filter s).
Proof. by split. Qed.

Lemma assigns_set_selector s : assigns (set_selector s).
Proof. by split. Qed.

Lemma assigns_set_returnClause s : assigns (set_returnClause s).
Proof. by split. Qed.

Lemma assigns_set_inlineQueries s : assigns (set_inlineQueries s).
Proof. by split. Qed.

(** Reads the fields of a builder written with the setters. *)
Ltac fields :=
  cbn [variant bindVars additionalQueries withClause selector filter sort
       limit doc returnClause inlineQueries _isRootQuery _tick _parent edges
       rootDoc startingVertexId set_bindVars set_withClause set_selector
       set_filter set_sort set_limit set_returnClause set_inlineQueries
       set__tick set_edges set_rootDoc set_startingVertexId] in *.

(** The clauses other than the one just assigned stay closed when the
    keys grow. *)
Ltac clauses Hcl Hsub :=
  destruct Hcl as (? & ? & ? & ? & ? & ? & ?);
  repeat split; fields;
  try (eapply runs_mono; [exact Hsub|eassumption]).

(** The keys of a list of conditions. *)
Definition keys_of (fs : list Aql.t) : gset string :=
  ⋃ (map (fun f => dom (Aql.bindVars f)) fs).

(** [conditions ka fs k]: the conditions [fs] were made at the ticks
    [ka + 1 .. k]; their keys are the names generated at these ticks, and
    each ends in its parameter. *)
Definition conditions (ka : nat) (fs : list Aql.t) (k : nat) : Prop :=
  names ∅ (keys_of fs) ka k
  /\ Forall (fun f => ends_in_name (keys_of fs) (Aql.query f)) fs.

Lemma keys_of_app fs1 fs2 : keys_of (fs1 ++ fs2) = keys_of fs1 ∪ keys_of fs2.
Proof. unfold keys_of. by rewrite map_app, union_list_app_L. Qed.

Lemma keys_of_one f : keys_of [f] = dom (Aql.bindVars f).
Proof. unfold keys_of. simpl. by rewrite (right_id_L ∅ (∪)). Qed.

Lemma conditions_nil k : conditions k [] k.
Proof. split; [apply names_refl|constructor]. Qed.

Lemma conditions_app ka fs1 k1 fs2 k2 :
  conditions ka fs1 k1 -> conditions k1 fs2 k2 ->
  conditions ka (fs1 ++ fs2) k2.
Proof.
  intros [N1 F1] [N2 F2]. split.
  - rewrite keys_of_app, <- (left_id_L ∅ (∪) ∅). by eapply names_merge.
  - rewrite keys_of_app. apply Forall_app. split.
    + eapply Forall_impl; [exact F1|]. intros f.
      apply ends_in_name_mono. set_solver.
    + eapply Forall_impl; [exact F2|]. intros f.
      apply ends_in_name_mono. set_solver.
Qed.

Lemma alias_text x d :
  alias_ok x -> Re.matches Re.identifier d ->
  Re.matches Re.identifier (to_string (nullish_or x (JPrim (PString d)))).
Proof. by destruct x as [[[]| |]|]. Qed.

Lemma operator_text x :
  operator_ok x -> plain (to_string (nullish_or x (JPrim (PString "==")))).
Proof.
  destruct x as [[[s| | | |]| |]|]; try done. simpl. unfold operators.
  intros H. repeat (apply elem_of_cons in H as [->|H]; [done|]).
  by apply elem_of_nil in H.
Qed.

Lemma ends_leaf K alias op (k1 k2 : nat) :
  Re.matches Re.identifier alias -> plain op ->
  "path_" +:+ pretty k1 ∈ K -> "filter_" +:+ pretty k2 ∈ K ->
  ends_in_name K (alias +:+ ".@" +:+ ("path_" +:+ pretty k1) +:+ " "
                  +:+ op +:+ " @" +:+ ("filter_" +:+ pretty k2)).
Proof.
  intros Ha Hop H1 H2. exists ("filter_" +:+ pretty k2). split; [done|].
  eapply runs_app; [by apply identifier_text|].
  eapply runs_lit; [reflexivity|].
  eapply runs_name; [exact (keyName_word "path" k1 eq_refl)|].
  eapply runs_flush; [done..|reflexivity|].
  eapply runs_app; [by apply plain_closed|].
  apply (runs_param K ("filter_" +:+ pretty k2)).
  exact (keyName_word "filter" k2 eq_refl).
Qed.

Lemma dom_merged (fs : list Aql.t) : forall m : gmap string JsVal,
  dom (foldl (fun m f => m ∪ Aql.bindVars f) m fs) = dom m ∪ keys_of fs.
Proof.
  induction fs as [|f fs IH]; intros m; simpl.
  - unfold keys_of. simpl. by rewrite (right_id_L ∅ (∪)).
  - rewrite IH, dom_union_L. unfold keys_of. simpl. set_solver.
Qed.

Section Clauses.
Context (gas : nat) (this r : nat).
Context (T : list nat) (h0 : heap) (n : nat).
Context (b0 rb0 : Builder).
Context (Hb0 : h0 !! this = Some b0) (Hrb0 : h0 !! r = Some rb0).
Context (Hok : node_ok b0) (Hrd : Re.matches Re.identifier (doc rb0)).

Abbreviation here := (at_node gas this r T h0).

(** The invariant of the build steps of one builder, which started with
    the keys [K0] when the counter stood at [k0]. *)
Definition Inv (K0 : gset string) (k0 : nat) (b : Builder) (k : nat) : Prop :=
  names K0 (dom (bindVars b)) k0 k /\ settled b.

(** What is left to do after a build step. *)
Definition rest_ok {B} K0 k0 (K : unit -> M B) (Q : heap -> B -> Prop) : Prop :=
  forall h' b' k',
    here h' b' k' n -> Inv K0 k0 b' k' -> wpe (K tt) Q may_throw h'.

Lemma here_static h b k : here h b k n -> static b = static b0.
Proof.
  intros (_ & [t Ht] & _ & _ & _ & _ & _ & Hss).
  specialize (Hss this). rewrite Ht, Hb0 in Hss.
  change (Some (static b) = Some (static b0)) in Hss. congruence.
Qed.

Lemma here_doc h b k : here h b k n -> Re.matches Re.identifier (doc b).
Proof.
  intros Hst%here_static. destruct Hok as [Hd _].
  unfold static in Hst. by replace (doc b) with (doc b0) by congruence.
Qed.

Lemma wpe_Document_buildSelector {B} K0 k0 o h b k (K : unit -> M B) Q :
  here h b k n -> Inv K0 k0 b k -> rest_ok K0 k0 K Q ->
  wpe (bind (Document_buildSelector gas this o) K) Q may_throw h.
Proof.
  intros Hat [Hnames [Hcl Hroot]] HK. pose proof (here_doc _ _ _ Hat) as Hd.
  unfold Document_buildSelector. wpe_assoc.
  apply wpe_checkSafe; [intros _|done].
  wpe_assoc. eapply wpe_tick; [done|]. intros h1 Hat1.
  wpe_assoc. eapply wpe_read_this; [done|]. intros t. fields.
  wpe_assoc. eapply wpe_modify_this; [done|apply assigns_set_selector|].
  intros h2 Hat2.
  eapply wpe_setBindVar; [done|]. intros h3 Hat3.
  eapply HK; [exact Hat3|]. fields.
  assert (dom (bindVars b)
          ⊆ dom (<["@" +:+ ("collection_" +:+ pretty (k + 1))
                   := JPrim (PString (Options.documentCollection o))]>
                   (bindVars b))) as Hsub
    by (rewrite dom_insert_L; set_solver).
  split; [|split].
  - fields. rewrite dom_insert_L.
    exact (names_insert K0 _ "@collection" k0 k Hnames).
  - clauses Hcl Hsub.
    apply closed_selector_document; [done|].
    rewrite dom_insert_L. set_solver.
  - exact Hroot.
Qed.

Lemma wpe_buildSort {B} K0 k0 h b k (K : unit -> M B) Q :
  here h b k n -> Inv K0 k0 b k -> rest_ok K0 k0 K Q ->
  wpe (bind (buildSort gas this) K) Q may_throw h.
Proof.
  intros Hat [Hnames [Hcl Hroot]] HK. pose proof (here_doc _ _ _ Hat) as Hd.
  unfold buildSort. wpe_assoc. eapply wpe_read_this; [done|]. intros t.
  fields. destruct (Options.sortBy (options (variant b))) as [sortBy|].
  - wpe_assoc. eapply wpe_tick; [done|]. intros h1 Hat1.
    wpe_assoc. eapply wpe_tick; [done|]. intros h2 Hat2.
    wpe_assoc. eapply wpe_read_this; [done|]. intros t2. fields.
    wpe_assoc. eapply wpe_modify_this; [done|apply assigns_set_sort|].
    intros h3 Hat3.
    wpe_assoc. eapply wpe_setBindVar; [done|]. intros h4 Hat4.
    eapply wpe_setBindVar; [done|]. intros h5 Hat5.
    eapply HK; [exact Hat5|]. fields.
    match goal with
    | |- Inv _ _ (set_bindVars ?m _) _ =>
        assert (dom (bindVars b) ⊆ dom m) as Hsub
          by (rewrite !dom_insert_L; set_solver)
    end.
    split; [|split].
    + fields. rewrite !dom_insert_L.
      apply (names_insert _ _ "sortOrder"), (names_insert _ _ "sortField").
      exact Hnames.
    + clauses Hcl Hsub.
      apply closed_sort; [done|rewrite !dom_insert_L; set_solver..].
    + exact Hroot.
  - apply wpe_bind_ret. eapply HK; [exact Hat|]. by split.
Qed.

Lemma wpe_buildLimit {B} K0 k0 h b k (K : unit -> M B) Q :
  here h b k n -> Inv K0 k0 b k -> rest_ok K0 k0 K Q ->
  wpe (bind (buildLimit gas this) K) Q may_throw h.
Proof.
  intros Hat [Hnames [Hcl Hroot]] HK.
  unfold buildLimit. wpe_assoc. eapply wpe_read_this; [done|]. intros t.
  fields. destruct (Options.limitBy (options (variant b))) as [limitBy|].
  - wpe_assoc. eapply wpe_tick; [done|]. intros h1 Hat1.
    wpe_assoc. eapply wpe_tick; [done|]. intros h2 Hat2.
    wpe_assoc. eapply wpe_modify_this; [done|apply assigns_set_limit|].
    intros h3 Hat3.
    wpe_assoc. eapply wpe_setBindVar; [done|]. intros h4 Hat4.
    eapply wpe_setBindVar; [done|]. intros h5 Hat5.
    eapply HK; [exact Hat5|]. fields.
    match goal with
    | |- Inv _ _ (set_bindVars ?m _) _ =>
        assert (dom (bindVars b) ⊆ dom m) as Hsub
          by (rewrite !dom_insert_L; set_solver)
    end.
    split; [|split].
    + fields. rewrite !dom_insert_L.
      apply (names_insert _ _ "limitByLimit"),
        (names_insert _ _ "limitByOffset").
      exact Hnames.
    + clauses Hcl Hsub.
      apply closed_limit; rewrite !dom_insert_L; set_solver.
    + exact Hroot.
  - apply wpe_bind_ret. eapply HK; [exact Hat|]. by split.
Qed.

Lemma wpe_buildReturnClause {B} K0 k0 h b k (K : unit -> M B) Q :
  here h b k n -> Inv K0 k0 b k -> rest_ok K0 k0 K Q ->
  wpe (bind (buildReturnClause this) K) Q may_throw h.
Proof.
  intros Hat [Hnames [Hcl Hroot]] HK. pose proof (here_doc _ _ _ Hat) as Hd.
  pose proof (here_static _ _ _ Hat) as Hst.
  assert (additionalQueries b = additionalQueries b0) as Hq
    by (unfold static in Hst; congruence).
  destruct Hok as (_ & Hkids & _). rewrite <- Hq in Hkids.
  assert (dom (bindVars b) ⊆ dom (bindVars b)) as Hsub by done.
  unfold buildReturnClause. wpe_assoc. eapply wpe_read_this; [done|].
  intros t. fields.
  destruct (additionalQueries b) as [|e l] eqn:El.
  - eapply wpe_modify_this; [done|apply assigns_set_returnClause|].
    intros h1 Hat1. eapply HK; [exact Hat1|].
    split; [done|]. split; [|done].
    clauses Hcl Hsub.
    by apply identifier_text.
  - eapply wpe_modify_this; [done|apply assigns_set_returnClause|].
    intros h1 Hat1. eapply HK; [exact Hat1|].
    split; [done|]. split; [|done].
    clauses Hcl Hsub.
    apply closed_return; [done|]. by apply Forall_fmap.
Qed.

Lemma wpe_buildWithClause {B} K0 k0 h b k (K : unit -> M B) Q :
  here h b k n -> Inv K0 k0 b k ->
  (_isRootQuery b0 = true ->
   exists targets, gatherRelatedCollectionsRecursively gas this h = Ret h targets) ->
  rest_ok K0 k0 K Q ->
  wpe (bind (buildWithClause gas this) K) Q may_throw h.
Proof.
  intros Hat [Hnames [Hcl Hroot]] Hgather HK.
  pose proof (here_static _ _ _ Hat) as Hst.
  assert (_isRootQuery b = _isRootQuery b0) as Hr
    by (unfold static in Hst; congruence).
  unfold buildWithClause. wpe_assoc. eapply wpe_read_this; [done|].
  intros t. fields. rewrite Hr.
  destruct (_isRootQuery b0); [|apply wpe_bind_ret; by eapply HK].
  destruct (Hgather eq_refl) as [targets Hg].
  wpe_assoc. eapply wpe_bind_run; [exact Hg|].
  destruct targets as [|v targets'] eqn:Et; [apply wpe_bind_ret; by eapply HK|].
  rewrite <- Et. assert (targets <> []) as Hne by by rewrite Et.
  clear Et. wpe_assoc.
  eapply wpe_handleCommaSeparated; [apply identifier_target|done|].
  intros h1 Hat1.
  eapply wpe_modify_this; [done|apply assigns_set_withClause|].
  intros h2 Hat2. eapply HK; [exact Hat2|].
  pose proof (comma_vars_subseteq "target" targets k (bindVars b)) as Hsub.
  split; [|split].
  - fields. by apply comma_vars_names.
  - clauses Hcl Hsub. apply closed_with.
    apply comma_statement_ends; [done|done|apply runs_nil|].
    intros i Hi. by apply comma_vars_elem_of.
  - exact Hroot.
Qed.

Lemma wpe_Edge_buildSelector {B} K0 k0 o h b k (K : unit -> M B) Q :
  here h b k n -> Inv K0 k0 b k -> rest_ok K0 k0 K Q ->
  wpe (bind (Edge_buildSelector gas this o) K) Q may_throw h.
Proof.
  intros Hat HInv HK. unfold Edge_buildSelector.
  match goal with
  | |- wpe (bind (bind _ (fun _ => bind _ (fun _ => ?rest))) _) _ _ _ =>
      set (REST := rest)
  end.
  assert (forall h b k,
            here h b k n -> Inv K0 k0 b k ->
            closed (dom (bindVars b)) (startingVertexId b)
            \/ ends_in_name (dom (bindVars b)) (startingVertexId b) ->
            closed (dom (bindVars b)) (edges b)
            \/ ends_in_name (dom (bindVars b)) (edges b) ->
            wpe (bind REST K) Q may_throw h) as Hrest.
  { clear h b k Hat HInv. intros h b k Hat [Hnames [Hcl Hroot]] Hstart Hedges.
    pose proof (here_doc _ _ _ Hat) as Hd.
    unfold REST. wpe_assoc. eapply wpe_tick; [done|]. intros h1 Hat1.
    wpe_assoc. eapply wpe_read_this; [done|]. intros t. fields.
    wpe_assoc. eapply wpe_modify_this; [done|apply assigns_set_selector|].
    intros h2 Hat2.
    eapply wpe_setBindVar; [done|]. intros h3 Hat3.
    eapply HK; [exact Hat3|]. fields.
    match goal with
    | |- Inv _ _ (set_bindVars ?m _) _ =>
        assert (dom (bindVars b) ⊆ dom m) as Hsub
          by (rewrite !dom_insert_L; set_solver)
    end.
    split; [|split].
    - fields. rewrite dom_insert_L.
      exact (names_insert K0 _ "depth" k0 k Hnames).
    - clauses Hcl Hsub. apply closed_selector_edge.
      + done.
      + rewrite dom_insert_L. set_solver.
      + destruct Hstart as [H'|H']; [left|right].
        * by eapply runs_mono.
        * by eapply ends_in_name_mono.
      + destruct Hedges as [H'|H']; [left|right].
        * by eapply runs_mono.
        * by eapply ends_in_name_mono.
    - exact Hroot. }
  clearbody REST. destruct HInv as [Hnames [Hcl Hroot]].
  wpe_assoc. unfold buildEdges.
  set (values := match Options.edgeCollections o with
                 | Options.Many l => l
                 | Options.One s => [s]
                 end).
  wpe_assoc.
  eapply wpe_handleCommaSeparated; [apply identifier_edge|done|].
  intros h1 Hat1.
  eapply wpe_modify_this; [done|apply assigns_set_edges|]. intros h2 Hat2.
  wpe_assoc.
  pose proof (comma_vars_subseteq "edge" values k (bindVars b)) as Hsub.
  pose proof (comma_vars_names K0 k0 "edge" values k (bindVars b) Hnames)
    as Hnames1.
  assert (closed (dom (comma_vars "edge" k values (bindVars b)))
            (comma_statement "edge" k values "")
          \/ ends_in_name (dom (comma_vars "edge" k values (bindVars b)))
               (comma_statement "edge" k values "")) as Hedges.
  { destruct values as [|v values'] eqn:Ev; [left; apply runs_nil|].
    right. apply comma_statement_ends; [done|done|apply runs_nil|].
    intros i Hi. by apply comma_vars_elem_of. }
  eapply wpe_buildStartingVertexId; [exact Hat2|exact Hrb0|]. fields.
  destruct (truthy_string (Options.startingVertexId o)) as [vertex|].
  - destruct (Re.test Re.documentId vertex); [|done].
    cbv zeta. intros h3 Hat3. eapply Hrest; [exact Hat3| | |]; fields.
    + match goal with
      | |- Inv _ _ (set_bindVars ?m _) _ =>
          assert (dom (bindVars b) ⊆ dom m) as Hsub'
            by (rewrite !dom_insert_L; set_solver)
      end.
      split; [|split].
      * fields. rewrite dom_insert_L.
        exact (names_insert K0 _ "starting_vertex" k0 _ Hnames1).
      * clauses Hcl Hsub'.
      * exact Hroot.
    + right. exists ("starting_vertex_" +:+ pretty (k + length values + 1)).
      split; [rewrite dom_insert_L; set_solver|].
      apply runs_param.
      exact (keyName_word "starting_vertex" (k + length values + 1) eq_refl).
    + destruct Hedges as [H'|H']; [left|right].
      * eapply runs_mono; [|exact H']. rewrite dom_insert_L. set_solver.
      * eapply ends_in_name_mono; [|exact H']. rewrite dom_insert_L.
        set_solver.
  - destruct (String.eqb (rootDoc b) "") eqn:Hempty.
    + destruct (bool_decide (r = this)); [done|].
      intros h3 Hat3. eapply Hrest; [exact Hat3| | |]; fields.
      * split; [done|]. split; [clauses Hcl Hsub|by right].
      * left. apply closed_app; [by apply identifier_text|].
        by apply runs_compute.
      * exact Hedges.
    + intros h3 Hat3. eapply Hrest; [exact Hat3| | |]; fields.
      * split; [done|]. split; [clauses Hcl Hsub|done].
      * left. destruct Hroot as [Hroot|Hroot].
        { rewrite Hroot in Hempty. done. }
        apply closed_app; [by apply identifier_text|].
        by apply runs_compute.
      * exact Hedges.
Qed.

Lemma wpe_buildSelector {B} K0 k0 h b k (K : unit -> M B) Q :
  here h b k n -> Inv K0 k0 b k -> rest_ok K0 k0 K Q ->
  wpe (bind (buildSelector gas this) K) Q may_throw h.
Proof.
  intros Hat HInv HK. unfold buildSelector. wpe_assoc.
  eapply wpe_read_this; [done|]. intros t. fields.
  destruct (variant b) as [o|o|o|o]; try done.
  - by eapply wpe_Document_buildSelector.
  - by eapply wpe_Edge_buildSelector.
Qed.

Lemma wpe_getProperty {B} v key h (K : option JsVal -> M B) Q :
  wpe (K (own v key)) Q may_throw h ->
  wpe (bind (getProperty v key) K) Q may_throw h.
Proof. by destruct v as [[]| |]. Qed.

Lemma wpe_extractFilters_leaf {B} prevKey key v h b k (K : Aql.t -> M B) Q :
  here h b k n -> leaf_ok v ->
  (forall h' f,
     here h' b (k + 1 + 1) n -> conditions k [f] (k + 1 + 1) ->
     wpe (K f) Q may_throw h') ->
  wpe (bind (extractFilters_leaf gas this prevKey key v) K) Q may_throw h.
Proof.
  intros Hat [Halias Hop] HK. pose proof (here_doc _ _ _ Hat) as Hd.
  unfold extractFilters_leaf. wpe_assoc.
  eapply wpe_tick; [done|]. intros h1 Hat1.
  wpe_assoc. eapply wpe_tick; [done|]. intros h2 Hat2.
  wpe_assoc. apply wpe_getProperty.
  wpe_assoc. eapply wpe_read_this; [done|]. intros t. fields.
  wpe_assoc. apply wpe_getProperty.
  wpe_assoc. apply wpe_getProperty.
  apply wpe_bind_ret. apply HK; [exact Hat2|].
  unfold conditions. rewrite keys_of_one. cbn [Aql.bindVars Aql.query].
  rewrite !dom_insert_L, dom_empty_L. split.
  - apply (names_insert ∅ _ "filter"), (names_insert ∅ _ "path").
    apply names_refl.
  - constructor; [|constructor].
    apply ends_leaf; [by apply alias_text|by apply operator_text|set_solver..].
Qed.

Lemma wpe_extractFilters_loop recurse (ok : JsVal -> Prop) b l :
  Forall (fun kv =>
            forall prevKey h k Q,
              ok kv.2 -> here h b k n ->
              (forall h' fs k',
                 here h' b k' n -> conditions k fs k' -> Q h' fs) ->
              wpe (recurse kv.2 prevKey) Q may_throw h) l ->
  forall prevKey filters h k ka Q,
    filter_ok_loop ok l -> here h b k n -> conditions ka filters k ->
    (forall h' fs k', here h' b k' n -> conditions ka fs k' -> Q h' fs) ->
    wpe (extractFilters_loop recurse gas this l prevKey filters) Q may_throw h.
Proof.
  induction 1 as [|[key x] l Hx _ IH];
    intros prevKey filters h k ka Q Hl Hat Hfs HQ.
  - apply wpe_ret. by eapply HQ.
  - cbn [extractFilters_loop]. destruct Hl as [Hx' Hl].
    destruct (isFilterPrimitiveType x || isFilterProperFilterObject x).
    + eapply wpe_extractFilters_leaf; [done..|]. intros h1 f Hat1 Hf.
      eapply IH; [done..| |done]. by eapply conditions_app.
    + apply wpe_bind. eapply (Hx _ h k); [done..|].
      intros h1 fs k1 Hat1 Hfs1.
      eapply IH; [done..| |done]. by eapply conditions_app.
Qed.

Lemma wpe_extractFilters_object b v :
  forall prevKey h k Q,
    filter_ok v -> here h b k n ->
    (forall h' fs k', here h' b k' n -> conditions k fs k' -> Q h' fs) ->
    wpe (extractFilters_object gas this v prevKey) Q may_throw h.
Proof.
  induction v as [p|l|fields IH] using JsVal_nested_ind;
    intros prevKey h k Q Hok' Hat HQ.
  - apply wpe_ret. eapply HQ; [done|apply conditions_nil].
  - apply wpe_ret. eapply HQ; [done|apply conditions_nil].
  - cbn [extractFilters_object].
    eapply (wpe_extractFilters_loop _ filter_ok b fields IH);
      [exact Hok'|done|apply conditions_nil|done].
Qed.

Lemma wpe_merge_all {B} (fs : list Aql.t) :
  forall h b k (K : unit -> M B) Q E,
    here h b k n ->
    (forall h',
       here h'
         (set_bindVars
            (foldl (fun m f => m ∪ Aql.bindVars f) (bindVars b) fs) b) k n ->
       wpe (K tt) Q E h') ->
    wpe (bind (for_each fs (fun _ f => mergeBindVars this (Aql.bindVars f)) tt)
           K) Q E h.
Proof.
  induction fs as [|f fs IH]; intros h b k K Q E Hat HK.
  - apply wpe_bind_ret. apply HK. simpl. by rewrite set_bindVars_eta.
  - cbn [for_each]. wpe_assoc.
    eapply wpe_mergeBindVars; [done|]. intros h1 Hat1.
    eapply IH; [exact Hat1|]. intros h2 Hat2. by apply HK.
Qed.

Lemma wpe_buildFilter {B} K0 k0 h b k (K : unit -> M B) Q :
  here h b k n -> Inv K0 k0 b k -> rest_ok K0 k0 K Q ->
  wpe (bind (buildFilter gas this) K) Q may_throw h.
Proof.
  intros Hat [Hnames [Hcl Hroot]] HK.
  pose proof (here_static _ _ _ Hat) as Hst.
  assert (variant b = variant b0) as Hv by (unfold static in Hst; congruence).
  destruct Hok as (_ & _ & Hf). rewrite <- Hv in Hf.
  unfold buildFilter. wpe_assoc. eapply wpe_read_this; [done|]. intros t.
  fields.
  destruct (Options.filterBy (options (variant b))) as [filterBy|];
    [|apply wpe_bind_ret; by eapply HK].
  wpe_assoc. apply wpe_bind. unfold extractFilters.
  eapply wpe_extractFilters_object; [exact Hf|exact Hat|].
  intros h1 fs k1 Hat1 [Hn1 Hfs].
  wpe_assoc. eapply wpe_modify_this; [done|apply assigns_set_filter|].
  intros h2 Hat2.
  eapply wpe_merge_all; [exact Hat2|]. intros h3 Hat3.
  eapply HK; [exact Hat3|]. fields.
  assert (dom (bindVars b)
          ⊆ dom (foldl (fun m f => m ∪ Aql.bindVars f) (bindVars b) fs))
    as Hsub by (rewrite dom_merged; set_solver).
  split; [|split].
  - fields. rewrite dom_merged, <- (right_id_L ∅ (∪) K0).
    by eapply names_merge.
  - clauses Hcl Hsub. apply closed_filter. rewrite Forall_map.
    eapply Forall_impl; [exact Hfs|]. intros f.
    apply ends_in_name_mono. rewrite dom_merged. set_solver.
  - exact Hroot.
Qed.

End Clauses.

(* ================================================================== *)
(** * Preparing a whole tree *)
(* ================================================================== *)

Lemma wpe_read {B} x xb (K : Builder -> M B) Q E (h : heap) :
  h !! x = Some xb -> wpe (K xb) Q E h -> wpe (bind (read x) K) Q E h.
Proof. intros Hx HK. unfold wpe. by rewrite (bind_read _ xb). Qed.

(** Work done below [this], on the objects [T2], leaves the view of
    [this] as it was, up to the counter of the root. *)
Lemma at_node_frame gas this r T T2 h0 h h1 b k n rb' :
  at_node gas this r T h0 h b k n ->
  only_changed T2 r h h1 -> same_static h h1 -> this ∉ T2 ->
  h1 !! r = Some rb' ->
  at_node gas this r (T ++ T2) h0 h1 b (_tick rb') n.
Proof.
  intros (HT & [t Ht] & _ & Hc & Hn & Hg & Hoc & Hss) Hoc1 Hss1 Hthis Hrb'.
  split; [apply elem_of_app; by left|]. split.
  { destruct (Hoc1 this Hthis) as [_ Heq]. rewrite Ht in Heq.
    destruct (h1 !! this) as [b1|]; [|done]. simpl in Heq.
    exists (_tick b1). f_equal. apply set__tick_modulo.
    rewrite set__tick_set__tick in Heq. congruence. }
  split; [eauto|].
  split; [eapply chain_same_links; [|done]; by apply same_static_links|].
  split; [done|]. split; [done|]. split.
  - eapply only_changed_trans.
    + eapply only_changed_mono; [|exact Hoc]. intros x Hx.
      apply elem_of_app. by left.
    + eapply only_changed_mono; [|exact Hoc1]. intros x Hx.
      apply elem_of_app. by right.
  - by eapply same_static_trans.
Qed.

(** What [prepareQuery] on the tree [t] leaves: the store has changed
    inside [t] and in the counter of the root [r] only, the keys of the
    query it returns are those the tree held and one name for each tick
    of the counter since [k], and the text of the query refers to these
    keys only. *)
Definition prepared (r k : nat) (h : heap) (t : Tree) (h' : heap) (q : Aql.t)
  : Prop :=
  only_changed (ids t) r h h' /\ same_static h h'
  /\ exists rb',
       h' !! r = Some rb'
       /\ names (old_keys h t) (dom (Aql.bindVars q)) k (_tick rb')
       /\ closed (dom (Aql.bindVars q)) (Aql.query q).

(** The statement proved by induction on the nesting of the builders. *)
Definition prepares (gas fuel : nat) : Prop :=
  forall t p r n (h : heap) rb,
    valid h p t -> NoDup (ids t) -> chain h (tid t) r n ->
    (r ∈ ids t -> r = tid t) ->
    h !! r = Some rb -> Re.matches Re.identifier (doc rb) ->
    n + height t <= gas -> height t <= fuel ->
    wpe (prepareQuery gas fuel (tid t)) (prepared r (_tick rb) h t)
      may_throw h.

Section Children.
Context (gas fuel : nat) (this r n : nat) (h0 : heap) (rb0 : Builder).
Context (Hrb0 : h0 !! r = Some rb0) (Hrd : Re.matches Re.identifier (doc rb0)).
Context (k0 : nat) (IH : prepares gas fuel).

Lemma wpe_children_loop kids :
  forall l T h b k K0 queries (Q : heap -> list string -> Prop),
    l.*2 = map tid kids ->
    Forall (fun elem => Re.matches Re.identifier elem.1) l ->
    Forall (valid h0 (Some this)) kids ->
    NoDup (flat_map ids kids) ->
    (forall x, x ∈ flat_map ids kids -> (x ∉ T) /\ x <> r) ->
    (forall c, c ∈ kids -> height c <= fuel /\ S n + height c <= gas) ->
    at_node gas this r T h0 h b k n -> Inv K0 k0 b k ->
    Forall (closed (dom (bindVars b))) queries ->
    (forall h' b' k' queries',
       at_node gas this r (T ++ flat_map ids kids) h0 h' b' k' n ->
       Inv (K0 ∪ ⋃ (map (old_keys h0) kids)) k0 b' k' ->
       Forall (closed (dom (bindVars b'))) queries' ->
       Q h' queries') ->
    wpe (for_each l (buildAdditionalQueries_step (prepareQuery gas fuel) this)
           queries) Q may_throw h.
Proof.
  induction kids as [|c kids IHk];
    intros l T h b k K0 queries Q Hl Hnames Hvalid Hnd Hout Hh Hat HInv Hqs HQ.
  - destruct l; [|done]. apply wpe_ret. apply (HQ h b k queries); simpl.
    + by rewrite app_nil_r.
    + by rewrite (right_id_L ∅ (∪)).
    + done.
  - destruct l as [|[name x] l]; [done|].
    simpl in Hl. injection Hl as -> Hl.
    apply Forall_cons in Hnames as [Hname Hnames].
    apply Forall_cons in Hvalid as [Hvc Hvalid].
    cbn [flat_map] in Hnd, Hout.
    apply NoDup_app in Hnd as (Hndc & Hdisj & Hndk).
    pose proof Hat as (_ & _ & (rb & Hrb & Hk) & Hc & _ & _ & Hoc & Hss).
    assert (forall y, y ∈ ids c -> h !! y = h0 !! y) as Hagree.
    { intros y Hy. destruct (Hout y) as [HyT Hyr].
      { apply elem_of_app. by left. }
      by apply (Hoc y HyT). }
    assert (valid h (Some this) c) as Hvc' by by eapply valid_agree.
    assert (chain h (tid c) r (S n)) as Hcc.
    { destruct (valid_lookup _ _ _ Hvc') as (cb & Hcb & Hcp & Hcr).
      apply (chain_child _ _ cb this); [done..| |done].
      rewrite Hcr. by apply bool_decide_eq_false_2. }
    assert (Re.matches Re.identifier (doc rb)) as Hrbd.
    { destruct (same_static_lookup _ _ _ _ Hss Hrb0) as (rb1 & Hrb1 & Hst).
      assert (rb1 = rb) as -> by congruence.
      unfold static in Hst. by replace (doc rb) with (doc rb0) by congruence. }
    destruct (Hh c ltac:(left)) as [Hhf Hhg].
    cbn [for_each]. unfold buildAdditionalQueries_step at 1. cbn [fst snd].
    wpe_assoc. apply wpe_bind.
    eapply wpe_mono.
    { apply (IH c (Some this) r (S n) h rb); try done.
      intros Hr. destruct (Hout r) as [_ Hne]; [|done].
      apply elem_of_app. by left. }
    intros h1 inner (Hoc1 & Hss1 & rb' & Hrb' & Hn1 & Hcl1). rewrite Hk in Hn1.
    assert (this ∉ ids c) as Hthis.
    { intros Hin. destruct (Hout this) as [HT _]; [apply elem_of_app; by left|].
      apply HT. by destruct Hat as [? _]. }
    pose proof (at_node_frame _ _ _ _ _ _ _ _ _ _ _ _ Hat Hoc1 Hss1 Hthis Hrb')
      as Hat1.
    destruct (valid_lookup _ _ _ Hvc') as (cb & Hcb & _).
    destruct (same_static_lookup _ _ _ _ Hss1 Hcb) as (child & Hchild & _).
    wpe_assoc. eapply wpe_read; [exact Hchild|].
    wpe_assoc. eapply wpe_mergeBindVars; [exact Hat1|]. intros h2 Hat2.
    apply wpe_bind_ret.
    destruct HInv as [HN [Hcl Hroot]].
    assert (dom (bindVars b) ⊆ dom (bindVars b ∪ Aql.bindVars inner)) as Hsub
      by (rewrite dom_union_L; set_solver).
    eapply (IHk l (T ++ ids c) h2 _ _ (K0 ∪ old_keys h0 c));
      [done..| | |exact Hat2| | |].
    + intros y Hy. destruct (Hout y) as [HyT Hyr].
      { apply elem_of_app. by right. }
      split; [|done]. intros [?|Hyc]%elem_of_app; [done|].
      by apply (Hdisj y Hyc).
    + intros c' Hc'. apply Hh. by right.
    + split; [|split].
      * fields. rewrite dom_union_L. eapply names_merge; [exact HN|].
        erewrite <- old_keys_agree; [exact Hn1|].
        intros y Hy. by rewrite Hagree.
      * clauses Hcl Hsub.
      * exact Hroot.
    + fields. apply Forall_app. split.
      * eapply Forall_impl; [exact Hqs|]. intros q Hq. by eapply runs_mono.
      * constructor; [|constructor].
        apply closed_letBinding; [done|].
        eapply runs_mono; [|exact Hcl1]. rewrite dom_union_L. set_solver.
    + intros h' b' k' queries' Hat' HInv' Hqs'.
      apply (HQ h' b' k' queries'); [|  |done].
      * cbn [flat_map]. by rewrite app_assoc.
      * cbn [map]. rewrite union_list_cons. by rewrite (assoc_L (∪)).
Qed.

End Children.

Lemma prepareQuery_prepares gas : forall fuel, prepares gas fuel.
Proof.
  induction fuel as [|fuel IH];
    intros t p r n h rb Hv Hnd Hc Hroot Hrb Hrd Hg Hf.
  { destruct t. simpl in Hf. lia. }
  pose proof (valid_shape _ _ _ Hv) as Hshape.
  destruct t as [id kids]. cbn [tid] in *.
  inversion Hv as [? ? ? b Hb Hp Hr Hkids Hok [Hcl Hrdoc] Hall]; subst.
  cbn [height] in Hg, Hf. cbn [ids] in Hnd, Hroot.
  apply NoDup_cons in Hnd as [Hid Hndk].
  assert (1 <= gas) as Hg1 by lia.
  pose proof (at_node_start gas id r h b rb n Hb Hrb Hc ltac:(lia) Hg1) as Hat.
  assert (Inv (dom (bindVars b)) (_tick rb) b (_tick rb)) as HInv.
  { split; [apply names_refl|by split]. }
  cbn [prepareQuery]. unfold buildEverything. wpe_assoc.
  eapply (wpe_buildSelector gas id r [id] h n b rb); [done..|].
  intros h1 b1 k1 Hat1 HInv1. wpe_assoc.
  eapply (wpe_buildFilter gas id r [id] h n b); [done..|].
  intros h2 b2 k2 Hat2 HInv2. wpe_assoc.
  eapply (wpe_buildSort gas id r [id] h n b); [done..|].
  intros h3 b3 k3 Hat3 HInv3. wpe_assoc.
  eapply (wpe_buildLimit gas id r [id] h n); [done..|].
  intros h4 b4 k4 Hat4 HInv4. wpe_assoc.
  eapply (wpe_buildWithClause gas id r [id] h n b); [done..| |].
  { intros _. exists (related h4 (Node id kids)).
    apply (gatherRelatedCollectionsRecursively_tree h4 gas (Node id kids)).
    - eapply shape_same_static; [|exact Hshape].
      by destruct Hat4 as (_ & _ & _ & _ & _ & _ & _ & Hss).
    - simpl. lia. }
  intros h5 b5 k5 Hat5 HInv5. wpe_assoc.
  eapply (wpe_buildReturnClause gas id r [id] h n b); [done..|].
  intros h6 b6 k6 Hat6 HInv6.
  pose proof (here_static gas id r [id] h n b Hb _ _ _ Hat6) as Hst6.
  assert (additionalQueries b6 = additionalQueries b) as Hq6
    by (unfold static in Hst6; congruence).
  assert (forall h' b' k',
            at_node gas id r (ids (Node id kids)) h h' b' k' n ->
            Inv (old_keys h (Node id kids)) (_tick rb) b' k' ->
            wpe (do b <- read id ;; ret (Aql.mk (queryText b) (bindVars b)))
              (prepared r (_tick rb) h (Node id kids)) may_throw h') as Hend.
  { intros h' b' k' Hat' [Hn' [Hcl' _]].
    eapply wpe_read_this; [exact Hat'|]. intros t'. apply wpe_ret.
    destruct Hat' as (_ & _ & (rb' & Hrb' & Hk') & _ & _ & _ & Hoc & Hss).
    split; [done|]. split; [done|]. exists rb'. split; [done|].
    fields. rewrite Hk'. split; [done|].
    by apply (closed_queryText _ (set__tick t' b')). }
  assert (old_keys h (Node id kids)
          = dom (bindVars b) ∪ ⋃ (map (old_keys h) kids)) as Hkeys.
  { simpl. by rewrite Hb. }
  unfold buildAdditionalQueries. wpe_assoc.
  eapply wpe_read_this; [exact Hat6|]. intros t6. fields. rewrite Hq6.
  destruct (additionalQueries b) as [|e l] eqn:El.
  { destruct kids; [|done]. apply wpe_bind_ret.
    apply (Hend h6 b6 k6); [exact Hat6|].
    rewrite Hkeys. simpl. by rewrite (right_id_L ∅ (∪)). }
  rewrite <- El in *. clear El e l. wpe_assoc. apply wpe_bind.
  destruct Hok as (Hdoc & Hnames & _).
  eapply (wpe_children_loop gas fuel id r n h rb Hrb Hrd (_tick rb) IH kids
            (additionalQueries b) [id] h6 b6 k6 (dom (bindVars b)) []);
    try done.
  - intros x Hx. split.
    + intros ->%list_elem_of_singleton. done.
    + intros ->. apply Hid.
      assert (r = id) as <- by (apply Hroot; by right). done.
  - intros c Hcin. pose proof (height_kid c kids Hcin). lia.
  - intros h7 b7 k7 queries Hat7 [Hn7 [Hcl7 Hr7]] Hqs.
    eapply wpe_modify_this; [exact Hat7|apply assigns_set_inlineQueries|].
    intros h8 Hat8. eapply (Hend h8); [exact Hat8|].
    rewrite Hkeys. split; [done|]. split; [|done].
    assert (dom (bindVars b7) ⊆ dom (bindVars b7)) as Hsub by done.
    clauses Hcl7 Hsub. by apply closed_join_empty.
Qed.


(** A collection of manifests filtered by the owner of the repository,
    with the documents related to each one, sorted. *)
Definition manifest_root : Builder :=
  set_additionalQueries [("related", 1)]
    (initial
       (Document
          (Options.mkDocumentOptions
             (Options.mkQueryOptions None None
                (Some (Options.mkFilterBy
                         [("gitRepoInfo",
                           JObj [("owner", JPrim (PString "Tospaa"))])]))
                None)
             "manifest"))
       "doc").

Definition related_child : Builder :=
  set__parent (Some 0)
    (set__isRootQuery false
       (initial
          (Edge (edge_defaults
                   (Options.mkEdgeOptions
                      (Options.mkQueryOptions
                         (Some (Options.mkSortBy "foo.bar" Options.ASC))
                         None None None)
                      (Options.One "tospaa") (Options.One "afyon")
                      None None None)))
          "vertex")).

Definition manifest_with_related : heap :=
  <[1 := related_child]> (<[0 := manifest_root]> ∅).

(** A builder that was never prepared is at rest. *)
Lemma fresh_settled b :
  bindVars b = ∅ -> withClause b = "" -> selector b = "" -> filter b = "" ->
  sort b = "" -> limit b = "" -> inlineQueries b = "" -> rootDoc b = "" ->
  Re.matches Re.identifier (returnClause b) ->
  settled b.
Proof.
  intros _ Hw Hs Hf Hso Hl Hi Hr Hret. split; [|by left].
  unfold clauses_closed. rewrite Hw, Hs, Hf, Hso, Hl, Hi.
  repeat split; try apply runs_nil. by apply identifier_text.
Qed.

Lemma manifest_with_related_valid :
  valid manifest_with_related None (Node 0 [Node 1 []]).
Proof.
  eapply valid_node; [reflexivity..| | |].
  - split; [by apply Re.test_spec|]. split.
    + constructor; [by apply Re.test_spec|constructor].
    + simpl. done.
  - apply fresh_settled; try reflexivity. by apply Re.test_spec.
  - constructor; [|constructor].
    eapply valid_node; [reflexivity..| | |constructor].
    + split; [by apply Re.test_spec|]. split; [constructor|done].
    + apply fresh_settled; try reflexivity. by apply Re.test_spec.
Qed.




(* ================================================================== *)
(** * The counter of a tree *)
(* ================================================================== *)

Lemma getNextGlobalTick_chain gas x r n (h : heap) rb :
  chain h x r n -> n <= gas -> 1 <= gas -> h !! r = Some rb ->
  getNextGlobalTick gas x h
  = Ret (<[r := set__tick (_tick rb + 1) rb]> h) (_tick rb + 1).
Proof.
  intros Hx Hn Hg Hrb. unfold getNextGlobalTick, bind.
  rewrite (getTopmostParentQuery_chain _ _ _ _ _ Hx Hn Hg).
  by apply getNextTick_run.
Qed.

Lemma chain_tick (h : heap) r rb t y m :
  h !! r = Some rb -> chain h y r m -> chain (<[r := set__tick t rb]> h) y r m.
Proof.
  intros Hrb Hy. eapply chain_same_links; [|exact Hy].
  by apply (setter_same_links h r rb (set__tick t)).
Qed.

Lemma bind_tick {B} gas x r n (h : heap) rb (k : nat -> M B) :
  chain h x r n -> n <= gas -> 1 <= gas -> h !! r = Some rb ->
  bind (getNextGlobalTick gas x) k h
  = k (_tick rb + 1) (<[r := set__tick (_tick rb + 1) rb]> h).
Proof.
  intros Hx Hn Hg Hrb. unfold bind.
  by rewrite (getNextGlobalTick_chain _ _ _ _ _ _ Hx Hn Hg Hrb).
Qed.

(** X1. All the builders of one tree draw their ticks from the counter of
    its root: two calls of [getNextGlobalTick], on any two builders [x]
    and [y] whose parent chains end at the same root [r], return
    consecutive numbers, and all they change in the store is the counter
    of [r]; the counters of [x] and [y] themselves are not used. *)
Theorem getNextGlobalTick_shared_by_tree
  (gas x y r n m : nat) (h : heap) (rb : Builder) :
  chain h x r n -> chain h y r m -> n <= gas -> m <= gas -> 1 <= gas ->
  h !! r = Some rb ->
  exists h1,
    getNextGlobalTick gas x h = Ret h1 (_tick rb + 1)
    /\ getNextGlobalTick gas y h1
       = Ret (<[r := set__tick (_tick rb + 2) rb]> h) (_tick rb + 2).
Proof.
  intros Hx Hy Hn Hm Hg Hrb.
  exists (<[r := set__tick (_tick rb + 1) rb]> h). split.
  - by eapply getNextGlobalTick_chain.
  - rewrite (getNextGlobalTick_chain gas y r m _
               (set__tick (_tick rb + 1) rb));
      [|by apply chain_tick|done..|apply lookup_insert_eq].
    rewrite insert_insert_eq. cbn [_tick set__tick].
    rewrite set__tick_set__tick.
    by replace (_tick rb + 1 + 1) with (_tick rb + 2) by lia.
Qed.

Lemma getNextGlobalTick_shared_by_tree_witness :
  exists h1,
    getNextGlobalTick 1 1 parent_and_child = Ret h1 1
    /\ exists h2, getNextGlobalTick 1 0 h1 = Ret h2 2.
Proof.
  assert (chain parent_and_child 0 0 0) as H0.
  { eapply chain_root; [vm_compute; reflexivity|reflexivity..]. }
  assert (chain parent_and_child 1 0 1) as H1.
  { eapply chain_child; [vm_compute; reflexivity|reflexivity..|exact H0]. }
  destruct (getNextGlobalTick_shared_by_tree 1 1 0 0 1 0 parent_and_child
              _ H1 H0 (le_n 1) (le_S 0 0 (le_n 0)) (le_n 1) eq_refl)
    as (h1 & Hfirst & Hsecond).
  exists h1. split; [exact Hfirst|]. eexists. exact Hsecond.
Defined.

(* ================================================================== *)
(** * Builders without a selector *)
(* ================================================================== *)

(** X2. The base class and the view builder, which does not override
    [buildSelector], cannot be prepared: whatever their options and
    whatever the state of the builder, [prepareQuery] throws
    "Override this method" before anything is written to the store. *)
Theorem prepareQuery_without_selector_throws
  (gas fuel this : nat) (h : heap) (b : Builder) :
  h !! this = Some b ->
  (exists o, variant b = Base o) \/ (exists o, variant b = View o) ->
  prepareQuery gas (S fuel) this h = Throw h NotImplemented
  /\ message NotImplemented = "Override this method".
Proof.
  intros Hb Hv. split; [|reflexivity]. cbn [prepareQuery].
  unfold buildEverything, buildSelector.
  rewrite !bind_assoc, (bind_read _ b) by done.
  by destruct Hv as [[o ->]|[o ->]].
Qed.

Lemma prepareQuery_without_selector_throws_witness :
  exists h this,
    newArangoViewQueryBuilder some_document ∅ = Ret h this
    /\ prepareQuery 1 1 this h = Throw h NotImplemented.
Proof.
  eexists _, _. split; [reflexivity|].
  refine (proj1 (prepareQuery_without_selector_throws 1 0 _ _
                   (initial (View some_document) "res") _ _)).
  - vm_compute. reflexivity.
  - right. by exists some_document.
Defined.

(* ================================================================== *)
(** * Keys with dots, and entries without a value *)
(* ================================================================== *)



(** X4. A filter entry whose value is [null] or [undefined] counts as a
    primitive, so the loop reads its [@docNameToFilter], which throws a
    [TypeError].  By then the two ticks for its path and its value have
    been taken: the store the error leaves behind has the counter of the
    root two further, and nothing else changed. *)
Theorem extractFilters_nullish_entry_throws
  (gas this r n : nat) (h : heap) (rb : Builder) (key : string)
  (p : Primitive) (rest : list (string * JsVal)) (prevKey : option string) :
  chain h this r n -> n <= gas -> 1 <= gas -> h !! r = Some rb ->
  p = PNull \/ p = PUndefined ->
  extractFilters gas this ((key, JPrim p) :: rest) prevKey h
  = Throw (<[r := set__tick (_tick rb + 2) rb]> h) TypeError.
Proof.
  intros Hc Hn Hg Hrb Hp.
  unfold extractFilters. cbn [extractFilters_object extractFilters_loop].
  cbn [isFilterPrimitiveType orb]. unfold extractFilters_leaf.
  rewrite !bind_assoc.
  rewrite (bind_tick gas this r n h rb) by done. rewrite !bind_assoc.
  rewrite (bind_tick gas this r n _ (set__tick (_tick rb + 1) rb));
    [|by apply chain_tick|done..|apply lookup_insert_eq].
  rewrite insert_insert_eq. cbn [_tick set__tick].
  rewrite set__tick_set__tick.
  replace (_tick rb + 1 + 1) with (_tick rb + 2) by lia.
  by destruct Hp as [-> | ->].
Qed.

Lemma extractFilters_nullish_entry_throws_witness :
  extractFilters 1 0 [("a", JPrim PNull)] None two_documents
  = Throw (<[0 := set__tick 2 (initial (Document some_document) "doc")]>
             two_documents) TypeError.
Proof.
  apply (extractFilters_nullish_entry_throws 1 0 0 0 two_documents
           (initial (Document some_document) "doc") "a" PNull [] None).
  - eapply chain_root; [vm_compute; reflexivity|reflexivity..].
  - lia.
  - lia.
  - vm_compute. reflexivity.
  - by left.
Defined.

(* ================================================================== *)
(** * The conditions of a filter, counted *)
(* ================================================================== *)









Section Counting.
Context (gas this r n : nat) (h : heap) (rb b : Builder).
Context (Hc : chain h this r n) (Hn : n <= gas) (Hg : 1 <= gas).
Context (Hrb : h !! r = Some rb) (Hb : h !! this = Some b).











End Counting.












(* ================================================================== *)
(** * Paths *)
(* ================================================================== *)

Lemma split_nonempty sep s : Str.split sep s <> [].
Proof.
  destruct s as [|c s]; [done|]. simpl.
  destruct (Ascii.eqb c sep); [done|]. by destruct (Str.split sep s).
Qed.

Lemma join_split sep s : Str.join (String sep "") (Str.split sep s) = s.
Proof.
  induction s as [|c s IH]; [done|]. cbn [Str.split].
  pose proof (split_nonempty sep s) as Hne.
  destruct (Ascii.eqb c sep) eqn:E.
  - apply Ascii.eqb_eq in E as ->.
    rewrite join_cons by done. by rewrite IH.
  - destruct (Str.split sep s) as [|x xs]; [done|].
    destruct xs as [|y xs].
    + simpl in *. by rewrite IH.
    + rewrite join_cons by done. rewrite join_cons in IH by done.
      rewrite Str.app_cons. by rewrite IH.
Qed.

Lemma split_segments sep s :
  Forall (fun seg => Str.all (fun c => negb (Ascii.eqb c sep)) seg = true)
    (Str.split sep s).
Proof.
  induction s as [|c s IH]; [by repeat constructor|]. cbn [Str.split].
  destruct (Ascii.eqb c sep) eqn:E; [by constructor|].
  destruct (Str.split sep s) as [|x xs].
  { constructor; [simpl; by rewrite E|constructor]. }
  apply Forall_cons in IH as [Hx Hxs]. constructor; [|done].
  simpl. by rewrite E, Hx.
Qed.

(** X8. The path bound for a sort field or for the key of a filter entry
    is the array of its segments between the dots: there is at least one
    segment, no segment contains a dot, and joining the segments with
    dots gives the field back, so that nothing of the field is lost or
    reordered. *)
Theorem split_path_round_trip (s : string) :
  exists segments,
    split_path s = JArr (map PString segments)
    /\ segments <> []
    /\ Str.join "." segments = s
    /\ Forall (fun seg => Str.all (fun c => negb (Ascii.eqb c ".")) seg = true)
         segments.
Proof.
  exists (Str.split "." s). split; [done|].
  split; [apply split_nonempty|]. split; [apply join_split|].
  apply split_segments.
Qed.

(* ================================================================== *)
(** * A name taken twice *)
(* ================================================================== *)

Lemma map_set_names k v old m :
  map_get k m = Some old -> (map_set k v m).*1 = m.*1.
Proof.
  induction m as [|[k' v'] m IH]; [done|]. simpl.
  destruct (String.eqb k' k) eqn:E.
  - apply String.eqb_eq in E as ->. done.
  - intros H. rewrite !fmap_cons. f_equal. by apply IH.
Qed.

Lemma map_get_set_other k k' v m :
  k' <> k -> map_get k' (map_set k v m) = map_get k' m.
Proof.
  intros Hne. induction m as [|[k0 v0] m IH]; simpl.
  - apply String.eqb_neq in Hne. rewrite String.eqb_sym. by rewrite Hne.
  - destruct (String.eqb k0 k) eqn:E; simpl.
    + apply String.eqb_eq in E as ->.
      assert (String.eqb k k' = false) as E'
        by (apply String.eqb_neq; congruence).
      by rewrite E'.
    + by rewrite IH.
Qed.

(** X9. [additionalQueries] is a [Map]: adding a child under a name that
    is already taken puts the new child in the place of the old one.
    The names and their order stay as they were, the other names keep
    their children, and the old child is not told: it is left as it was,
    still flagged as non-root with this builder as its parent. *)
Theorem addAdditionalQuery_replaces_child
  (h : heap) (this q old : nat) (f : string) (b c : Builder) :
  h !! this = Some b -> h !! q = Some c -> Re.matches Re.identifier f ->
  f <> doc b -> map_get f (additionalQueries b) = Some old ->
  this <> q -> old <> q -> old <> this ->
  exists h' b',
    addAdditionalQuery this f q h = Ret h' this
    /\ h' !! this = Some b'
    /\ (additionalQueries b').*1 = (additionalQueries b).*1
    /\ map_get f (additionalQueries b') = Some q
    /\ (forall g, g <> f ->
          map_get g (additionalQueries b') = map_get g (additionalQueries b))
    /\ h' !! old = h !! old.
Proof.
  intros Hb Hc Hf Hne Hold Hq Hoq Hot.
  eexists _, _. split.
  { eapply (addAdditionalQuery_run h this q f b c); [done..|].
    by rewrite !lookup_insert_ne. }
  rewrite lookup_insert_eq. split; [done|]. cbn [additionalQueries].
  split; [by eapply map_set_names|]. split; [apply map_get_set|].
  split; [intros g Hg; by apply map_get_set_other|].
  by rewrite !lookup_insert_ne.
Qed.

(** A parent with a child under [inner], and a third builder. *)
Definition three_documents : heap :=
  <[2 := initial (Document other_document) "doc"]> parent_and_child.

Lemma addAdditionalQuery_replaces_child_witness :
  exists h' b' c1,
    addAdditionalQuery 0 "inner" 2 three_documents = Ret h' 0
    /\ h' !! 0 = Some b'
    /\ additionalQueries b' = [("inner", 2)]
    /\ h' !! 1 = Some c1
    /\ _parent c1 = Some 0.
Proof.
  destruct (addAdditionalQuery_replaces_child three_documents 0 2 1 "inner"
              (set_additionalQueries [("inner", 1)]
                 (initial (Document some_document) "doc"))
              (initial (Document other_document) "doc"))
    as (h' & b' & Hrun & Hb' & _ & _ & _ & Hold); try done.
  - by apply Re.test_spec.
  - exists h', b'. eexists. split; [exact Hrun|]. split; [exact Hb'|].
    split.
    + vm_compute in Hrun. injection Hrun as <-. vm_compute in Hb'.
      by injection Hb' as <-.
    + rewrite Hold. split; [reflexivity|reflexivity].
Defined.

(* ================================================================== *)
(** * What preparing leaves alone *)
(* ================================================================== *)

(** X10. However [prepareQuery] ends, by returning or by throwing, it
    has neither created nor dropped an object, and every builder has
    the class, the options, the children, the row alias, the root flag
    and the parent it had: preparing writes clauses, bind variables and
    counters only. *)
Theorem prepareQuery_keeps_the_structure
  (gas fuel this : nat) (h : heap) :
  match prepareQuery gas fuel this h with
  | Ret h' _ | Throw h' _ =>
      forall x,
        match h !! x, h' !! x with
        | Some b, Some b' =>
            variant b' = variant b
            /\ additionalQueries b' = additionalQueries b
            /\ doc b' = doc b
            /\ _isRootQuery b' = _isRootQuery b
            /\ _parent b' = _parent b
        | None, None => True
        | _, _ => False
        end
  | Diverge | Stuck => True
  end.
Proof.
  pose proof (keeps_prepareQuery gas fuel this h) as H.
  destruct (prepareQuery gas fuel this h) as [h' q|h' e| |]; try done.
  - intros x. specialize (H x).
    destruct (h !! x) as [b|], (h' !! x) as [b'|]; try done.
    simpl in H. unfold static in H. by injection H as -> -> -> -> ->.
  - intros x. specialize (H x).
    destruct (h !! x) as [b|], (h' !! x) as [b'|]; try done.
    simpl in H. unfold static in H. by injection H as -> -> -> -> ->.
Qed.

(** X11. Preparing the root of a valid tree writes to the builders of
    the tree only: every other object of the store is what it was. *)
Theorem prepareQuery_touches_only_the_tree
  (gas fuel : nat) (h h' : heap) (t : Tree) (q : Aql.t) :
  valid h None t -> NoDup (ids t) ->
  height t <= gas -> height t <= fuel ->
  prepareQuery gas fuel (tid t) h = Ret h' q ->
  forall x, x ∉ ids t -> h' !! x = h !! x.
Proof.
  intros Hv Hnd Hg Hf Hrun x Hx.
  destruct (valid_lookup _ _ _ Hv) as (rb & Hrb & Hp & Hr).
  assert (chain h (tid t) (tid t) 0) as Hc by by eapply chain_root.
  assert (Re.matches Re.identifier (doc rb)) as Hrd.
  { inversion Hv as [? ? ? b' Hb' _ _ _ [Hd _] _ _]; subst.
    simpl in Hrb. by assert (b' = rb) as -> by congruence. }
  pose proof (prepareQuery_prepares gas fuel t None (tid t) 0 h rb Hv Hnd Hc
                ltac:(done) Hrb Hrd ltac:(lia) Hf) as H.
  unfold wpe in H. rewrite Hrun in H. destruct H as (Hoc & _).
  apply (Hoc x Hx). intros ->. apply Hx. destruct t. simpl. left.
Qed.

(** The tree of [manifest_with_related], next to a builder of its own. *)
Definition with_bystander : heap :=
  <[2 := initial (Document other_document) "doc"]> manifest_with_related.

Lemma prepareQuery_touches_only_the_tree_witness :
  exists h' q,
    prepareQuery 2 2 0 with_bystander = Ret h' q
    /\ h' !! 2 = Some (initial (Document other_document) "doc").
Proof.
  assert (forall x, x ∈ ids (Node 0 [Node 1 []]) -> 2 <> x) as Hout.
  { intros x Hx <-. cbn [ids flat_map app] in Hx.
    apply elem_of_cons in Hx as [Hx|Hx]; [lia|].
    apply elem_of_cons in Hx as [Hx|Hx]; [lia|].
    by apply elem_of_nil in Hx. }
  assert (valid with_bystander None (Node 0 [Node 1 []])) as Hv.
  { eapply valid_agree; [|exact manifest_with_related_valid].
    intros x Hx. unfold with_bystander.
    apply lookup_insert_ne. by apply Hout. }
  assert (NoDup (ids (Node 0 [Node 1 []]))) as Hnd
    by (repeat constructor; set_solver).
  assert (height (Node 0 [Node 1 []]) <= 2) as Hh by (simpl; lia).
  assert (2 ∉ ids (Node 0 [Node 1 []])) as H2
    by (intros Hx; by apply (Hout 2 Hx)).
  destruct (prepareQuery 2 2 0 with_bystander) as [h' q|h' e| |] eqn:E;
    [|vm_compute in E; discriminate..].
  exists h', q. split; [reflexivity|].
  rewrite (prepareQuery_touches_only_the_tree 2 2 with_bystander h'
             (Node 0 [Node 1 []]) q Hv Hnd Hh Hh E 2 H2).
  reflexivity.
Defined.

(* ================================================================== *)
(** * Document references *)
(* ================================================================== *)

Lemma cls_inv p s : Re.matches (Re.Cls p) s -> exists c, s = String c "" /\ p c = true.
Proof. inversion 1; eauto. Qed.

Lemma seq_inv r1 r2 s :
  Re.matches (Re.Seq r1 r2) s ->
  exists s1 s2, s = s1 +:+ s2 /\ Re.matches r1 s1 /\ Re.matches r2 s2.
Proof. inversion 1; eauto. Qed.

(** X12. The pattern a starting vertex is tested against accepts exactly
    the references [collection/key] in which [collection] passes the
    identifier guard and [key] is a non-empty run of letters, digits,
    [-] and [_]: unlike the collection, the key may start with a digit
    or a dash, and there is exactly one slash. *)
Theorem documentId_is_collection_slash_key (s : string) :
  Re.test Re.documentId s = true
  <-> exists collection key,
        s = collection +:+ "/" +:+ key
        /\ Re.matches Re.identifier collection
        /\ key <> "" /\ Str.all Re.word key = true.
Proof.
  rewrite Re.test_spec. unfold Re.documentId. split.
  - intros (s1 & t1 & -> & (c & -> & Hc)%cls_inv & H)%seq_inv.
    apply seq_inv in H as (s2 & t2 & -> & H2%Re.star_cls_all & H).
    apply seq_inv in H as (s3 & t3 & -> & (x & -> & Hx)%cls_inv & H).
    apply seq_inv in H as (s4 & t4 & -> & (w & -> & Hw)%cls_inv
                           & H4%Re.star_cls_all).
    apply Ascii.eqb_eq in Hx as <-.
    exists (String c s2), (String w t4). split.
    { reflexivity. }
    split; [by apply Re.identifier_intro|]. split; [done|].
    simpl. by rewrite Hw, H4.
  - intros (collection & key & -> & Hcoll & Hne & Hkey).
    apply Re.identifier_inv in Hcoll as (c & rest & -> & Hc & Hrest).
    destruct key as [|w key]; [done|]. simpl in Hkey.
    apply andb_prop in Hkey as [Hw Hkey].
    rewrite Str.app_cons.
    apply (Re.MSeq _ _ (String c "") (rest +:+ "/" +:+ String w key));
      [by constructor|].
    apply Re.MSeq; [by apply Re.all_star_cls|].
    apply (Re.MSeq _ _ "/" (String w key)); [by constructor|].
    apply (Re.MSeq _ _ (String w "") key);
      [by constructor|by apply Re.all_star_cls].
Qed.

(* ================================================================== *)
(** * The query of a document builder on its own *)
(* ================================================================== *)

Lemma gatherRelatedCollectionsRecursively_document gas this (h : heap) b o :
  h !! this = Some b -> variant b = Document o -> additionalQueries b = [] ->
  gatherRelatedCollectionsRecursively (S gas) this h = Ret h [].
Proof.
  intros Hb Hv Hq. cbn [gatherRelatedCollectionsRecursively].
  rewrite (bind_read _ b) by done. by rewrite Hv, Hq.
Qed.

(** Reads the fields of a builder written from [initial] with the
    setters. *)
Ltac fields0 :=
  cbn [variant bindVars additionalQueries withClause selector filter sort
       limit doc returnClause inlineQueries _isRootQuery _tick _parent edges
       rootDoc startingVertexId set_bindVars set_withClause set_selector
       set_filter set_sort set_limit set_returnClause set_inlineQueries
       set__tick set_edges set_rootDoc set_startingVertexId set_doc
       set_additionalQueries set__isRootQuery set__parent initial
       options Options.document_base Options.edge_base Options.sortBy
       Options.limitBy Options.filterBy Options.withCount
       Options.documentCollection] in *.

(** X13. A document builder fresh from its constructor, with the row
    alias [d], without children and without filter: [prepareQuery]
    returns, and the query is the selector over the collection, which is
    bound under [@collection_1], followed by the sort clause when a sort
    is asked for (field path and order bound under [sortField_2] and
    [sortOrder_3]), then the limit clause when a limit is asked for
    (offset and limit bound under the next two ticks), then the
    projection of the row; with [withCount] the selector is also counted
    and both results are returned.  The collection name, the sort field,
    the order, the offset and the limit occur in the bind variables only,
    never in the text.  No other object of the store changes. *)
Theorem prepareQuery_lone_document
  (gas fuel this : nat) (h : heap) (d collection : string)
  (sortBy : option Options.SortBy) (limitBy : option Options.LimitBy)
  (withCount : option bool) :
  let o := Options.mkDocumentOptions
             (Options.mkQueryOptions sortBy limitBy None withCount)
             collection in
  h !! this = Some (set_doc d (initial (Document o) "doc")) ->
  Re.matches Re.identifier collection -> 1 <= gas ->
  let s := match sortBy with Some _ => 2 | None => 0 end in
  let selector := "FOR " +:+ d +:+ " IN @@collection_1 " in
  let sort :=
    match sortBy with
    | Some _ => "SORT " +:+ d +:+ ".@sortField_2 @sortOrder_3 "
    | None => ""
    end in
  let limit :=
    match limitBy with
    | Some _ =>
        "LIMIT @" +:+ keyName "limitByOffset" (2 + s)
        +:+ ", @" +:+ keyName "limitByLimit" (3 + s) +:+ " "
    | None => ""
    end in
  let vars0 : gmap string JsVal :=
    <["@collection_1" := JPrim (PString collection)]> ∅ in
  let vars1 :=
    match sortBy with
    | Some sb =>
        <["sortOrder_3" :=
            JPrim (PString (Options.SortOrder_value (Options.order sb)))]>
          (<["sortField_2" := split_path (Options.field sb)]> vars0)
    | None => vars0
    end in
  let vars2 :=
    match limitBy with
    | Some lb =>
        <[keyName "limitByLimit" (3 + s) := JPrim (PNumber (Options.limit lb))]>
          (<[keyName "limitByOffset" (2 + s)
             := JPrim (PNumber (Options.offset lb))]> vars1)
    | None => vars1
    end in
  let text :=
    if truthy_flag withCount then
      "LET total = FIRST(" +:+ selector
      +:+ "COLLECT WITH COUNT INTO length RETURN length) "
      +:+ "LET docs = (" +:+ selector +:+ sort +:+ limit
      +:+ "RETURN " +:+ d +:+ ") " +:+ "RETURN { docs, total }"
    else selector +:+ sort +:+ limit +:+ "RETURN " +:+ d in
  exists h',
    prepareQuery gas (S fuel) this h = Ret h' (Aql.mk text vars2)
    /\ forall x, x <> this -> h' !! x = h !! x.
Proof.
  intros o Hb Hcoll Hg s selector sort limit vars0 vars1 vars2 text.
  subst o. set (o := Options.mkDocumentOptions _ collection) in *.
  set (b := set_doc d (initial (Document o) "doc")) in *.
  assert (chain h this this 0) as Hc by by eapply chain_root.
  pose proof (at_node_start gas this this h b b 0 Hb Hb Hc ltac:(lia) Hg)
    as Hat.
  destruct (wpe_returns (prepareQuery gas (S fuel) this)
              (fun h' q =>
                 q = Aql.mk text vars2
                 /\ only_changed [this] this h h') h)
    as (h' & q & Hrun & -> & Hoc).
  2:{ exists h'. split; [done|]. intros x Hx. apply Hoc; [|done].
      by intros ->%list_elem_of_singleton. }
  cbn [prepareQuery]. unfold buildEverything. wpe_assoc.
  unfold buildSelector. wpe_assoc.
  eapply wpe_read_this; [done|]. intros t0. subst b o. fields0.
  unfold Document_buildSelector. wpe_assoc.
  apply wpe_checkSafe; [intros _|done].
  wpe_assoc. eapply wpe_tick; [done|]. intros h1 Hat1.
  wpe_assoc. eapply wpe_read_this; [done|]. intros t1. fields0.
  wpe_assoc. eapply wpe_modify_this; [done|apply assigns_set_selector|].
  intros h2 Hat2. wpe_assoc.
  eapply wpe_setBindVar; [done|]. intros h3 Hat3. fields0.
  (* the filter: none *)
  unfold buildFilter. wpe_assoc.
  eapply wpe_read_this; [done|]. intros t3. fields0.
  apply wpe_bind_ret.
  (* the sort and the limit *)
  assert (forall h4 b4 k4,
            at_node gas this this [this] h h4 b4 k4 0 ->
            (exists o', variant b4 = Document o') ->
            additionalQueries b4 = [] ->
            _isRootQuery b4 = true ->
            wpe (do _ <- (do _ <- buildWithClause gas this ;;
                          do _ <- buildReturnClause this ;;
                          buildAdditionalQueries (prepareQuery gas fuel) this) ;;
                 do b <- read this ;;
                 ret (Aql.mk (queryText b) (bindVars b)))
              (fun h' q =>
                 q = Aql.mk (queryText (set_returnClause (doc b4) b4))
                       (bindVars b4)
                 /\ only_changed [this] this h h') no_throw h4) as Hrest.
  { intros h4 b4 k4 Hat4 [o' Hv4] Hq4 Hr4.
    unfold buildWithClause. wpe_assoc.
    eapply wpe_read_this; [done|]. intros t4. fields0. rewrite Hr4.
    wpe_assoc.
    destruct Hat4 as (HT & [t Ht] & Hrest).
    assert (at_node gas this this [this] h h4 b4 k4 0) as Hat4
      by (split; [done|]; split; [eauto|done]).
    destruct gas as [|gas']; [lia|].
    eapply wpe_bind_run.
    { by eapply (gatherRelatedCollectionsRecursively_document gas' this h4
                   (set__tick t b4) o'). }
    apply wpe_bind_ret. wpe_assoc. unfold buildReturnClause. wpe_assoc.
    eapply wpe_read_this; [done|]. intros t5. fields0. rewrite Hq4.
    eapply wpe_modify_this; [done|apply assigns_set_returnClause|].
    intros h5 Hat5. wpe_assoc. unfold buildAdditionalQueries. wpe_assoc.
    eapply wpe_read_this; [done|]. intros t6. fields0. rewrite Hq4.
    apply wpe_bind_ret.
    eapply wpe_read_this; [done|]. intros t7. apply wpe_ret.
    split; [done|]. by destruct Hat5 as (_ & _ & _ & _ & _ & _ & Hoc & _). }
  unfold buildSort. wpe_assoc.
  eapply wpe_read_this; [done|]. intros t4. fields0.
  destruct sortBy as [sb|]; subst s sort vars1.
  - wpe_assoc. eapply wpe_tick; [done|]. intros h4 Hat4.
    wpe_assoc. eapply wpe_tick; [done|]. intros h5 Hat5.
    wpe_assoc. eapply wpe_read_this; [done|]. intros t5. fields0.
    wpe_assoc. eapply wpe_modify_this; [done|apply assigns_set_sort|].
    intros h6 Hat6.
    wpe_assoc. eapply wpe_setBindVar; [done|]. intros h7 Hat7.
    wpe_assoc. eapply wpe_setBindVar; [done|]. intros h8 Hat8. fields0.
    unfold buildLimit. wpe_assoc.
    eapply wpe_read_this; [done|]. intros t8. fields0.
    destruct limitBy as [lb|]; subst limit vars2.
    + wpe_assoc. eapply wpe_tick; [done|]. intros h9 Hat9.
      wpe_assoc. eapply wpe_tick; [done|]. intros h10 Hat10.
      wpe_assoc. eapply wpe_modify_this; [done|apply assigns_set_limit|].
      intros h11 Hat11.
      wpe_assoc. eapply wpe_setBindVar; [done|]. intros h12 Hat12.
      wpe_assoc. eapply wpe_setBindVar; [done|]. intros h13 Hat13. fields0.
      eapply wpe_mono; [eapply Hrest; [done|by eexists|done..]|].
      intros h' q [-> Hoc]. split; [|done].
      subst text selector vars0. unfold queryText. fields0. cbn [options].
      cbn [Options.withCount Options.document_base].
      by destruct (truthy_flag withCount).
    + apply wpe_bind_ret.
      eapply wpe_mono; [eapply Hrest; [done|by eexists|done..]|].
      intros h' q [-> Hoc]. split; [|done].
      subst text selector vars0. unfold queryText. fields0. cbn [options].
      cbn [Options.withCount Options.document_base].
      by destruct (truthy_flag withCount).
  - apply wpe_bind_ret.
    unfold buildLimit. wpe_assoc.
    eapply wpe_read_this; [done|]. intros t8. fields0.
    destruct limitBy as [lb|]; subst limit vars2.
    + wpe_assoc. eapply wpe_tick; [done|]. intros h9 Hat9.
      wpe_assoc. eapply wpe_tick; [done|]. intros h10 Hat10.
      wpe_assoc. eapply wpe_modify_this; [done|apply assigns_set_limit|].
      intros h11 Hat11.
      wpe_assoc. eapply wpe_setBindVar; [done|]. intros h12 Hat12.
      wpe_assoc. eapply wpe_setBindVar; [done|]. intros h13 Hat13. fields0.
      eapply wpe_mono; [eapply Hrest; [done|by eexists|done..]|].
      intros h' q [-> Hoc]. split; [|done].
      subst text selector vars0. unfold queryText. fields0. cbn [options].
      cbn [Options.withCount Options.document_base].
      by destruct (truthy_flag withCount).
    + apply wpe_bind_ret.
      eapply wpe_mono; [eapply Hrest; [done|by eexists|done..]|].
      intros h' q [-> Hoc]. split; [|done].
      subst text selector vars0. unfold queryText. fields0. cbn [options].
      cbn [Options.withCount Options.document_base].
      by destruct (truthy_flag withCount).
Qed.

(** The builder [getDocumentsWithCount] makes for the collection
    [manifest], as in the repository's test. *)
Definition counted_manifest : heap :=
  <[0 := initial
           (Document
              (Options.mkDocumentOptions
                 (Options.mkQueryOptions None None None (Some true))
                 "manifest"))
           "doc"]> ∅.

Lemma prepareQuery_lone_document_witness :
  exists h',
    prepareQuery 1 1 0 counted_manifest
    = Ret h'
        (Aql.mk
           ("LET total = FIRST(FOR doc IN @@collection_1 "
            +:+ "COLLECT WITH COUNT INTO length RETURN length) "
            +:+ "LET docs = (FOR doc IN @@collection_1 RETURN doc) "
            +:+ "RETURN { docs, total }")
           (<["@collection_1" := JPrim (PString "manifest")]> ∅)).
Proof.
  destruct (prepareQuery_lone_document 1 0 0 counted_manifest "doc" "manifest"
              None None (Some true)) as (h' & Hrun & _).
  - reflexivity.
  - by apply Re.test_spec.
  - lia.
  - exists h'. exact Hrun.
Defined.

(* ================================================================== *)
(** * [ArangoDBProvider]: the queries it sends ([index.ts])

    The methods of the provider that go through the builders, or that
    write their query by hand, up to the point where the query is handed
    to [executeRawQuery] or [executeRawQueryReturnFirst].  The database
    and the logger are not part of this development. *)
(* ================================================================== *)

Module Provider.

(** [options.withCount = true] *)
Definition with_count (o : Options.ArangoQueryOptions)
  : Options.ArangoQueryOptions :=
  Options.mkQueryOptions (Options.sortBy o) (Options.limitBy o)
    (Options.filterBy o) (Some true).

(** [getDocuments]: the query of
    [new ArangoDocumentQueryBuilder(options).prepareQuery()]. *)
Definition getDocuments_query (gas fuel : nat)
  (options : Options.ArangoDocumentQueryOptions) : M Aql.t :=
  do builder <- newArangoDocumentQueryBuilder options ;;
  prepareQuery gas fuel builder.

(** [getDocumentsWithCount] *)
Definition getDocumentsWithCount_query (gas fuel : nat)
  (options : Options.ArangoDocumentQueryOptions) : M Aql.t :=
  let options :=
    Options.mkDocumentOptions (with_count (Options.document_base options))
      (Options.documentCollection options) in
  do builder <- newArangoDocumentQueryBuilder options ;;
  prepareQuery gas fuel builder.

(** The builder of [getDocumentWithRelatedDocuments] and of
    [getDocumentWithRelatedDocumentsWithCount]: the receiver of the chain
    of calls is evaluated before the argument of [addAdditionalQuery]. *)
Definition related_builder (collectionName rootDocId : string)
  (options : Options.ArangoEdgeQueryOptions) : M oid :=
  let rootDoc := "rootDoc" in
  do document <- newArangoDocumentQueryBuilder
    (Options.mkDocumentOptions
       (Options.mkQueryOptions None None
          (Some (Options.mkFilterBy [("_key", JPrim (PString rootDocId))]))
          None)
       collectionName) ;;
  do document <- setDocSelector document rootDoc ;;
  do edge <- newArangoEdgeQueryBuilder options ;;
  do edge <- setRootDocSelector edge rootDoc ;;
  addAdditionalQuery document "related" edge.

(** [getDocumentWithRelatedDocuments] *)
Definition getDocumentWithRelatedDocuments_query (gas fuel : nat)
  (collectionName rootDocId : string)
  (options : Options.ArangoEdgeQueryOptions) : M Aql.t :=
  do builder <- related_builder collectionName rootDocId options ;;
  prepareQuery gas fuel builder.

(** [getDocumentWithRelatedDocumentsWithCount]: the count is asked of the
    edge builder. *)
Definition getDocumentWithRelatedDocumentsWithCount_query (gas fuel : nat)
  (collectionName rootDocId : string)
  (options : Options.ArangoEdgeQueryOptions) : M Aql.t :=
  let options :=
    Options.mkEdgeOptions (with_count (Options.edge_base options))
      (Options.edgeCollections options) (Options.relatedCollections options)
      (Options.startingVertexId options) (Options.depth options)
      (Options.direction options) in
  do builder <- related_builder collectionName rootDocId options ;;
  prepareQuery gas fuel builder.

(** The line break of the two template literals below. *)
Definition nl : string := String (ascii_of_nat 10) "".

(** [inputArgs] of [addToCollectionWithRelatedDocument]. *)
Record RootAndRelated : Type := mkRootAndRelated {
  rootDocCollectionName : string;
  rootDoc : JsVal;
  edgeCollectionName : string;
  relatedCollectionName : string;
  relatedDoc : JsVal;
  additionalLinkData : option JsVal
}.

(** [addToCollectionWithRelatedDocument] *)
Definition addToCollectionWithRelatedDocument_query (inputArgs : RootAndRelated)
  : Aql.t :=
  Aql.mk
    ("LET rootDoc = FIRST(INSERT @rootDoc INTO @@rootDocCollectionName RETURN NEW)"
     +:+ nl
     +:+ "      LET related = FIRST(INSERT @relatedDoc INTO @@relatedCollectionName RETURN NEW)"
     +:+ nl +:+ "      INSERT MERGE({"
     +:+ nl +:+ "        _from: rootDoc._id,"
     +:+ nl +:+ "        _to: related._id,"
     +:+ nl +:+ "        _key: UUID()"
     +:+ nl +:+ "      }, @additionalLinkData) into @@edgeCollectionName"
     +:+ nl +:+ "      RETURN { rootDoc, related }")
    (<["additionalLinkData"
       := nullish_or (additionalLinkData inputArgs) (JObj [])]>
       (<["relatedDoc" := relatedDoc inputArgs]>
          (<["rootDoc" := rootDoc inputArgs]>
             (<["@edgeCollectionName"
                := JPrim (PString (edgeCollectionName inputArgs))]>
                (<["@relatedCollectionName"
                   := JPrim (PString (relatedCollectionName inputArgs))]>
                   (<["@rootDocCollectionName"
                      := JPrim (PString (rootDocCollectionName inputArgs))]>
                      ∅)))))).

(** [inputArgs] of [addRelatedDocument]. *)
Record Related : Type := mkRelated {
  related_rootDocCollectionName : string;
  related_rootDocId : string;
  related_edgeCollectionName : string;
  related_relatedCollectionName : string;
  related_relatedDoc : JsVal;
  related_additionalLinkData : option JsVal
}.

(** [addRelatedDocument] *)
Definition addRelatedDocument_query (inputArgs : Related) : Aql.t :=
  Aql.mk
    ("LET related = FIRST(INSERT @relatedDoc INTO @@relatedCollectionName RETURN NEW)"
     +:+ nl +:+ "      INSERT MERGE({"
     +:+ nl +:+ "        _from: @fromId,"
     +:+ nl +:+ "        _to: related._id,"
     +:+ nl +:+ "        _key: UUID()"
     +:+ nl +:+ "      }, @additionalLinkData) into @@edgeCollectionName"
     +:+ nl +:+ "      RETURN related")
    (<["additionalLinkData"
       := nullish_or (related_additionalLinkData inputArgs) (JObj [])]>
       (<["relatedDoc" := related_relatedDoc inputArgs]>
          (<["fromId"
             := JPrim (PString (related_rootDocCollectionName inputArgs
                                +:+ "/" +:+ related_rootDocId inputArgs))]>
             (<["@edgeCollectionName"
                := JPrim (PString (related_edgeCollectionName inputArgs))]>
                (<["@relatedCollectionName"
                   := JPrim (PString (related_relatedCollectionName inputArgs))]>
                   ∅))))).

(** The expectations of the repository's tests of the provider. *)
Example getDocuments_test :
  exists h,
    getDocuments_query 1 1
      (Options.mkDocumentOptions
         (Options.mkQueryOptions
            (Some (Options.mkSortBy "manifest.discoveryPort.createdDateTime"
                     Options.DESC))
            (Some (Options.mkLimitBy 0 1))
            (Some (Options.mkFilterBy
                     [("gitRepoInfo", JObj [("owner", JPrim (PString "Tospaa"))]);
                      ("status", JPrim (PString "InTest"))]))
            None)
         "manifest") ∅
    = Ret h
        (Aql.mk
           ("FOR doc IN @@collection_1 "
            +:+ "FILTER doc.@path_2 == @filter_3 && doc.@path_4 == @filter_5 "
            +:+ "SORT doc.@sortField_6 @sortOrder_7 "
            +:+ "LIMIT @limitByOffset_8, @limitByLimit_9 RETURN doc")
           (list_to_map
              [("@collection_1", JPrim (PString "manifest"));
               ("filter_3", JPrim (PString "Tospaa"));
               ("filter_5", JPrim (PString "InTest"));
               ("limitByLimit_9", JPrim (PNumber 1));
               ("limitByOffset_8", JPrim (PNumber 0));
               ("path_2", JArr [PString "gitRepoInfo"; PString "owner"]);
               ("path_4", JArr [PString "gitRepoInfo"; PString "status"]);
               ("sortField_6",
                JArr [PString "manifest"; PString "discoveryPort";
                      PString "createdDateTime"]);
               ("sortOrder_7", JPrim (PString "DESC"))])).
Proof. eexists. vm_compute. reflexivity. Qed.

(** X14. [getDocumentWithRelatedDocuments] on a collection name that
    passes the guard, with one edge collection, one related collection
    that is not the empty string and no other option but [depth] and
    [direction]: the query is the root document filtered by its [_key],
    merged with the vertices reached from [rootDoc._id], and the six bind
    variables carry the two collection names, the edge collection, the
    depth (1 when not given), the key and the path [_key]. *)
Theorem getDocumentWithRelatedDocuments_query_text (gas fuel : nat)
  (collectionName rootDocId e r : string)
  (depth : option Z) (direction : option Options.Direction) :
  Re.matches Re.identifier collectionName -> r <> "" ->
  2 <= gas -> 2 <= fuel ->
  exists h,
    getDocumentWithRelatedDocuments_query gas fuel collectionName rootDocId
      (Options.mkEdgeOptions Options.no_options (Options.One e)
         (Options.One r) None depth direction) ∅
    = Ret h
        (Aql.mk
           ("WITH @@target_4 FOR rootDoc IN @@collection_1 "
            +:+ "FILTER rootDoc.@path_2 == @filter_3 "
            +:+ "LET related = (FOR vertex IN 1..@depth_6 "
            +:+ Options.Direction_value (default Options.Any direction)
            +:+ " rootDoc._id @@edge_5 RETURN vertex) "
            +:+ "RETURN MERGE(rootDoc, { related })")
           (list_to_map
              [("@collection_1", JPrim (PString collectionName));
               ("@edge_5", JPrim (PString e));
               ("@target_4", JPrim (PString r));
               ("depth_6", JPrim (PNumber (default 1%Z depth)));
               ("filter_3", JPrim (PString rootDocId));
               ("path_2", JArr [PString "_key"])])).
Proof.
  intros Hc Hr Hg Hf.
  destruct gas as [|[|gas]]; [lia..|]. destruct fuel as [|[|fuel]]; [lia..|].
  destruct r as [|c r]; [done|].
  destruct direction as [[]|].
  all: unfold getDocumentWithRelatedDocuments_query.
  all: eexists; unfold bind at 1.
  all: match goal with
       | |- context [related_builder ?a ?b ?o ∅] =>
           destruct (related_builder a b o ∅) as [h0 builder|h0 err| |] eqn:E;
           vm_compute in E; try discriminate E
       end.
  all: injection E as <- <-.
  all: cbn [prepareQuery]; unfold buildEverything, buildSelector.
  all: rewrite !bind_assoc; unfold bind at 1, read at 1.
  all: match goal with
       | |- context [?m !! 0] =>
           let x := eval vm_compute in (m !! 0) in change (m !! 0) with x
       end.
  all: cbv beta iota delta [variant]; unfold Document_buildSelector at 1.
  all: rewrite !bind_assoc; cbv beta iota delta [Options.documentCollection].
  all: rewrite bind_checkSafe_matches by done.
  all: vm_compute; reflexivity.
Qed.

(** The expectation of the repository's test of
    [getDocumentWithRelatedDocuments]. *)
Lemma getDocumentWithRelatedDocuments_query_text_witness :
  exists h,
    getDocumentWithRelatedDocuments_query 2 2 "collection" "id"
      (Options.mkEdgeOptions Options.no_options
         (Options.One "edge_collection") (Options.One "related_collection")
         None None None) ∅
    = Ret h
        (Aql.mk
           ("WITH @@target_4 FOR rootDoc IN @@collection_1 "
            +:+ "FILTER rootDoc.@path_2 == @filter_3 "
            +:+ "LET related = (FOR vertex IN 1..@depth_6 ANY rootDoc._id "
            +:+ "@@edge_5 RETURN vertex) RETURN MERGE(rootDoc, { related })")
           (list_to_map
              [("@collection_1", JPrim (PString "collection"));
               ("@edge_5", JPrim (PString "edge_collection"));
               ("@target_4", JPrim (PString "related_collection"));
               ("depth_6", JPrim (PNumber 1));
               ("filter_3", JPrim (PString "id"));
               ("path_2", JArr [PString "_key"])])).
Proof.
  apply (getDocumentWithRelatedDocuments_query_text 2 2 "collection" "id"
           "edge_collection" "related_collection" None None).
  - by apply Re.test_spec.
  - discriminate.
  - lia.
  - lia.
Defined.

Example getDocumentWithRelatedDocumentsWithCount_test :
  exists h,
    getDocumentWithRelatedDocumentsWithCount_query 2 2 "collection" "id"
      (Options.mkEdgeOptions Options.no_options
         (Options.Many ["edge_collection"; "other_edge_collection"])
         (Options.Many ["related_collection"; "other_related_collection"])
         None None None) ∅
    = Ret h
        (Aql.mk
           ("WITH @@target_4, @@target_5 FOR rootDoc IN @@collection_1 "
            +:+ "FILTER rootDoc.@path_2 == @filter_3 "
            +:+ "LET related = FIRST(LET total = FIRST("
            +:+ "FOR vertex IN 1..@depth_8 ANY rootDoc._id @@edge_6, @@edge_7 "
            +:+ "COLLECT WITH COUNT INTO length RETURN length) "
            +:+ "LET docs = ("
            +:+ "FOR vertex IN 1..@depth_8 ANY rootDoc._id @@edge_6, @@edge_7 "
            +:+ "RETURN vertex) RETURN { docs, total }) "
            +:+ "RETURN MERGE(rootDoc, { related })")
           (list_to_map
              [("@collection_1", JPrim (PString "collection"));
               ("@edge_6", JPrim (PString "edge_collection"));
               ("@edge_7", JPrim (PString "other_edge_collection"));
               ("@target_4", JPrim (PString "related_collection"));
               ("@target_5", JPrim (PString "other_related_collection"));
               ("depth_8", JPrim (PNumber 1));
               ("filter_3", JPrim (PString "id"));
               ("path_2", JArr [PString "_key"])])).
Proof. eexists. vm_compute. reflexivity. Qed.

(** X15. The two hand-written queries are sent with exactly the bind
    variables their text refers to: each parameter of the text has a
    value, and no value is sent that the text does not use, whatever the
    arguments are. *)
Theorem raw_queries_bind_their_parameters
  (inputArgs : RootAndRelated) (inputArgs' : Related) :
  list_to_set
    (placeholders (Aql.query (addToCollectionWithRelatedDocument_query inputArgs)))
  = dom (Aql.bindVars (addToCollectionWithRelatedDocument_query inputArgs))
  /\ list_to_set
       (placeholders (Aql.query (addRelatedDocument_query inputArgs')))
     = dom (Aql.bindVars (addRelatedDocument_query inputArgs')).
Proof. split; apply (bool_decide_unpack _); by vm_compute. Qed.

End Provider.

(* ================================================================== *)
(** * What preparing only adds *)
(* ================================================================== *)

(** [grown b b']: [b'] has a value for each key of the bind variables of
    [b], and its counter is not behind the one of [b]. *)
Definition grown (b b' : Builder) : Prop :=
  dom (bindVars b) ⊆ dom (bindVars b') /\ _tick b <= _tick b'.

Definition grown_store (h h' : heap) : Prop :=
  forall x b, h !! x = Some b -> exists b', h' !! x = Some b' /\ grown b b'.

(** [grows m]: however [m] ends, no object is gone, no key of the bind
    variables of an object is gone, and no counter has gone back. *)
Definition grows {A} (m : M A) : Prop :=
  forall h,
    match m h with
    | Ret h' _ | Throw h' _ => grown_store h h'
    | Diverge | Stuck => True
    end.

Lemma grown_refl b : grown b b.
Proof. by split. Qed.

Lemma grown_trans b1 b2 b3 : grown b1 b2 -> grown b2 b3 -> grown b1 b3.
Proof. intros [H1 H2] [H3 H4]. split; [by etrans|lia]. Qed.

Lemma grown_store_refl h : grown_store h h.
Proof. intros x b Hb. exists b. split; [done|apply grown_refl]. Qed.

Lemma grown_store_trans h1 h2 h3 :
  grown_store h1 h2 -> grown_store h2 h3 -> grown_store h1 h3.
Proof.
  intros H1 H2 x b Hb. destruct (H1 x b Hb) as (b2 & Hb2 & Hg).
  destruct (H2 x b2 Hb2) as (b3 & Hb3 & Hg'). exists b3.
  split; [done|by eapply grown_trans].
Qed.

Lemma grows_ret {A} (a : A) : grows (ret a).
Proof. intros h. apply grown_store_refl. Qed.

Lemma grows_throw {A} e : grows (@throw A e).
Proof. intros h. apply grown_store_refl. Qed.

Lemma grows_diverge {A} : grows (@diverge A).
Proof. by intros h. Qed.

Lemma grows_read this : grows (read this).
Proof.
  intros h. unfold read. destruct (h !! this); [apply grown_store_refl|done].
Qed.

Lemma grows_modify this f : (forall b, grown b (f b)) -> grows (modify this f).
Proof.
  intros Hf h. unfold modify. destruct (h !! this) as [b|] eqn:Hb; [|done].
  intros x bx Hx. destruct (decide (x = this)) as [->|Hne].
  - rewrite lookup_insert_eq. exists (f b). split; [done|].
    rewrite Hb in Hx. injection Hx as <-. apply Hf.
  - rewrite lookup_insert_ne by done. exists bx. split; [done|apply grown_refl].
Qed.

Lemma grows_bind {A B} (m : M A) (k : A -> M B) :
  grows m -> (forall a, grows (k a)) -> grows (bind m k).
Proof.
  intros Hm Hk h. unfold bind. specialize (Hm h).
  destruct (m h) as [h' a|h' e| |]; try done.
  specialize (Hk a h'). destruct (k a h'); try done;
    by eapply grown_store_trans.
Qed.

Lemma grows_for_each {A S} (l : list A) (body : S -> A -> M S) acc :
  (forall acc x, x ∈ l -> grows (body acc x)) -> grows (for_each l body acc).
Proof.
  revert acc. induction l as [|x l IH]; intros acc Hbody; simpl.
  - apply grows_ret.
  - apply grows_bind; [apply Hbody; left|].
    intros acc'. apply IH. intros ? ? ?. apply Hbody. by right.
Qed.

Lemma grows_checkSafe phrase : grows (checkSafe phrase).
Proof.
  unfold checkSafe. destruct (Re.test _ _); [apply grows_ret|apply grows_throw].
Qed.

Lemma grows_setBindVar this key value : grows (setBindVar this key value).
Proof.
  apply grows_modify. intros b. split; [|done].
  cbn. rewrite dom_insert_L. apply union_subseteq_r.
Qed.

Lemma grows_mergeBindVars this vars : grows (mergeBindVars this vars).
Proof.
  apply grows_modify. intros b. split; [|done].
  cbn. rewrite dom_union_L. apply union_subseteq_l.
Qed.

Lemma grows_getNextTick this : grows (getNextTick this).
Proof.
  unfold getNextTick. apply grows_bind; [|intros _].
  - apply grows_modify. intros b. split; [done|cbn; lia].
  - apply grows_bind; [apply grows_read|intros b; apply grows_ret].
Qed.

Create HintDb grows.
#[local] Hint Resolve grows_ret grows_throw grows_diverge grows_read
  grows_checkSafe grows_setBindVar grows_mergeBindVars grows_getNextTick
  : grows.

(** Takes a computation apart along its binds and case distinctions; an
    assignment to a clause leaves bind variables and counter alone. *)
Ltac grows_step :=
  match goal with
  | |- grows (bind _ _) => apply grows_bind; [|intros ?]
  | |- grows (modify _ _) =>
      apply grows_modify; intros ?; split; reflexivity
  | |- grows (for_each _ _ _) => apply grows_for_each; intros ? ? ?
  | |- grows (match ?x with _ => _ end) => destruct x
  | |- grows (let _ := _ in _) => cbv zeta
  | |- grows _ => solve [auto with grows]
  end.
Ltac grows := repeat grows_step.

Lemma grows_getTopmostParentQuery_loop gas p :
  grows (getTopmostParentQuery_loop gas p).
Proof.
  revert p. induction gas as [|gas IH]; intros p; simpl.
  - apply grows_diverge.
  - unfold getParentQuery, isRootQuery. grows.
Qed.
#[local] Hint Resolve grows_getTopmostParentQuery_loop : grows.

Lemma grows_getTopmostParentQuery gas this :
  grows (getTopmostParentQuery gas this).
Proof. unfold getTopmostParentQuery, isRootQuery. grows. Qed.
#[local] Hint Resolve grows_getTopmostParentQuery : grows.

Lemma grows_getNextGlobalTick gas this : grows (getNextGlobalTick gas this).
Proof. unfold getNextGlobalTick. grows. Qed.

Lemma grows_getProperty v key : grows (getProperty v key).
Proof. unfold getProperty. grows. Qed.
#[local] Hint Resolve grows_getNextGlobalTick grows_getProperty : grows.

Lemma grows_extractFilters_leaf gas this prevKey key v :
  grows (extractFilters_leaf gas this prevKey key v).
Proof. unfold extractFilters_leaf. grows. Qed.
#[local] Hint Resolve grows_extractFilters_leaf : grows.

Lemma grows_extractFilters_loop recurse gas this l :
  Forall (fun kv => forall prevKey, grows (recurse kv.2 prevKey)) l ->
  forall prevKey filters,
    grows (extractFilters_loop recurse gas this l prevKey filters).
Proof.
  induction 1 as [|[key x] l Hx _ IH]; intros prevKey filters; simpl.
  - apply grows_ret.
  - destruct (_ || _); grows.
Qed.

Lemma grows_extractFilters_object gas this v :
  forall prevKey, grows (extractFilters_object gas this v prevKey).
Proof.
  induction v as [p|l|fields IH] using JsVal_nested_ind; intros prevKey;
    simpl; try apply grows_ret.
  by apply grows_extractFilters_loop.
Qed.

Lemma grows_extractFilters gas this filter prevKey :
  grows (extractFilters gas this filter prevKey).
Proof. apply grows_extractFilters_object. Qed.
#[local] Hint Resolve grows_extractFilters : grows.

Lemma grows_handleCommaSeparated_loop gas this keyNameInput values :
  forall statement,
    grows (handleCommaSeparated_loop gas this keyNameInput values statement).
Proof.
  induction values as [|v values IH]; intros statement; simpl; grows.
Qed.
#[local] Hint Resolve grows_handleCommaSeparated_loop : grows.

Lemma grows_handleCommaSeparated gas this values keyNameInput :
  grows (handleCommaSeparated gas this values keyNameInput).
Proof. unfold handleCommaSeparated. grows. Qed.
#[local] Hint Resolve grows_handleCommaSeparated : grows.

Lemma grows_gatherRelatedCollectionsRecursively gas :
  forall this, grows (gatherRelatedCollectionsRecursively gas this).
Proof.
  induction gas as [|gas IH]; intros this; simpl; grows.
Qed.
#[local] Hint Resolve grows_gatherRelatedCollectionsRecursively : grows.

Lemma grows_buildFilter gas this : grows (buildFilter gas this).
Proof. unfold buildFilter. grows. Qed.

Lemma grows_buildSort gas this : grows (buildSort gas this).
Proof. unfold buildSort. grows. Qed.

Lemma grows_buildLimit gas this : grows (buildLimit gas this).
Proof. unfold buildLimit. grows. Qed.

Lemma grows_buildWithClause gas this : grows (buildWithClause gas this).
Proof. unfold buildWithClause. grows. Qed.

Lemma grows_buildReturnClause this : grows (buildReturnClause this).
Proof. unfold buildReturnClause. grows. Qed.

Lemma grows_buildSelector gas this : grows (buildSelector gas this).
Proof.
  unfold buildSelector, Document_buildSelector, Edge_buildSelector,
    buildEdges, buildStartingVertexId, getDocSelector.
  grows.
Qed.
#[local] Hint Resolve grows_buildFilter grows_buildSort grows_buildLimit
  grows_buildWithClause grows_buildReturnClause grows_buildSelector : grows.

Lemma grows_buildAdditionalQueries prepare this :
  (forall x, grows (prepare x)) -> grows (buildAdditionalQueries prepare this).
Proof.
  intros Hp. unfold buildAdditionalQueries, buildAdditionalQueries_step.
  grows.
Qed.

Lemma grows_prepareQuery gas fuel :
  forall this, grows (prepareQuery gas fuel this).
Proof.
  induction fuel as [|fuel IH]; intros this; simpl; [apply grows_diverge|].
  unfold buildEverything. grows.
  by apply grows_buildAdditionalQueries.
Qed.

(** The bind variables [prepareQuery] returns are those of the builder. *)
Lemma prepareQuery_returns_bindVars gas fuel this (h h' : heap) q :
  prepareQuery gas fuel this h = Ret h' q ->
  exists b, h' !! this = Some b /\ Aql.bindVars q = bindVars b.
Proof.
  destruct fuel as [|fuel]; [done|]. cbn [prepareQuery]. unfold bind at 1.
  destruct (buildEverything _ _ _ h) as [h1 []|h1 e| |]; try done.
  unfold bind, read. destruct (h1 !! this) as [b|] eqn:Hb; [|done].
  unfold ret. intros [= <- <-]. by exists b.
Qed.

(** X16. However [prepareQuery] ends, by returning or by throwing, every
    builder of the store still has a value for each key its bind
    variables had, and no counter has gone back: preparing adds bind
    variables and never resets them. *)
Theorem prepareQuery_only_adds_bind_variables
  (gas fuel this : nat) (h : heap) :
  match prepareQuery gas fuel this h with
  | Ret h' _ | Throw h' _ =>
      forall x b, h !! x = Some b ->
        exists b', h' !! x = Some b'
          /\ dom (bindVars b) ⊆ dom (bindVars b')
          /\ _tick b <= _tick b'
  | Diverge | Stuck => True
  end.
Proof.
  pose proof (grows_prepareQuery gas fuel this h) as H.
  destruct (prepareQuery gas fuel this h) as [h' q|h' e| |]; try done.
Qed.

(** X17. A builder that is prepared again returns the bind variables of
    the call before together with the new ones: each key of the first
    result is a key of the second, also when the text of the second
    result no longer refers to it. *)
Theorem prepareQuery_again_keeps_earlier_bind_variables
  (gas fuel gas' fuel' this : nat) (h h1 h2 : heap) (q1 q2 : Aql.t) :
  prepareQuery gas fuel this h = Ret h1 q1 ->
  prepareQuery gas' fuel' this h1 = Ret h2 q2 ->
  dom (Aql.bindVars q1) ⊆ dom (Aql.bindVars q2).
Proof.
  intros H1 H2.
  destruct (prepareQuery_returns_bindVars _ _ _ _ _ _ H1) as (b1 & Hb1 & ->).
  destruct (prepareQuery_returns_bindVars _ _ _ _ _ _ H2) as (b2 & Hb2 & ->).
  pose proof (grows_prepareQuery gas' fuel' this h1) as Hg. rewrite H2 in Hg.
  destruct (Hg this b1 Hb1) as (b2' & Hb2' & Hsub & _).
  rewrite Hb2 in Hb2'. by injection Hb2' as <-.
Qed.

(** The builder of a query over [manifest], prepared twice: the second
    text refers to [@@collection_2] only, and [@collection_1] is still
    sent with it. *)
Definition manifest_only : heap :=
  {[ 0 := initial
            (Document (Options.mkDocumentOptions Options.no_options "manifest"))
            "doc" ]}.

Definition manifest_once : heap :=
  match prepareQuery 1 1 0 manifest_only with
  | Ret h _ => h
  | _ => ∅
  end.

Lemma prepareQuery_again_keeps_earlier_bind_variables_witness :
  exists h2 q1 q2,
    prepareQuery 1 1 0 manifest_only = Ret manifest_once q1
    /\ prepareQuery 1 1 0 manifest_once = Ret h2 q2
    /\ Aql.query q1 = "FOR doc IN @@collection_1 RETURN doc"
    /\ Aql.query q2 = "FOR doc IN @@collection_2 RETURN doc"
    /\ dom (Aql.bindVars q2) = {[ "@collection_1"; "@collection_2" ]}
    /\ dom (Aql.bindVars q1) ⊆ dom (Aql.bindVars q2).
Proof.
  do 3 eexists.
  split; [vm_compute; reflexivity|].
  split; [vm_compute; reflexivity|].
  split; [reflexivity|]. split; [reflexivity|].
  split; [by apply (bool_decide_unpack _); vm_compute|].
  eapply (prepareQuery_again_keeps_earlier_bind_variables 1 1 1 1 0
            manifest_only manifest_once).
  - vm_compute. reflexivity.
  - vm_compute. reflexivity.
Defined.
